(** * WeatherStar 4000 console display: Rocq model and verification

    The program paints a fixed scene into a 640x400 RGB framebuffer and
    exports it as ANSI half-block text and/or a PNG file.  It exists in two
    forms: the single file [weatherstar.c] and the split headers [fb.h],
    [icons.h], [display.h], [screenshot.h] with [main.c].

    Conventions of the model.
    - C [int] values are integers of [Z]; every statement is about runs
      without signed overflow (undefined in C).
    - C [float] is IEEE-754 binary32, evaluated in single precision with
      round-to-nearest-even, through the executable specification of the
      standard library ([SpecFloat], precision 24, emax 128).
    - [uint8_t] channels are values of [byte].
    - The global array [fb[FB_H][FB_W]] is a function from row and column to
      a colour, together with a flag that records whether a store outside
      the array was ever attempted (undefined behaviour in C).
    - [cosf] and [sinf] belong to libm; the icon code takes them as
      parameters.  The wall clock ([time], [localtime], [strftime]) and the
      PNG writer's file system are explicit environment records. *)

From Stdlib Require Import ZArith Lia List Bool String Ascii.
From Stdlib Require Import Strings.Byte.
From Stdlib Require Import DecimalString.
From Stdlib Require Import Floats.SpecFloat.
Import ListNotations.
Open Scope Z_scope.

(* ================================================================== *)
(** * Part I: the embedding                                            *)
(* ================================================================== *)

(** ** binary32 arithmetic *)

Module F32.
Definition float := spec_float.
Definition prec : Z := 24.
Definition emax : Z := 128.

(** [(float)z] for an [int] z. *)
Definition of_int (z : Z) : float := binary_normalize prec emax z 0 false.

Definition add : float -> float -> float := SFadd prec emax.
Definition mul : float -> float -> float := SFmul prec emax.
Definition div : float -> float -> float := SFdiv prec emax.
Definition sqrtf : float -> float := SFsqrt prec emax.

(** [x > y] *)
Definition gt (x y : float) : bool := SFltb y x.

(** [(int)x]: the fractional part is discarded (truncation toward zero).
    The conversion of a NaN or an infinity is undefined in C; the model
    yields 0 there. *)
Definition to_int (x : float) : Z :=
  match x with
  | S754_finite sg m e =>
      let a := match e with
               | Zneg p => Z.shiftr (Zpos m) (Zpos p)
               | _ => Z.shiftl (Zpos m) e
               end in
      if sg then - a else a
  | _ => 0
  end.

Definition zero : float := of_int 0.
Definition one : float := of_int 1.
(** The literal [3.14159f]: the binary32 nearest to 314159/100000. *)
Definition pi_lit : float := div (of_int 314159) (of_int 100000).
(** The literal [4.0f]. *)
Definition four : float := of_int 4.
End F32.

(** ** Colours (fb.h: rgb_t and the palette) *)

Record rgb_t := mk_rgb { r : byte; g : byte; b : byte }.

(** Conversion of an integer to [uint8_t] (reduction modulo 256). *)
Definition u8 (z : Z) : byte :=
  match Byte.of_N (Z.to_N (z mod 256)) with
  | Some x => x
  | None => x00
  end.

(** Integer promotion of a [uint8_t]. *)
Definition int_of (x : byte) : Z := Z.of_N (Byte.to_N x).

(** [(uint8_t)f] for a float [f]; undefined in C when the truncated value
    is outside 0..255, which the interpolations below never produce. *)
Definition u8_of_float (f : F32.float) : byte := u8 (F32.to_int f).

Definition rgb (rv gv bv : Z) : rgb_t := mk_rgb (u8 rv) (u8 gv) (u8 bv).

Definition rgb_eqb (c d : rgb_t) : bool :=
  Byte.eqb (r c) (r d) && Byte.eqb (g c) (g d) && Byte.eqb (b c) (b d).

Definition COL_HEADER  : rgb_t := rgb  40  70 170.
Definition COL_ACCENT  : rgb_t := rgb  60 120 210.
Definition COL_GOLD    : rgb_t := rgb 255 200  50.
Definition COL_WHITE   : rgb_t := rgb 255 255 255.
Definition COL_LTGRAY  : rgb_t := rgb 180 190 210.
Definition COL_YELLOW  : rgb_t := rgb 255 255 100.
Definition COL_CYAN    : rgb_t := rgb 100 220 255.
Definition COL_GREEN   : rgb_t := rgb  80 220 120.
Definition COL_ORANGE  : rgb_t := rgb 255 160  50.
Definition COL_GRADTOP : rgb_t := rgb  20  40 120.
Definition COL_GRADBOT : rgb_t := rgb   5  15  60.
Definition COL_SEP     : rgb_t := rgb  50  80 160.
Definition COL_TEMPHI  : rgb_t := rgb 255 100  80.
Definition COL_TEMPLO  : rgb_t := rgb 100 180 255.

(** ** The framebuffer *)

Definition FB_W : Z := 640.
Definition FB_H : Z := 400.

(** [fb s y x] is [fb[y][x]]; [oob s] tells that some store fell outside
    the array. *)
Record fb_state := mk_fb { fb : Z -> Z -> rgb_t; oob : bool }.

(** The guard the sources write as
    [x >= 0 && x < FB_W && y >= 0 && y < FB_H]. *)
Definition in_fb (y x : Z) : bool :=
  (0 <=? x) && (x <? FB_W) && (0 <=? y) && (y <? FB_H).

(** The store [fb[y][x] = c]. *)
Definition fb_set (y x : Z) (c : rgb_t) (s : fb_state) : fb_state :=
  if in_fb y x
  then mk_fb (fun y' x' => if (y' =? y) && (x' =? x) then c else fb s y' x')
             (oob s)
  else mk_fb (fb s) true.

(** Static storage starts zeroed. *)
Definition fb_initial : fb_state := mk_fb (fun _ _ => rgb 0 0 0) false.

(** ** Loops *)

Fixpoint for_n {St : Type} (n : nat) (i : Z) (body : Z -> St -> St) (s : St)
  : St :=
  match n with
  | O => s
  | S k => for_n k (i + 1) body (body i s)
  end.

(** [for (int i = lo; i < hi; i++) body]. *)
Definition for_range {St : Type} (lo hi : Z) (body : Z -> St -> St) (s : St)
  : St :=
  for_n (Z.to_nat (hi - lo)) lo body s.

(** A [for] loop with an arbitrary condition and increment; [fuel] bounds
    the number of iterations. *)
Fixpoint for_loop {St : Type} (fuel : nat) (cond : Z -> bool)
  (next : Z -> Z) (body : Z -> St -> St) (i : Z) (s : St) : St :=
  match fuel with
  | O => s
  | S k => if cond i then for_loop k cond next body (next i) (body i s)
           else s
  end.

(** The integers [lo], [lo+1], ..., [hi-1]. *)
Definition zrange (lo hi : Z) : list Z :=
  map (fun k => lo + Z.of_nat k) (seq 0 (Z.to_nat (hi - lo))).

Definition exists_range (lo hi : Z) (p : Z -> bool) : bool :=
  existsb p (zrange lo hi).

Definition forall_range (lo hi : Z) (p : Z -> bool) : bool :=
  forallb p (zrange lo hi).

(** ** fb.h: background, rectangles, lines, rounded rectangle *)

Module Fb.

(** [(uint8_t)(a + (b - a) * t)] on the promoted channels [a], [b]. *)
Definition lerp_u8 (a c : byte) (t : F32.float) : byte :=
  u8_of_float
    (F32.add (F32.of_int (int_of a))
             (F32.mul (F32.of_int (int_of c - int_of a)) t)).

Definition fb_bg_at (y : Z) : rgb_t :=
  let t := F32.div (F32.of_int y) (F32.of_int FB_H) in
  mk_rgb (lerp_u8 (r COL_GRADTOP) (r COL_GRADBOT) t)
         (lerp_u8 (g COL_GRADTOP) (g COL_GRADBOT) t)
         (lerp_u8 (b COL_GRADTOP) (b COL_GRADBOT) t).

Definition fb_clear (s : fb_state) : fb_state :=
  for_range 0 FB_H (fun y s =>
    let c := fb_bg_at y in
    for_range 0 FB_W (fun x => fb_set y x c) s) s.

(** The loop conditions [y < y0 + h && y < FB_H] and
    [x < x0 + w && x < FB_W] are upper bounds [Z.min _ _]. *)
Definition fb_rect (x0 y0 w h : Z) (c : rgb_t) (s : fb_state) : fb_state :=
  for_range y0 (Z.min (y0 + h) FB_H) (fun y =>
    for_range x0 (Z.min (x0 + w) FB_W) (fun x s =>
      if (0 <=? x) && (0 <=? y) then fb_set y x c s else s)) s.

(** The colour of row [y] of a gradient rectangle of height [h] that
    starts at row [y0]. *)
Definition grad_color (y0 h : Z) (top bot : rgb_t) (y : Z) : rgb_t :=
  let t := if 1 <? h
           then F32.div (F32.of_int (y - y0)) (F32.of_int (h - 1))
           else F32.of_int 0 in
  mk_rgb (lerp_u8 (r top) (r bot) t)
         (lerp_u8 (g top) (g bot) t)
         (lerp_u8 (b top) (b bot) t).

Definition fb_rect_grad_v (x0 y0 w h : Z) (top bot : rgb_t) (s : fb_state)
  : fb_state :=
  for_range y0 (Z.min (y0 + h) FB_H) (fun y s =>
    let c := grad_color y0 h top bot y in
    for_range x0 (Z.min (x0 + w) FB_W) (fun x s =>
      if (0 <=? x) && (0 <=? y) then fb_set y x c s else s) s) s.

Definition fb_hline (x0 x1 y : Z) (c : rgb_t) (s : fb_state) : fb_state :=
  if (y <? 0) || (FB_H <=? y) then s
  else for_range x0 (Z.min (x1 + 1) FB_W) (fun x s =>
         if 0 <=? x then fb_set y x c s else s) s.

(** The corner test of fb.h: [dist_sq <= r_sq] keeps the pixel, so a
    pixel is knocked out when [dist_sq > r_sq]. *)
Definition outside_arc (rad dx dy : Z) : bool :=
  let r_sq := rad * rad in
  let dist_sq := (rad - dx) * (rad - dx) + (rad - dy) * (rad - dy) in
  negb (dist_sq <=? r_sq).

(** The four mirrored positions of corner offset (dx, dy), as (cx, cy). *)
Definition corners (x0 y0 w h dx dy : Z) : list (Z * Z) :=
  [ (x0 + dx,         y0 + dy);
    (x0 + w - 1 - dx, y0 + dy);
    (x0 + dx,         y0 + h - 1 - dy);
    (x0 + w - 1 - dx, y0 + h - 1 - dy) ].

(** Restores the background at the four positions. *)
Definition knock_out (bg : Z -> rgb_t) (x0 y0 w h dx dy : Z)
  (s : fb_state) : fb_state :=
  fold_left (fun s c =>
               let '(cx, cy) := c in
               if in_fb cy cx then fb_set cy cx (bg cy) s else s)
            (corners x0 y0 w h dx dy) s.

Definition draw_rounded_rect (x0 y0 w h rad : Z) (fill : rgb_t)
  (s : fb_state) : fb_state :=
  let s := fb_rect x0 y0 w h fill s in
  for_range 0 rad (fun dy =>
    for_range 0 rad (fun dx s =>
      if outside_arc rad dx dy
      then knock_out fb_bg_at x0 y0 w h dx dy s
      else s)) s.

End Fb.

(** ** The 5x7 font and text (weatherstar.c; font.h of the split build is
    the same code) *)

Module Font.

Definition font5x7 : list (list Z) := [
  [0x00; 0x00; 0x00; 0x00; 0x00; 0x00; 0x00] (* 32 *);
  [0x04; 0x04; 0x04; 0x04; 0x04; 0x00; 0x04] (* 33 *);
  [0x0A; 0x0A; 0x00; 0x00; 0x00; 0x00; 0x00] (* 34 *);
  [0x0A; 0x1F; 0x0A; 0x0A; 0x1F; 0x0A; 0x00] (* 35 *);
  [0x04; 0x0F; 0x14; 0x0E; 0x05; 0x1E; 0x04] (* 36 *);
  [0x18; 0x19; 0x02; 0x04; 0x08; 0x13; 0x03] (* 37 *);
  [0x08; 0x14; 0x14; 0x08; 0x15; 0x12; 0x0D] (* 38 *);
  [0x04; 0x04; 0x00; 0x00; 0x00; 0x00; 0x00] (* 39 *);
  [0x02; 0x04; 0x08; 0x08; 0x08; 0x04; 0x02] (* 40 *);
  [0x08; 0x04; 0x02; 0x02; 0x02; 0x04; 0x08] (* 41 *);
  [0x00; 0x04; 0x15; 0x0E; 0x15; 0x04; 0x00] (* 42 *);
  [0x00; 0x04; 0x04; 0x1F; 0x04; 0x04; 0x00] (* 43 *);
  [0x00; 0x00; 0x00; 0x00; 0x00; 0x04; 0x08] (* 44 *);
  [0x00; 0x00; 0x00; 0x1F; 0x00; 0x00; 0x00] (* 45 *);
  [0x00; 0x00; 0x00; 0x00; 0x00; 0x00; 0x04] (* 46 *);
  [0x01; 0x01; 0x02; 0x04; 0x08; 0x10; 0x10] (* 47 *);
  [0x0E; 0x11; 0x13; 0x15; 0x19; 0x11; 0x0E] (* 48 *);
  [0x04; 0x0C; 0x04; 0x04; 0x04; 0x04; 0x0E] (* 49 *);
  [0x0E; 0x11; 0x01; 0x06; 0x08; 0x10; 0x1F] (* 50 *);
  [0x0E; 0x11; 0x01; 0x06; 0x01; 0x11; 0x0E] (* 51 *);
  [0x02; 0x06; 0x0A; 0x12; 0x1F; 0x02; 0x02] (* 52 *);
  [0x1F; 0x10; 0x1E; 0x01; 0x01; 0x11; 0x0E] (* 53 *);
  [0x06; 0x08; 0x10; 0x1E; 0x11; 0x11; 0x0E] (* 54 *);
  [0x1F; 0x01; 0x02; 0x04; 0x08; 0x08; 0x08] (* 55 *);
  [0x0E; 0x11; 0x11; 0x0E; 0x11; 0x11; 0x0E] (* 56 *);
  [0x0E; 0x11; 0x11; 0x0F; 0x01; 0x02; 0x0C] (* 57 *);
  [0x00; 0x00; 0x04; 0x00; 0x00; 0x04; 0x00] (* 58 *);
  [0x00; 0x00; 0x04; 0x00; 0x00; 0x04; 0x08] (* 59 *);
  [0x02; 0x04; 0x08; 0x10; 0x08; 0x04; 0x02] (* 60 *);
  [0x00; 0x00; 0x1F; 0x00; 0x1F; 0x00; 0x00] (* 61 *);
  [0x08; 0x04; 0x02; 0x01; 0x02; 0x04; 0x08] (* 62 *);
  [0x0E; 0x11; 0x01; 0x02; 0x04; 0x00; 0x04] (* 63 *);
  [0x0E; 0x11; 0x17; 0x15; 0x17; 0x10; 0x0E] (* 64 *);
  [0x0E; 0x11; 0x11; 0x1F; 0x11; 0x11; 0x11] (* 65 *);
  [0x1E; 0x11; 0x11; 0x1E; 0x11; 0x11; 0x1E] (* 66 *);
  [0x0E; 0x11; 0x10; 0x10; 0x10; 0x11; 0x0E] (* 67 *);
  [0x1E; 0x11; 0x11; 0x11; 0x11; 0x11; 0x1E] (* 68 *);
  [0x1F; 0x10; 0x10; 0x1E; 0x10; 0x10; 0x1F] (* 69 *);
  [0x1F; 0x10; 0x10; 0x1E; 0x10; 0x10; 0x10] (* 70 *);
  [0x0E; 0x11; 0x10; 0x17; 0x11; 0x11; 0x0F] (* 71 *);
  [0x11; 0x11; 0x11; 0x1F; 0x11; 0x11; 0x11] (* 72 *);
  [0x0E; 0x04; 0x04; 0x04; 0x04; 0x04; 0x0E] (* 73 *);
  [0x07; 0x02; 0x02; 0x02; 0x02; 0x12; 0x0C] (* 74 *);
  [0x11; 0x12; 0x14; 0x18; 0x14; 0x12; 0x11] (* 75 *);
  [0x10; 0x10; 0x10; 0x10; 0x10; 0x10; 0x1F] (* 76 *);
  [0x11; 0x1B; 0x15; 0x15; 0x11; 0x11; 0x11] (* 77 *);
  [0x11; 0x19; 0x15; 0x13; 0x11; 0x11; 0x11] (* 78 *);
  [0x0E; 0x11; 0x11; 0x11; 0x11; 0x11; 0x0E] (* 79 *);
  [0x1E; 0x11; 0x11; 0x1E; 0x10; 0x10; 0x10] (* 80 *);
  [0x0E; 0x11; 0x11; 0x11; 0x15; 0x12; 0x0D] (* 81 *);
  [0x1E; 0x11; 0x11; 0x1E; 0x14; 0x12; 0x11] (* 82 *);
  [0x0E; 0x11; 0x10; 0x0E; 0x01; 0x11; 0x0E] (* 83 *);
  [0x1F; 0x04; 0x04; 0x04; 0x04; 0x04; 0x04] (* 84 *);
  [0x11; 0x11; 0x11; 0x11; 0x11; 0x11; 0x0E] (* 85 *);
  [0x11; 0x11; 0x11; 0x11; 0x0A; 0x0A; 0x04] (* 86 *);
  [0x11; 0x11; 0x11; 0x15; 0x15; 0x1B; 0x11] (* 87 *);
  [0x11; 0x11; 0x0A; 0x04; 0x0A; 0x11; 0x11] (* 88 *);
  [0x11; 0x11; 0x0A; 0x04; 0x04; 0x04; 0x04] (* 89 *);
  [0x1F; 0x01; 0x02; 0x04; 0x08; 0x10; 0x1F] (* 90 *);
  [0x0E; 0x08; 0x08; 0x08; 0x08; 0x08; 0x0E] (* 91 *);
  [0x10; 0x10; 0x08; 0x04; 0x02; 0x01; 0x01] (* 92 *);
  [0x0E; 0x02; 0x02; 0x02; 0x02; 0x02; 0x0E] (* 93 *);
  [0x04; 0x0A; 0x11; 0x00; 0x00; 0x00; 0x00] (* 94 *);
  [0x00; 0x00; 0x00; 0x00; 0x00; 0x00; 0x1F] (* 95 *);
  [0x08; 0x04; 0x00; 0x00; 0x00; 0x00; 0x00] (* 96 *);
  [0x00; 0x00; 0x0E; 0x01; 0x0F; 0x11; 0x0F] (* 97 *);
  [0x10; 0x10; 0x1E; 0x11; 0x11; 0x11; 0x1E] (* 98 *);
  [0x00; 0x00; 0x0E; 0x11; 0x10; 0x11; 0x0E] (* 99 *);
  [0x01; 0x01; 0x0F; 0x11; 0x11; 0x11; 0x0F] (* 100 *);
  [0x00; 0x00; 0x0E; 0x11; 0x1F; 0x10; 0x0E] (* 101 *);
  [0x06; 0x08; 0x1E; 0x08; 0x08; 0x08; 0x08] (* 102 *);
  [0x00; 0x00; 0x0F; 0x11; 0x0F; 0x01; 0x0E] (* 103 *);
  [0x10; 0x10; 0x1E; 0x11; 0x11; 0x11; 0x11] (* 104 *);
  [0x04; 0x00; 0x0C; 0x04; 0x04; 0x04; 0x0E] (* 105 *);
  [0x02; 0x00; 0x06; 0x02; 0x02; 0x12; 0x0C] (* 106 *);
  [0x10; 0x10; 0x12; 0x14; 0x18; 0x14; 0x12] (* 107 *);
  [0x0C; 0x04; 0x04; 0x04; 0x04; 0x04; 0x0E] (* 108 *);
  [0x00; 0x00; 0x1A; 0x15; 0x15; 0x15; 0x15] (* 109 *);
  [0x00; 0x00; 0x1E; 0x11; 0x11; 0x11; 0x11] (* 110 *);
  [0x00; 0x00; 0x0E; 0x11; 0x11; 0x11; 0x0E] (* 111 *);
  [0x00; 0x00; 0x1E; 0x11; 0x1E; 0x10; 0x10] (* 112 *);
  [0x00; 0x00; 0x0F; 0x11; 0x0F; 0x01; 0x01] (* 113 *);
  [0x00; 0x00; 0x16; 0x19; 0x10; 0x10; 0x10] (* 114 *);
  [0x00; 0x00; 0x0F; 0x10; 0x0E; 0x01; 0x1E] (* 115 *);
  [0x08; 0x08; 0x1E; 0x08; 0x08; 0x09; 0x06] (* 116 *);
  [0x00; 0x00; 0x11; 0x11; 0x11; 0x11; 0x0F] (* 117 *);
  [0x00; 0x00; 0x11; 0x11; 0x0A; 0x0A; 0x04] (* 118 *);
  [0x00; 0x00; 0x11; 0x11; 0x15; 0x15; 0x0A] (* 119 *);
  [0x00; 0x00; 0x11; 0x0A; 0x04; 0x0A; 0x11] (* 120 *);
  [0x00; 0x00; 0x11; 0x11; 0x0F; 0x01; 0x0E] (* 121 *);
  [0x00; 0x00; 0x1F; 0x02; 0x04; 0x08; 0x1F] (* 122 *);
  [0x02; 0x04; 0x04; 0x08; 0x04; 0x04; 0x02] (* 123 *);
  [0x04; 0x04; 0x04; 0x04; 0x04; 0x04; 0x04] (* 124 *);
  [0x08; 0x04; 0x04; 0x02; 0x04; 0x04; 0x08] (* 125 *);
  [0x00; 0x00; 0x08; 0x15; 0x02; 0x00; 0x00] (* 126 *)
].

(** [font5x7[idx][row]] *)
Definition glyph_row (idx row : Z) : Z :=
  nth (Z.to_nat row) (nth (Z.to_nat idx) font5x7 []) 0.

(** A [scale] x [scale] block of one set glyph bit. *)
Definition blit_block (px py col row scale : Z) (fg : rgb_t)
  (s : fb_state) : fb_state :=
  for_range 0 scale (fun sy =>
    for_range 0 scale (fun sx s =>
      let fx := px + col * scale + sx in
      let fy := py + row * scale + sy in
      if in_fb fy fx then fb_set fy fx fg s else s)) s.

(** [ch] is the character code. *)
Definition fb_char (px py ch : Z) (fg : rgb_t) (scale : Z) (s : fb_state)
  : fb_state :=
  let idx := ch - 32 in
  let idx := if (idx <? 0) || (94 <? idx) then 0 else idx in
  for_range 0 7 (fun row =>
    for_range 0 5 (fun col s =>
      if Z.land (glyph_row idx row) (Z.shiftr 0x10 col) =? 0 then s
      else blit_block px py col row scale fg s)) s.

Definition code (c : ascii) : Z := Z.of_nat (nat_of_ascii c).

(** The loop of [fb_string]: returns the final value of [px] together
    with the framebuffer. *)
Fixpoint fb_string_loop (px py : Z) (str : string) (fg : rgb_t)
  (scale : Z) (s : fb_state) : Z * fb_state :=
  let spacing := 6 * scale in
  match str with
  | EmptyString => (px, s)
  | String c rest =>
      fb_string_loop (px + spacing) py rest fg scale
                     (fb_char px py (code c) fg scale s)
  end.

Definition fb_string (px py : Z) (str : string) (fg : rgb_t) (scale : Z)
  (s : fb_state) : fb_state :=
  snd (fb_string_loop px py str fg scale s).

Definition fb_string_width (str : string) (scale : Z) : Z :=
  Z.of_nat (String.length str) * 6 * scale.

(** C division of [int]s truncates toward zero: [Z.quot]. *)
Definition fb_string_centered (y : Z) (str : string) (fg : rgb_t)
  (scale : Z) (s : fb_state) : fb_state :=
  let w := fb_string_width str scale in
  fb_string (Z.quot (FB_W - w) 2) y str fg scale s.

Definition deg : list Z := [0x02; 0x05; 0x02].

Definition fb_degree (px py : Z) (fg : rgb_t) (scale : Z) (s : fb_state)
  : fb_state :=
  for_range 0 3 (fun row =>
    for_range 0 3 (fun col s =>
      if Z.land (nth (Z.to_nat row) deg 0) (Z.shiftr 0x04 col) =? 0 then s
      else blit_block px py col row scale fg s)) s.

End Font.

(** ** icons.h: sun and cloud *)

Module Icons.
Section Trig.
(** libm's [cosf] and [sinf]. *)
Variables cosf sinf : F32.float -> F32.float.

(** [float angle = (float)i * 3.14159f / 4.0f] *)
Definition ray_angle (i : Z) : F32.float :=
  F32.div (F32.mul (F32.of_int i) F32.pi_lit) F32.four.

(** [(int)(f(angle) * (float)d)] *)
Definition ray_offset (f : F32.float -> F32.float) (i d : Z) : Z :=
  F32.to_int (F32.mul (f (ray_angle i)) (F32.of_int d)).

Definition draw_sun (cx cy rad : Z) (s : fb_state) : fb_state :=
  let s :=
    for_range (- rad) (rad + 1) (fun dy =>
      for_range (- rad) (rad + 1) (fun dx s =>
        if dx * dx + dy * dy <=? rad * rad then
          let px := cx + dx in
          let py := cy + dy in
          if in_fb py px then fb_set py px COL_YELLOW s else s
        else s)) s in
  for_range 0 8 (fun i =>
    for_range (rad + 3) (rad + 10) (fun d s =>
      let px := cx + ray_offset cosf i d in
      let py := cy + ray_offset sinf i d in
      let s := if in_fb py px then fb_set py px COL_ORANGE s else s in
      if in_fb py (px + 1) then fb_set py (px + 1) COL_ORANGE s else s)) s.
End Trig.

(** A filled disc of radius [rad] centred at (cx, cy). *)
Definition disc (cx cy rad : Z) (col : rgb_t) (s : fb_state) : fb_state :=
  for_range (- rad) (rad + 1) (fun dy =>
    for_range (- rad) (rad + 1) (fun dx s =>
      if dx * dx + dy * dy <=? rad * rad then
        let px := cx + dx in
        let py := cy + dy in
        if in_fb py px then fb_set py px col s else s
      else s)) s.

Definition offsets : list (Z * Z * Z) :=
  [ (0, 0, 12); (-10, 4, 10); (10, 4, 10) ].

Definition draw_cloud (cx cy : Z) (col : rgb_t) (s : fb_state) : fb_state :=
  fold_left (fun s o =>
               let '(ox, oy, rad) := o in
               disc (cx + ox) (cy + oy) rad col s)
            offsets s.
End Icons.

(** ** Text output helpers *)

(** [printf("%d", z)] *)
Definition dec (z : Z) : string := NilZero.string_of_int (Z.to_int z).

(** [snprintf(buf, size, ...)] keeps at most [size - 1] characters. *)
Definition snprintf (size : nat) (txt : string) : string :=
  substring 0 (size - 1) txt.

Definition ESC : ascii := "027"%char.
Definition NL : ascii := "010"%char.

(** ** display.h and weatherstar.c: compose_display

    The two builds have the same text; they differ in the [fb_clear],
    [draw_rounded_rect] and [draw_sun] they call. *)

(** What [strftime] yields for the value of [time(NULL)]: the environment
    of one call of [compose_display]. *)
Record clock := mk_clock {
  clock_time : string;   (* format "%I:%M %p" *)
  clock_date : string    (* format "%A  %b %d, %Y" *)
}.

(** [(timebuf[0] == '0') ? timebuf + 1 : timebuf] *)
Definition strip_hour_zero (timebuf : string) : string :=
  match timebuf with
  | String c rest => if Ascii.eqb c "0"%char then rest else timebuf
  | EmptyString => timebuf
  end.

Definition days : list string := ["SAT"; "SUN"; "MON"; "TUE"; "WED"]%string.
Definition conds : list string :=
  ["Sunny"; "Cloudy"; "Rain"; "P.Cloud"; "Sunny"]%string.
Definition his : list Z := [68; 65; 58; 61; 70].
Definition los : list Z := [52; 50; 48; 49; 54].

Section Composer.
Variable fb_clear : fb_state -> fb_state.
Variable draw_rounded_rect :
  Z -> Z -> Z -> Z -> Z -> rgb_t -> fb_state -> fb_state.
Variable draw_sun : Z -> Z -> Z -> fb_state -> fb_state.

(** One box of the forecast strip. *)
Definition forecast_box (box_start box_w box_gap strip_y i : Z)
  (s : fb_state) : fb_state :=
  let bx := box_start + i * (box_w + box_gap) in
  let by_ := strip_y + 26 in
  let s := Fb.fb_rect bx by_ box_w 95 (rgb 15 25 90) s in
  let s := Fb.fb_hline bx (bx + box_w - 1) by_ COL_SEP s in
  let day := nth (Z.to_nat i) days EmptyString in
  let dw := Font.fb_string_width day 2 in
  let s := Font.fb_string (bx + Z.quot (box_w - dw) 2) (by_ + 4) day COL_WHITE 2 s in
  let hilo := snprintf 32 ("Hi " ++ dec (nth (Z.to_nat i) his 0)) in
  let s := Font.fb_string (bx + 8) (by_ + 30) hilo COL_TEMPHI 1 s in
  let hilo := snprintf 32 ("Lo " ++ dec (nth (Z.to_nat i) los 0)) in
  let s := Font.fb_string (bx + 8) (by_ + 44) hilo COL_TEMPLO 1 s in
  let s := Font.fb_string (bx + 8) (by_ + 62)
                     (nth (Z.to_nat i) conds EmptyString) COL_LTGRAY 1 s in
  let dot := if i =? 2 then COL_CYAN else COL_YELLOW in
  for_range (-3) 4 (fun dy =>
    for_range (-3) 4 (fun dx s =>
      if dx * dx + dy * dy <=? 9 then
        let px := bx + box_w - 18 + dx in
        let py := by_ + 72 + dy in
        if in_fb py px then fb_set py px dot s else s
      else s)) s.

Definition compose_display (clk : clock) (s : fb_state) : fb_state :=
  let timebuf := clock_time clk in
  let datebuf := clock_date clk in
  let timestr := strip_hour_zero timebuf in
  let s := fb_clear s in
  (* top gold accent bar *)
  let s := Fb.fb_rect 0 0 FB_W 4 COL_GOLD s in
  (* header *)
  let s := Fb.fb_rect_grad_v 0 4 FB_W 36 COL_HEADER (rgb 30 55 140) s in
  let s := Font.fb_string_centered 10 "THE  WEATHER  CHANNEL" COL_WHITE 2 s in
  (* separator *)
  let s := Fb.fb_hline 0 (FB_W - 1) 40 COL_GOLD s in
  let s := Fb.fb_hline 0 (FB_W - 1) 41 COL_GOLD s in
  (* location bar *)
  let s := Fb.fb_rect_grad_v 0 42 FB_W 30 (rgb 30 50 140) (rgb 20 35 110) s in
  let s := Font.fb_string_centered 48 "LOCAL  FORECAST" COL_CYAN 2 s in
  let s := Fb.fb_hline 20 (FB_W - 21) 73 COL_SEP s in
  (* location name *)
  let s := Font.fb_string_centered 80 "San Francisco, CA" COL_WHITE 2 s in
  (* current conditions card *)
  let card_y := 104 in
  let s := draw_rounded_rect 20 card_y (FB_W - 40) 140 6 (rgb 15 25 90) s in
  let s := Fb.fb_hline 22 (FB_W - 23) (card_y + 1) COL_SEP s in
  let s := Font.fb_string 36 (card_y + 8) "Current Conditions" COL_ACCENT 1 s in
  let s := Fb.fb_hline 36 (FB_W - 57) (card_y + 20) (rgb 40 60 130) s in
  let s := draw_sun 90 (card_y + 55) 18 s in
  let s := Icons.draw_cloud 110 (card_y + 60) COL_LTGRAY s in
  let s := Font.fb_string 180 (card_y + 30) "62" COL_WHITE 5 s in
  let s := Font.fb_degree (180 + 5 * 6 * 2) (card_y + 30) COL_WHITE 3 s in
  let s := Font.fb_string (180 + 5 * 6 * 2 + 12) (card_y + 30) "F" COL_WHITE 4 s in
  let s := Font.fb_string 180 (card_y + 75) "Partly Cloudy" COL_LTGRAY 2 s in
  let lbl_x := 36 in
  let val_x := 36 + 11 * 6 in
  let s := Font.fb_string lbl_x (card_y + 100) "Humidity:" COL_CYAN 1 s in
  let s := Font.fb_string val_x (card_y + 100) "72%" COL_WHITE 1 s in
  let s := Font.fb_string lbl_x (card_y + 112) "Wind:" COL_CYAN 1 s in
  let s := Font.fb_string val_x (card_y + 112) "W 12 mph" COL_WHITE 1 s in
  let s := Font.fb_string lbl_x (card_y + 124) "Barometer:" COL_CYAN 1 s in
  let s := Font.fb_string val_x (card_y + 124) "30.12 in" COL_WHITE 1 s in
  let rlbl_x := 320 in
  let rval_x := 320 + 12 * 6 in
  let s := Font.fb_string rlbl_x (card_y + 100) "Dewpoint:" COL_CYAN 1 s in
  let s := Font.fb_string rval_x (card_y + 100) "54 F" COL_WHITE 1 s in
  let s := Font.fb_string rlbl_x (card_y + 112) "Visibility:" COL_CYAN 1 s in
  let s := Font.fb_string rval_x (card_y + 112) "10 mi" COL_WHITE 1 s in
  let s := Font.fb_string rlbl_x (card_y + 124) "UV Index:" COL_CYAN 1 s in
  let s := Font.fb_string rval_x (card_y + 124) "3 Moderate" COL_GREEN 1 s in
  (* forecast strip *)
  let strip_y := 252 in
  let s := Fb.fb_hline 20 (FB_W - 21) strip_y COL_GOLD s in
  let s := Fb.fb_hline 20 (FB_W - 21) (strip_y + 1) COL_GOLD s in
  let s := Font.fb_string 30 (strip_y + 8) "EXTENDED FORECAST" COL_GOLD 1 s in
  let s := Fb.fb_hline 20 (FB_W - 21) (strip_y + 20) (rgb 40 60 130) s in
  let box_w := 110 in
  let box_gap := 10 in
  let box_start := Z.quot (FB_W - (5 * box_w + 4 * box_gap)) 2 in
  let s := for_range 0 5
             (forecast_box box_start box_w box_gap strip_y) s in
  (* bottom bar with time *)
  let bot_y := FB_H - 30 in
  let s := Fb.fb_rect 0 bot_y FB_W 30 (rgb 10 15 55) s in
  let s := Fb.fb_hline 0 (FB_W - 1) bot_y COL_GOLD s in
  let s := Fb.fb_hline 0 (FB_W - 1) (bot_y + 1) COL_GOLD s in
  let s := Font.fb_string 20 (bot_y + 10) datebuf COL_LTGRAY 1 s in
  let tw := Font.fb_string_width timestr 2 in
  let s := Font.fb_string (FB_W - tw - 20) (bot_y + 6) timestr COL_WHITE 2 s in
  Font.fb_string_centered (bot_y + 10) "Local on the 8s" COL_GOLD 1 s.
End Composer.

(** ** Terminal output: the escape sequences *)

(** The three bytes of U+2580, the upper half block. *)
Definition half_block : string :=
  String (ascii_of_nat 226)
    (String (ascii_of_nat 150) (String (ascii_of_nat 128) EmptyString)).

(** ["\033[0m"] *)
Definition sgr_reset : string := String ESC "[0m".

(** ["\033[H\033[2J"] *)
Definition clear_screen : string := String ESC "[H" ++ String ESC "[2J".

(** The text of one cell, as printed by the format
    ["\033[38;2;%d;%d;%dm\033[48;2;%d;%d;%dm\xe2\x96\x80"]. *)
Definition cell (top bot : rgb_t) : string :=
  String ESC "[38;2;" ++ dec (int_of (r top)) ++ ";" ++
  dec (int_of (g top)) ++ ";" ++ dec (int_of (b top)) ++ "m" ++
  String ESC "[48;2;" ++ dec (int_of (r bot)) ++ ";" ++
  dec (int_of (g bot)) ++ ";" ++ dec (int_of (b bot)) ++ "m" ++
  half_block.

(** ** What a run of the program does to the outside *)

Inductive event :=
| Stdout (txt : string)
| Stderr (txt : string)
| PngWritten (path : string) (pixels : fb_state)
| PngFailed (path : string).

(** What the environment makes of one call of [write_png]: [fopen] fails,
    with the text of [strerror(errno)]; or the file is opened and a later
    step fails (libpng reports an error, with what its default handler
    printed on stderr, or an allocation fails and nothing is printed); or
    the PNG is written. *)
Inductive png_outcome :=
| OpenFails (err : string)
| EncodeFails (diag : option string)
| Written.

(** What [perror(path)] prints: the path, a colon and a space (left out
    when the path is empty), the error text, a newline. *)
Definition perror (path err : string) : string :=
  match path with
  | EmptyString => (err ++ String NL EmptyString)%string
  | String _ _ => (path ++ ": " ++ err ++ String NL EmptyString)%string
  end.

(** ** display.h *)

Module Display.
Definition compose_display (cosf sinf : F32.float -> F32.float) :=
  compose_display Fb.fb_clear Fb.draw_rounded_rect
                  (Icons.draw_sun cosf sinf).
End Display.

(** ** screenshot.h *)

Module Screenshot.

(** The PNG encoding itself is not modelled: [png path] is the outcome
    of the call.  A failed [fopen] calls [perror(path)] and returns -1; a
    failure after it returns -1; [PngFailed] records that no complete
    file was produced. *)
Definition write_png (png : string -> png_outcome) (path : string)
  (s : fb_state) : list event * Z :=
  match png path with
  | OpenFails err => ([Stderr (perror path err); PngFailed path], -1)
  | EncodeFails diag =>
      (match diag with Some d => [Stderr d] | None => [] end
         ++ [PngFailed path], -1)
  | Written => ([PngWritten path s], 0)
  end.

(** [sizeof(line)] *)
Definition LINE_SIZE : Z := 640 * 48 + 16.

(** [pos += snprintf(line + pos, sizeof(line) - (size_t)pos, txt)] on
    the pair of the line written so far and [pos]: at most
    [size - 1] characters are stored, the full length is added. *)
Definition line_printf (txt : string) (lp : string * Z) : string * Z :=
  let '(line, pos) := lp in
  ((line ++ snprintf (Z.to_nat (LINE_SIZE - pos)) txt)%string,
   pos + Z.of_nat (String.length txt)).

(** [fwrite(line, 1, pos, stdout)] *)
Definition fwrite (lp : string * Z) (out : string) : string :=
  let '(line, pos) := lp in
  (out ++ substring 0 (Z.to_nat pos) line)%string.

Definition ansi_output (s : fb_state) (out : string) : string :=
  let out := (out ++ clear_screen)%string in
  let out :=
    for_loop (Z.to_nat FB_H) (fun y => y <? FB_H) (fun y => y + 2)
      (fun y out =>
         let lp := (EmptyString, 0) in
         let lp :=
           for_range 0 FB_W (fun x lp =>
             let top := fb s y x in
             let bot := if y + 1 <? FB_H then fb s (y + 1) x else top in
             line_printf (cell top bot) lp) lp in
         let lp :=
           line_printf (sgr_reset ++ String NL EmptyString)%string lp in
         fwrite lp out)
      0 out in
  (out ++ sgr_reset)%string.

End Screenshot.

(** ** main.c and the main of weatherstar.c (same text) *)

Inductive parse_result :=
| ShowHelp
| Proceed (screenshot : option string) (no_ansi : bool).

(** The argument loop over [argv[1..]]: [--screenshot] takes the next
    argument when there is one ([i + 1 < argc]). *)
Fixpoint parse_args (args : list string) (screenshot : option string)
  (no_ansi : bool) : parse_result :=
  match args with
  | [] => Proceed screenshot no_ansi
  | a :: rest =>
      let has_next := match rest with [] => false | _ :: _ => true end in
      if String.eqb a "--screenshot" && has_next then
        match rest with
        | path :: rest' => parse_args rest' (Some path) no_ansi
        | [] => Proceed screenshot no_ansi
        end
      else if String.eqb a "--no-ansi" then parse_args rest screenshot true
      else if String.eqb a "--help" then ShowHelp
      else parse_args rest screenshot no_ansi
  end.

Definition usage : string :=
  "Usage: weatherstar [--screenshot FILE.png] [--no-ansi]" ++
  String NL EmptyString.

Section Program.
Variable compose_display : clock -> fb_state -> fb_state.
Variable ansi_output : fb_state -> string -> string.
Variable write_png : string -> fb_state -> list event * Z.

(** Returns what the run emitted and the exit code. *)
Definition main (clk : clock) (args : list string) : list event * Z :=
  match parse_args args None false with
  | ShowHelp => ([Stdout usage], 0)
  | Proceed screenshot no_ansi =>
      let s := compose_display clk fb_initial in
      let tr := if no_ansi then []
                else [Stdout (ansi_output s EmptyString)] in
      match screenshot with
      | Some path =>
          let '(ev, rc) := write_png path s in
          if rc =? 0
          then (tr ++ ev ++
                [Stderr ("Screenshot saved to " ++ path ++
                         String NL EmptyString)%string], 0)
          else (tr ++ ev, 1)
      | None => (tr, 0)
      end
  end.
End Program.

Module Main.
Definition main (cosf sinf : F32.float -> F32.float)
  (png : string -> png_outcome) :=
  main (Display.compose_display cosf sinf) Screenshot.ansi_output
       (Screenshot.write_png png).
End Main.

(** ** weatherstar.c, the single-file build *)

Module Weatherstar.

(** [top + (int)((bot - top) * t)], stored into a [uint8_t]. *)
Definition bg_channel (a c : byte) (t : F32.float) : byte :=
  u8 (int_of a + F32.to_int (F32.mul (F32.of_int (int_of c - int_of a)) t)).

(** The colour both [fb_clear] and [draw_rounded_rect] compute inline for
    row [y]; the three channel stores are one pixel store here. *)
Definition bg_at (y : Z) : rgb_t :=
  let t := F32.div (F32.of_int y) (F32.of_int FB_H) in
  mk_rgb (bg_channel (r COL_GRADTOP) (r COL_GRADBOT) t)
         (bg_channel (g COL_GRADTOP) (g COL_GRADBOT) t)
         (bg_channel (b COL_GRADTOP) (b COL_GRADBOT) t).

Definition fb_clear (s : fb_state) : fb_state :=
  for_range 0 FB_H (fun y =>
    for_range 0 FB_W (fun x s => fb_set y x (bg_at y) s)) s.

(** [fb_rect], [fb_rect_grad_v] and [fb_hline] have the text of fb.h. *)
Definition fb_rect := Fb.fb_rect.
Definition fb_rect_grad_v := Fb.fb_rect_grad_v.
Definition fb_hline := Fb.fb_hline.

(** [sqrtf((float)(...)) > r] *)
Definition outside_arc (rad dx dy : Z) : bool :=
  let dist :=
    F32.sqrtf
      (F32.of_int ((rad - dx) * (rad - dx) + (rad - dy) * (rad - dy))) in
  F32.gt dist (F32.of_int rad).

Definition restore_bg (cx cy : Z) (s : fb_state) : fb_state :=
  if in_fb cy cx then fb_set cy cx (bg_at cy) s else s.

Definition draw_rounded_rect (x0 y0 w h rad : Z) (fill : rgb_t)
  (s : fb_state) : fb_state :=
  let s := fb_rect x0 y0 w h fill s in
  for_range 0 rad (fun dy =>
    for_range 0 rad (fun dx s =>
      if outside_arc rad dx dy then
        let s := restore_bg (x0 + dx) (y0 + dy) s in
        let s := restore_bg (x0 + w - 1 - dx) (y0 + dy) s in
        let s := restore_bg (x0 + dx) (y0 + h - 1 - dy) s in
        restore_bg (x0 + w - 1 - dx) (y0 + h - 1 - dy) s
      else s)) s.

Section Trig.
Variables cosf sinf : F32.float -> F32.float.

(** The second store of each ray step is guarded by [px + 1 < FB_W]
    only. *)
Definition draw_sun (cx cy rad : Z) (s : fb_state) : fb_state :=
  let s :=
    for_range (- rad) (rad + 1) (fun dy =>
      for_range (- rad) (rad + 1) (fun dx s =>
        if dx * dx + dy * dy <=? rad * rad then
          let px := cx + dx in
          let py := cy + dy in
          if in_fb py px then fb_set py px COL_YELLOW s else s
        else s)) s in
  for_range 0 8 (fun i =>
    for_range (rad + 3) (rad + 10) (fun d s =>
      let px := cx + Icons.ray_offset cosf i d in
      let py := cy + Icons.ray_offset sinf i d in
      let s := if in_fb py px then fb_set py px COL_ORANGE s else s in
      if px + 1 <? FB_W then fb_set py (px + 1) COL_ORANGE s else s)) s.
End Trig.

Definition draw_cloud := Icons.draw_cloud.


Definition ansi_output (s : fb_state) (out : string) : string :=
  let out := (out ++ clear_screen)%string in
  let out :=
    for_loop (Z.to_nat FB_H) (fun y => y <? FB_H) (fun y => y + 2)
      (fun y out =>
         let out :=
           for_range 0 FB_W (fun x out =>
             let top := fb s y x in
             let bot := if y + 1 <? FB_H then fb s (y + 1) x else top in
             (out ++ cell top bot)%string) out in
         (out ++ sgr_reset ++ String NL EmptyString)%string)
      0 out in
  (out ++ sgr_reset)%string.

(** [write_png] of weatherstar.c has the [fopen] test with [perror] and
    the libpng error return of screenshot.h; it does not test its
    allocations. *)
Definition write_png := Screenshot.write_png.

Definition compose_display (cosf sinf : F32.float -> F32.float) :=
  compose_display fb_clear draw_rounded_rect (draw_sun cosf sinf).

Definition main (cosf sinf : F32.float -> F32.float)
  (png : string -> png_outcome) :=
  main (compose_display cosf sinf) ansi_output (write_png png).

End Weatherstar.

(** ** Vocabulary of the statements *)

(** A store behind the canvas guard. *)
Definition put (y x : Z) (c : rgb_t) (s : fb_state) : fb_state :=
  if in_fb y x then fb_set y x c s else s.

Definition safe (prog : fb_state -> fb_state) : Prop :=
  forall s, oob (prog s) = oob s.

(** Once set, the flag stays set. *)
Definition oob_sticky (prog : fb_state -> fb_state) : Prop :=
  forall s, oob s = true -> oob (prog s) = true.

Definition paints (prog : fb_state -> fb_state) (hit : Z -> Z -> bool)
  (v : Z -> Z -> rgb_t) : Prop :=
  forall s y x, fb (prog s) y x = if hit y x then v y x else fb s y x.


(** The pixels of the rectangle that lie on the canvas. *)
Definition in_rect (x0 y0 w h y x : Z) : bool :=
  (y0 <=? y) && (y <? y0 + h) && (x0 <=? x) && (x <? x0 + w) && in_fb y x.


(** Every value of [uint8_t]. *)
Definition all_bytes : list byte := map u8 (zrange 0 256).

(** The rectangle lies on the canvas. *)
Definition rect_on_canvas (x0 y0 w h : Z) : Prop :=
  0 <= x0 /\ 0 <= y0 /\ 0 <= w /\ 0 <= h /\ x0 + w <= FB_W /\ y0 + h <= FB_H.

(** How the background colours of the two builds relate at row [y]:
    channel by channel weatherstar.c is equal to fb.h or one above, and the
    colours coincide exactly when [y] is a multiple of 80. *)
Definition bg_rows_related (y : Z) : bool :=
  let p := Fb.fb_bg_at y in
  let q := Weatherstar.bg_at y in
  let near a c := (0 <=? int_of c - int_of a) && (int_of c - int_of a <=? 1) in
  near (r p) (r q) && near (g p) (g q) && near (b p) (b q) &&
  Bool.eqb (rgb_eqb p q) (y mod 80 =? 0).

(** Equality of binary32 values as data (not the IEEE comparison). *)
Definition float_eqb (x y : F32.float) : bool :=
  match x, y with
  | S754_zero a, S754_zero c => Bool.eqb a c
  | S754_infinity a, S754_infinity c => Bool.eqb a c
  | S754_nan, S754_nan => true
  | S754_finite a m e, S754_finite c n f =>
      Bool.eqb a c && Pos.eqb m n && Z.eqb e f
  | _, _ => false
  end.

(** Pixel (px, py) is a corner-block pixel of the rounded rectangle whose
    offsets (dx, dy) from one of the four corners lie strictly outside the
    arc: [(rad - dx)^2 + (rad - dy)^2 > rad^2]. *)
Definition corner_cut (x0 y0 w h rad px py : Z) : Prop :=
  exists dx dy,
    0 <= dx < rad /\ 0 <= dy < rad /\
    (rad - dx) * (rad - dx) + (rad - dy) * (rad - dy) > rad * rad /\
    (px = x0 + dx \/ px = x0 + w - 1 - dx) /\
    (py = y0 + dy \/ py = y0 + h - 1 - dy).

(** Pixel (x, y) is one of the four mirrored positions of offset (dx, dy)
    and lies on the canvas. *)
Definition corner_hit (x0 y0 w h dx dy y x : Z) : bool :=
  existsb (fun c => in_fb (snd c) (fst c) && (y =? snd c) && (x =? fst c))
          (Fb.corners x0 y0 w h dx dy).

(** The pixels a knock-out loop with corner test [out] restores. *)
Definition knocked (out : Z -> Z -> Z -> bool) (x0 y0 w h rad y x : Z)
  : bool :=
  exists_range 0 rad (fun dy =>
    exists_range 0 rad (fun dx =>
      out rad dx dy && corner_hit x0 y0 w h dx dy y x)).

(** [draws P prog]: [prog] stores inside the array only, changes no pixel
    outside [P], and the colour it leaves in a pixel depends on the earlier
    canvas through that pixel alone. *)
Definition draws (P : Z -> Z -> Prop) (prog : fb_state -> fb_state) : Prop :=
  (forall s, oob (prog s) = oob s) /\
  (forall s y x, ~ P y x -> fb (prog s) y x = fb s y x) /\
  (forall s t y x, fb s y x = fb t y x -> fb (prog s) y x = fb (prog t) y x).

(** Rows [ymin] and below. *)
Definition from_row (ymin : Z) : Z -> Z -> Prop := fun y _ => ymin <= y.

(** The offsets [(int)(f(angle) * d)] of the ray steps [lo <= d < hi] have
    magnitude at most [d], as they do when [f] stays within [-1, 1]. *)
Definition ray_bound (f : F32.float -> F32.float) (lo hi : Z) : Prop :=
  forall i d, 0 <= i < 8 -> lo <= d < hi ->
              - d <= Icons.ray_offset f i d <= d.

Definition ray_bound_check (f : F32.float -> F32.float) (lo hi : Z) : bool :=
  forall_range 0 8 (fun i =>
    forall_range lo hi (fun d =>
      (- d <=? Icons.ray_offset f i d) && (Icons.ray_offset f i d <=? d))).

(** Stand-ins for [cosf] and [sinf] in closed examples: the values at
    angle 0. *)
Definition cosf_at_0 : F32.float -> F32.float := fun _ => F32.one.
Definition sinf_at_0 : F32.float -> F32.float := fun _ => F32.zero.

(** A clock reading: 8:30 in the evening. *)
Definition clock_0830pm (date : string) : clock := mk_clock "08:30 PM" date.

(** *** Terminal text *)

Definition cat_all (l : list string) : string :=
  fold_right append EmptyString l.

(** Number of newline characters. *)
Fixpoint count_nl (str : string) : nat :=
  match str with
  | EmptyString => O
  | String c rest => (if Ascii.eqb c NL then 1 else 0) + count_nl rest
  end.

(** The indices a [for_loop] visits. *)
Fixpoint loop_indices (fuel : nat) (cond : Z -> bool) (next : Z -> Z)
  (i : Z) : list Z :=
  match fuel with
  | O => []
  | S k => if cond i then i :: loop_indices k cond next (next i) else []
  end.

(** One terminal line: a cell for every column, whose foreground is the
    pixel of row [y] and whose background is the pixel of row [y + 1], then
    the reset sequence and the newline. *)
Definition ansi_line (s : fb_state) (y : Z) : string :=
  (cat_all (map (fun x => cell (fb s y x) (fb s (y + 1) x)) (zrange 0 FB_W))
   ++ sgr_reset ++ String NL EmptyString)%string.

(** The top rows 0, 2, ..., 398 of the pairs. *)
Definition pair_rows : list Z := map (fun k => 2 * k) (zrange 0 200).

Definition ansi_text (s : fb_state) : string :=
  (clear_screen ++ cat_all (map (ansi_line s) pair_rows) ++ sgr_reset)%string.

(** *** Command line *)

Definition has_flag (flag : string) (args : list string) : bool :=
  existsb (String.eqb flag) args.

(** A float with a 24-bit significand. *)
Definition normal24 (x : F32.float) (m : positive) (e : Z) : Prop :=
  x = S754_finite false m e /\ 2 ^ 23 <= Zpos m < 2 ^ 24.


(** The argument loop, run over [args], ends at a flag boundary: it has
    printed the usage, or it is not left with a [--screenshot] that would
    take the next argument as its path. *)
Fixpoint at_flag_boundary (args : list string) : bool :=
  match args with
  | [] => true
  | a :: rest =>
      if String.eqb a "--screenshot" then
        match rest with
        | _ :: rest' => at_flag_boundary rest'
        | [] => false
        end
      else if String.eqb a "--no-ansi" then at_flag_boundary rest
      else if String.eqb a "--help" then true
      else at_flag_boundary rest
  end.

(** *** Colours, glyphs and discs *)

(** Channel by channel, [p] is at most [q]. *)
Definition rgb_leb (p q : rgb_t) : bool :=
  (int_of (r p) <=? int_of (r q)) && (int_of (g p) <=? int_of (g q)) &&
  (int_of (b p) <=? int_of (b q)).

(** The glyph [fb_char] draws for character code [ch]: codes outside
    32..126 get glyph 0, the space. *)
Definition char_index (ch : Z) : Z :=
  let idx := ch - 32 in
  if (idx <? 0) || (94 <? idx) then 0 else idx.

(** [font5x7[idx][row] & (0x10 >> col)] is not zero. *)
Definition glyph_bit (idx row col : Z) : bool :=
  negb (Z.land (Font.glyph_row idx row) (Z.shiftr 0x10 col) =? 0).

(** Pixel (x, y) of the canvas lies in the 5*scale by 7*scale cell at
    (px, py), in the block of a set bit of the glyph of [ch]. *)
Definition char_hit (px py ch scale y x : Z) : bool :=
  in_fb y x && (px <=? x) && (x <? px + 5 * scale) &&
  (py <=? y) && (y <? py + 7 * scale) &&
  glyph_bit (char_index ch) ((y - py) / scale) ((x - px) / scale).

(** Pixel (x, y) of the canvas lies within [rad] of (cx, cy). *)
Definition in_disc (cx cy rad y x : Z) : bool :=
  in_fb y x &&
  ((x - cx) * (x - cx) + (y - cy) * (y - cy) <=? rad * rad).

(** *** Reading the terminal text back *)

Definition is_digit (c : ascii) : bool :=
  let n := nat_of_ascii c in (48 <=? n)%nat && (n <=? 57)%nat.

Fixpoint all_digits (str : string) : bool :=
  match str with
  | String c rest => is_digit c && all_digits rest
  | EmptyString => true
  end.

(** The digits at the start of [str], and what follows them. *)
Fixpoint read_digits (str : string) : string * string :=
  match str with
  | String c rest =>
      if is_digit c
      then let '(ds, tl) := read_digits rest in (String c ds, tl)
      else (EmptyString, str)
  | EmptyString => (EmptyString, EmptyString)
  end.

(** The value of a string of decimal digits. *)
Fixpoint digits_value (acc : Z) (ds : string) : Z :=
  match ds with
  | String c rest =>
      digits_value (10 * acc + (Z.of_nat (nat_of_ascii c) - 48)) rest
  | EmptyString => acc
  end.

(** [str] without the prefix [pre], when it starts with it. *)
Fixpoint strip_prefix (pre str : string) : option string :=
  match pre, str with
  | EmptyString, _ => Some str
  | String a p, String c rest =>
      if Ascii.eqb a c then strip_prefix p rest else None
  | String _ _, EmptyString => None
  end.

(** A channel value, at most 255, followed by the character [stop]. *)
Definition read_channel (stop : ascii) (str : string)
  : option (byte * string) :=
  let '(ds, tl) := read_digits str in
  match ds, tl with
  | String _ _, String c rest =>
      if Ascii.eqb c stop && (digits_value 0 ds <=? 255)
      then Some (u8 (digits_value 0 ds), rest)
      else None
  | _, _ => None
  end.

(** ["R;G;Bm"] *)
Definition read_rgb (str : string) : option (rgb_t * string) :=
  match read_channel ";" str with
  | Some (cr, s1) =>
      match read_channel ";" s1 with
      | Some (cg, s2) =>
          match read_channel "m" s2 with
          | Some (cb, s3) => Some (mk_rgb cr cg cb, s3)
          | None => None
          end
      | None => None
      end
  | None => None
  end.

(** One cell: foreground colour, background colour, upper half block. *)
Definition read_cell (str : string) : option (rgb_t * rgb_t * string) :=
  match strip_prefix (String ESC "[38;2;") str with
  | Some s1 =>
      match read_rgb s1 with
      | Some (top, s2) =>
          match strip_prefix (String ESC "[48;2;") s2 with
          | Some s3 =>
              match read_rgb s3 with
              | Some (bot, s4) =>
                  match strip_prefix half_block s4 with
                  | Some s5 => Some (top, bot, s5)
                  | None => None
                  end
              | None => None
              end
          | None => None
          end
      | None => None
      end
  | None => None
  end.

Fixpoint read_cells (n : nat) (str : string)
  : option (list (rgb_t * rgb_t) * string) :=
  match n with
  | O => Some ([], str)
  | S k =>
      match read_cell str with
      | Some (top, bot, rest) =>
          match read_cells k rest with
          | Some (l, rest') => Some ((top, bot) :: l, rest')
          | None => None
          end
      | None => None
      end
  end.

(** A line: [FB_W] cells, the reset sequence, a newline. *)
Definition read_line (str : string)
  : option (list (rgb_t * rgb_t) * string) :=
  match read_cells (Z.to_nat FB_W) str with
  | Some (l, rest) =>
      match strip_prefix (sgr_reset ++ String NL EmptyString) rest with
      | Some rest' => Some (l, rest')
      | None => None
      end
  | None => None
  end.

Fixpoint read_lines (n : nat) (str : string)
  : option (list (list (rgb_t * rgb_t)) * string) :=
  match n with
  | O => Some ([], str)
  | S k =>
      match read_line str with
      | Some (l, rest) =>
          match read_lines k rest with
          | Some (ls, rest') => Some (l :: ls, rest')
          | None => None
          end
      | None => None
      end
  end.

(** The whole text: clear screen, [FB_H / 2] lines, reset, and nothing
    after it.  The result lists, for every pair of rows, the (upper, lower)
    pixel of every column. *)
Definition read_text (str : string)
  : option (list (list (rgb_t * rgb_t))) :=
  match strip_prefix clear_screen str with
  | Some s1 =>
      match read_lines (Z.to_nat (FB_H / 2)) s1 with
      | Some (rows, s2) =>
          match strip_prefix sgr_reset s2 with
          | Some EmptyString => Some rows
          | _ => None
          end
      | None => None
      end
  | None => None
  end.

(** The (upper, lower) pixel pairs of the canvas, pair of rows by pair of
    rows. *)
Definition half_block_pairs (s : fb_state) : list (list (rgb_t * rgb_t)) :=
  map (fun y => map (fun x => (fb s y x, fb s (y + 1) x)) (zrange 0 FB_W))
      pair_rows.

(** *** The ray stores of weatherstar.c *)

(** Ray step ([i], [d]) of weatherstar.c's [draw_sun] passes the guard
    [px + 1 < FB_W] of the second store with (px + 1, py) outside the
    array. *)
Definition ray_escapes (cosf sinf : F32.float -> F32.float)
  (cx cy i d : Z) : bool :=
  let px := cx + Icons.ray_offset cosf i d in
  let py := cy + Icons.ray_offset sinf i d in
  (px + 1 <? FB_W) && negb (in_fb py (px + 1)).

(** Pixel (x, y) of the canvas is one of the two pixels of some ray step
    of [draw_sun]. *)
Definition ray_hit (cosf sinf : F32.float -> F32.float)
  (cx cy rad y x : Z) : bool :=
  exists_range 0 8 (fun i =>
    exists_range (rad + 3) (rad + 10) (fun d =>
      let px := cx + Icons.ray_offset cosf i d in
      let py := cy + Icons.ray_offset sinf i d in
      in_fb y x && (y =? py) && ((x =? px) || (x =? px + 1)))).

(** *** Text on the canvas *)

(** Pixel (x, y) of the canvas lies in a set glyph block of the text [str]
    drawn from (px, py) with [scale], six glyph columns to a character. *)
Fixpoint string_hit (px py : Z) (str : string) (scale y x : Z) : bool :=
  match str with
  | EmptyString => false
  | String c rest =>
      char_hit px py (Font.code c) scale y x ||
      string_hit (px + 6 * scale) py rest scale y x
  end.

(* ================================================================== *)
(** * Part II: properties                                              *)
(* ================================================================== *)

(** ** Ranges and loops *)

Lemma zrange_In (lo hi i : Z) : In i (zrange lo hi) <-> lo <= i < hi.
Proof.
  unfold zrange. rewrite in_map_iff. split.
  - intros [k [<- Hk]]. apply in_seq in Hk. lia.
  - intros Hi. exists (Z.to_nat (i - lo)). split; [lia|].
    apply in_seq. lia.
Qed.

Lemma exists_range_true (lo hi : Z) (p : Z -> bool) :
  exists_range lo hi p = true <-> exists i, lo <= i < hi /\ p i = true.
Proof.
  unfold exists_range. rewrite existsb_exists. split.
  - intros [i [Hi Hp]]. exists i. now rewrite <- zrange_In.
  - intros [i [Hi Hp]]. exists i. now rewrite zrange_In.
Qed.

Lemma exists_range_false (lo hi : Z) (p : Z -> bool) :
  exists_range lo hi p = false <-> forall i, lo <= i < hi -> p i = false.
Proof.
  split.
  - intros H i Hi. destruct (p i) eqn:E; [|reflexivity].
    assert (exists_range lo hi p = true) by (apply exists_range_true; eauto).
    congruence.
  - intros H. destruct (exists_range lo hi p) eqn:E; [|reflexivity].
    apply exists_range_true in E. destruct E as [i [Hi Hp]].
    rewrite H in Hp by assumption. discriminate.
Qed.

Lemma forall_range_true (lo hi : Z) (p : Z -> bool) :
  forall_range lo hi p = true <-> forall i, lo <= i < hi -> p i = true.
Proof.
  unfold forall_range. rewrite forallb_forall. split.
  - intros H i Hi. apply H. now apply zrange_In.
  - intros H i Hi. apply H. now apply zrange_In.
Qed.

Lemma for_range_first {St : Type} (lo hi : Z) (body : Z -> St -> St) (s : St) :
  lo < hi -> for_range lo hi body s = for_range (lo + 1) hi body (body lo s).
Proof.
  intros H. unfold for_range.
  replace (Z.to_nat (hi - lo)) with (S (Z.to_nat (hi - (lo + 1)))) by lia.
  reflexivity.
Qed.

(** Invariant rule: [P] holds after the loop when every iteration inside the
    range preserves it. *)
Lemma for_range_inv {St : Type} (P : St -> Prop) (lo hi : Z)
  (body : Z -> St -> St) :
  (forall i s, lo <= i < hi -> P s -> P (body i s)) ->
  forall s, P s -> P (for_range lo hi body s).
Proof.
  unfold for_range.
  remember (Z.to_nat (hi - lo)) as n eqn:En.
  revert lo En. induction n as [|n IH]; intros lo En Hb s Hs; simpl.
  - exact Hs.
  - apply IH.
    + lia.
    + intros i t Hi. apply Hb. lia.
    + apply Hb; [lia | exact Hs].
Qed.

(** Two runs of the same loop from related states end in related states. *)
Lemma for_range_rel {St : Type} (R : St -> St -> Prop) (lo hi : Z)
  (body : Z -> St -> St) :
  (forall i s t, lo <= i < hi -> R s t -> R (body i s) (body i t)) ->
  forall s t, R s t -> R (for_range lo hi body s) (for_range lo hi body t).
Proof.
  unfold for_range.
  remember (Z.to_nat (hi - lo)) as n eqn:En.
  revert lo En. induction n as [|n IH]; intros lo En Hb s t Hst; simpl.
  - exact Hst.
  - apply IH.
    + lia.
    + intros i u v Hi. apply Hb. lia.
    + apply Hb; [lia | exact Hst].
Qed.

(** ** Stores *)

Lemma in_fb_iff (y x : Z) :
  in_fb y x = true <-> 0 <= x < FB_W /\ 0 <= y < FB_H.
Proof. unfold in_fb. rewrite !andb_true_iff. lia. Qed.

Lemma fb_fb_set (y0 x0 : Z) (c : rgb_t) (s : fb_state) (y x : Z) :
  fb (fb_set y0 x0 c s) y x =
  if in_fb y0 x0 && (y =? y0) && (x =? x0) then c else fb s y x.
Proof.
  unfold fb_set. destruct (in_fb y0 x0); simpl; reflexivity.
Qed.

Lemma oob_fb_set (y0 x0 : Z) (c : rgb_t) (s : fb_state) :
  oob (fb_set y0 x0 c s) = oob s || negb (in_fb y0 x0).
Proof.
  unfold fb_set. destruct (in_fb y0 x0); simpl.
  - now rewrite orb_false_r.
  - now rewrite orb_true_r.
Qed.

(** ** Programs that never store outside the array *)

Lemma safe_fb_set (y x : Z) (c : rgb_t) :
  in_fb y x = true -> safe (fb_set y x c).
Proof. intros H s. rewrite oob_fb_set, H. apply orb_false_r. Qed.

Lemma sticky_fb_set (y x : Z) (c : rgb_t) : oob_sticky (fb_set y x c).
Proof. intros s H. rewrite oob_fb_set, H. reflexivity. Qed.

Lemma sticky_for_range (lo hi : Z) (body : Z -> fb_state -> fb_state) :
  (forall i, oob_sticky (body i)) -> oob_sticky (for_range lo hi body).
Proof.
  intros Hb s H.
  apply (for_range_inv (fun t => oob t = true)); [|exact H].
  intros i t _ Ht. now apply Hb.
Qed.

(** ** Painting: programs whose effect on a pixel depends on its position
    only *)

Lemma paints_id (v : Z -> Z -> rgb_t) :
  paints (fun s => s) (fun _ _ => false) v.
Proof. intros s y x. reflexivity. Qed.

Lemma paints_ext (prog : fb_state -> fb_state) (hit hit' : Z -> Z -> bool)
  (v : Z -> Z -> rgb_t) :
  (forall y x, hit y x = hit' y x) -> paints prog hit v -> paints prog hit' v.
Proof. intros E H s y x. rewrite <- E. apply H. Qed.

Lemma paints_fb_set (y0 x0 : Z) (c : rgb_t) (v : Z -> Z -> rgb_t) :
  v y0 x0 = c ->
  paints (fb_set y0 x0 c)
         (fun y x => in_fb y0 x0 && (y =? y0) && (x =? x0)) v.
Proof.
  intros Hv s y x. rewrite fb_fb_set.
  destruct (in_fb y0 x0 && (y =? y0) && (x =? x0)) eqn:E; [|reflexivity].
  apply andb_true_iff in E. destruct E as [E Ex].
  apply andb_true_iff in E. destruct E as [_ Ey].
  apply Z.eqb_eq in Ex, Ey. subst. now symmetry.
Qed.

Lemma paints_put (y0 x0 : Z) (c : rgb_t) (v : Z -> Z -> rgb_t) :
  v y0 x0 = c ->
  paints (put y0 x0 c)
         (fun y x => in_fb y0 x0 && (y =? y0) && (x =? x0)) v.
Proof.
  intros Hv s y x. unfold put.
  destruct (in_fb y0 x0) eqn:E.
  - rewrite (paints_fb_set y0 x0 c v Hv). now rewrite E.
  - reflexivity.
Qed.

Lemma paints_if (c : bool) (prog : fb_state -> fb_state)
  (hit : Z -> Z -> bool) (v : Z -> Z -> rgb_t) :
  (c = true -> paints prog hit v) ->
  paints (fun s => if c then prog s else s) (fun y x => c && hit y x) v.
Proof.
  intros H s y x. destruct c; simpl; [now apply H | reflexivity].
Qed.

Lemma paints_seq (p q : fb_state -> fb_state) (hp hq : Z -> Z -> bool)
  (v : Z -> Z -> rgb_t) :
  paints p hp v -> paints q hq v ->
  paints (fun s => q (p s)) (fun y x => hp y x || hq y x) v.
Proof.
  intros Hp Hq s y x. rewrite Hq, Hp.
  destruct (hp y x), (hq y x); reflexivity.
Qed.

Lemma paints_for_range (lo hi : Z) (body : Z -> fb_state -> fb_state)
  (hit : Z -> Z -> Z -> bool) (v : Z -> Z -> rgb_t) :
  (forall i, lo <= i < hi -> paints (body i) (hit i) v) ->
  paints (for_range lo hi body)
         (fun y x => exists_range lo hi (fun i => hit i y x)) v.
Proof.
  intros Hb s y x.
  destruct (exists_range lo hi (fun i => hit i y x)) eqn:E.
  - apply exists_range_true in E. destruct E as [i0 [Hi0 Hh]].
    revert s.
    assert (G : forall s, (lo <= i0 \/ fb s y x = v y x) ->
                          i0 < hi ->
                          fb (for_range lo hi body s) y x = v y x);
      [| intros s; apply G; lia].
    unfold for_range.
    remember (Z.to_nat (hi - lo)) as n eqn:En.
    clear Hi0. revert lo En Hb.
    induction n as [|n IH]; intros lo En Hb s Hs Hhi; simpl.
    + destruct Hs as [Hs|Hs]; [lia | exact Hs].
    + apply IH; [lia | intros i Hi; apply Hb; lia | | exact Hhi].
      destruct Hs as [Hs|Hs].
      * destruct (Z.eq_dec i0 lo) as [->|Hne]; [|left; lia].
        right. rewrite (Hb lo) by lia. now rewrite Hh.
      * right. rewrite (Hb lo) by lia.
        destruct (hit lo y x); [reflexivity | exact Hs].
  - apply (for_range_inv (fun t => fb t y x = fb s y x)); [|reflexivity].
    intros i t Hi Ht. rewrite (Hb i Hi).
    rewrite exists_range_false in E. rewrite (E i Hi). exact Ht.
Qed.

(** ** Rectangles *)

(** The doubly nested loop shared by [fb_clear], [fb_rect] and
    [fb_rect_grad_v]: rows [ylo..yhi), columns [xlo..xhi), the store behind
    the guard [guard x y]. *)
Lemma paints_rows (ylo yhi xlo xhi : Z) (guard : Z -> Z -> bool)
  (col : Z -> rgb_t) :
  paints
    (for_range ylo yhi (fun y s =>
       for_range xlo xhi (fun x s =>
         if guard x y then fb_set y x (col y) s else s) s))
    (fun y x => (ylo <=? y) && (y <? yhi) && (xlo <=? x) && (x <? xhi)
                && guard x y && in_fb y x)
    (fun y _ => col y).
Proof.
  eapply paints_ext; cycle 1.
  - apply paints_for_range. intros y' _.
    apply (paints_for_range xlo xhi
             (fun x s => if guard x y' then fb_set y' x (col y') s else s)
             (fun x' y x => guard x' y' &&
                            (in_fb y' x' && (y =? y') && (x =? x')))).
    intros x' _.
    apply (paints_if (guard x' y') (fb_set y' x' (col y'))).
    intros _. apply (paints_fb_set y' x' (col y') (fun y _ => col y)).
    reflexivity.
  - intros y x. cbv beta. apply eq_iff_eq_true.
    rewrite exists_range_true. split.
    + intros [y' [Hy' H]]. apply exists_range_true in H.
      destruct H as [x' [Hx' H]].
      rewrite !andb_true_iff in H. destruct H as [Hg [[Hin Ey] Ex]].
      apply Z.eqb_eq in Ey, Ex. subst y' x'.
      rewrite Hg, Hin.
      repeat (apply andb_true_iff; split); try reflexivity; lia.
    + rewrite !andb_true_iff.
      intros [[[[[H1 H2] H3] H4] Hg] Hin].
      exists y. split; [lia|]. apply exists_range_true. exists x.
      split; [lia|]. rewrite Hg, Hin, !Z.eqb_refl. reflexivity.
Qed.

Lemma paints_fb_clear :
  paints Fb.fb_clear (fun y x => in_fb y x) (fun y _ => Fb.fb_bg_at y).
Proof.
  eapply paints_ext; cycle 1.
  - apply (paints_rows 0 FB_H 0 FB_W (fun _ _ => true) Fb.fb_bg_at).
  - intros y x. cbv beta. apply eq_iff_eq_true.
    rewrite !andb_true_iff, in_fb_iff. unfold FB_H, FB_W. lia.
Qed.

Lemma paints_ws_fb_clear :
  paints Weatherstar.fb_clear (fun y x => in_fb y x)
         (fun y _ => Weatherstar.bg_at y).
Proof.
  eapply paints_ext; cycle 1.
  - apply (paints_rows 0 FB_H 0 FB_W (fun _ _ => true) Weatherstar.bg_at).
  - intros y x. cbv beta. apply eq_iff_eq_true.
    rewrite !andb_true_iff, in_fb_iff. unfold FB_H, FB_W. lia.
Qed.

Lemma paints_fb_rect (x0 y0 w h : Z) (c : rgb_t) :
  paints (Fb.fb_rect x0 y0 w h c) (in_rect x0 y0 w h) (fun _ _ => c).
Proof.
  eapply paints_ext; cycle 1.
  - apply (paints_rows y0 (Z.min (y0 + h) FB_H) x0 (Z.min (x0 + w) FB_W)
             (fun x y => (0 <=? x) && (0 <=? y)) (fun _ => c)).
  - intros y x. unfold in_rect. cbv beta. apply eq_iff_eq_true.
    rewrite !andb_true_iff, in_fb_iff. unfold FB_H, FB_W. lia.
Qed.

Lemma paints_fb_rect_grad_v (x0 y0 w h : Z) (top bot : rgb_t) :
  paints (Fb.fb_rect_grad_v x0 y0 w h top bot) (in_rect x0 y0 w h)
         (fun y _ => Fb.grad_color y0 h top bot y).
Proof.
  eapply paints_ext; cycle 1.
  - apply (paints_rows y0 (Z.min (y0 + h) FB_H) x0 (Z.min (x0 + w) FB_W)
             (fun x y => (0 <=? x) && (0 <=? y))
             (Fb.grad_color y0 h top bot)).
  - intros y x. unfold in_rect. cbv beta. apply eq_iff_eq_true.
    rewrite !andb_true_iff, in_fb_iff. unfold FB_H, FB_W. lia.
Qed.

Lemma paints_fb_hline (x0 x1 y0 : Z) (c : rgb_t) :
  paints (Fb.fb_hline x0 x1 y0 c)
         (fun y x => (y =? y0) && (x0 <=? x) && (x <=? x1) && in_fb y x)
         (fun _ _ => c).
Proof.
  unfold Fb.fb_hline.
  destruct ((y0 <? 0) || (FB_H <=? y0)) eqn:E.
  - eapply paints_ext; [|apply paints_id].
    intros y x. cbv beta. symmetry. apply not_true_iff_false.
    rewrite !andb_true_iff, in_fb_iff. intros [[[Ey _] _] [_ Hy]].
    apply Z.eqb_eq in Ey. subst y.
    apply orb_true_iff in E. unfold FB_H in *. lia.
  - apply orb_false_iff in E. destruct E as [E1 E2].
    eapply paints_ext; cycle 1.
    + apply (paints_for_range x0 (Z.min (x1 + 1) FB_W)
               (fun x s => if 0 <=? x then fb_set y0 x c s else s)
               (fun x' y x => (0 <=? x') &&
                              (in_fb y0 x' && (y =? y0) && (x =? x')))).
      intros x' _.
      apply (paints_if (0 <=? x') (fb_set y0 x' c)).
      intros _. now apply (paints_fb_set y0 x' c (fun _ _ => c)).
    + intros y x. cbv beta. apply eq_iff_eq_true.
      rewrite exists_range_true. split.
      * intros [x' [Hx' H]]. rewrite !andb_true_iff in H.
        destruct H as [Hg [[Hin Ey] Ex]].
        apply Z.eqb_eq in Ey, Ex. subst y x'. rewrite Hin, Z.eqb_refl.
        repeat (apply andb_true_iff; split); try reflexivity; lia.
      * rewrite !andb_true_iff. intros [[[Ey H1] H2] Hin].
        apply Z.eqb_eq in Ey. subst y. exists x.
        pose proof (proj1 (in_fb_iff _ _) Hin) as Hb. unfold FB_W in *.
        split; [lia|]. rewrite Hin, !Z.eqb_refl.
        replace (0 <=? x) with true by (symmetry; apply Z.leb_le; lia).
        reflexivity.
Qed.

(** ** Bytes and colours *)

Lemma int_of_range (x : byte) : 0 <= int_of x <= 255.
Proof. unfold int_of. pose proof (Byte.to_N_bounded x). lia. Qed.

Lemma u8_int_of (x : byte) : u8 (int_of x) = x.
Proof.
  unfold u8, int_of. pose proof (Byte.to_N_bounded x).
  rewrite Z.mod_small by lia. rewrite N2Z.id, Byte.of_to_N. reflexivity.
Qed.

Lemma all_bytes_complete (x : byte) : In x all_bytes.
Proof.
  rewrite <- (u8_int_of x). unfold all_bytes. apply in_map.
  apply zrange_In. pose proof (int_of_range x). lia.
Qed.

Lemma forall_bytes (p : byte -> bool) :
  forallb p all_bytes = true -> forall x, p x = true.
Proof.
  intros H x. rewrite forallb_forall in H. apply H, all_bytes_complete.
Qed.

Lemma rgb_eqb_eq (c d : rgb_t) : rgb_eqb c d = true <-> c = d.
Proof.
  unfold rgb_eqb. rewrite !andb_true_iff. split.
  - intros [[Hr Hg] Hb]. apply Byte.byte_dec_bl in Hr, Hg, Hb.
    destruct c, d; simpl in *. now subst.
  - intros ->. now rewrite !Byte.byte_dec_lb.
Qed.

(** ** Interpolation at the two ends (binary32 is exact there) *)

Lemma float_eqb_eq (x y : F32.float) : float_eqb x y = true -> x = y.
Proof.
  destruct x, y; simpl; try discriminate; try reflexivity.
  - intros H. apply eqb_prop in H. now subst.
  - intros H. apply eqb_prop in H. now subst.
  - rewrite !andb_true_iff. intros [[H1 H2] H3].
    apply eqb_prop in H1. apply Pos.eqb_eq in H2. apply Z.eqb_eq in H3.
    now subst.
Qed.

Lemma lerp_u8_zero (a c : byte) : Fb.lerp_u8 a c F32.zero = a.
Proof.
  apply Byte.byte_dec_bl.
  assert (H : forallb (fun a => forallb (fun c =>
                Byte.eqb (Fb.lerp_u8 a c F32.zero) a) all_bytes) all_bytes
              = true) by (vm_compute; reflexivity).
  exact (forall_bytes _ (forall_bytes _ H a) c).
Qed.

Lemma lerp_u8_one (a c : byte) : Fb.lerp_u8 a c F32.one = c.
Proof.
  apply Byte.byte_dec_bl.
  assert (H : forallb (fun a => forallb (fun c =>
                Byte.eqb (Fb.lerp_u8 a c F32.one) c) all_bytes) all_bytes
              = true) by (vm_compute; reflexivity).
  exact (forall_bytes _ (forall_bytes _ H a) c).
Qed.

Lemma ratio_zero (k : Z) :
  1 <= k < FB_H -> F32.div (F32.of_int 0) (F32.of_int k) = F32.zero.
Proof.
  intros Hk. apply float_eqb_eq.
  assert (H : forall_range 1 FB_H (fun k =>
                float_eqb (F32.div (F32.of_int 0) (F32.of_int k)) F32.zero)
              = true) by (vm_compute; reflexivity).
  rewrite forall_range_true in H. exact (H k Hk).
Qed.

Lemma ratio_one (k : Z) :
  1 <= k < FB_H -> F32.div (F32.of_int k) (F32.of_int k) = F32.one.
Proof.
  intros Hk. apply float_eqb_eq.
  assert (H : forall_range 1 FB_H (fun k =>
                float_eqb (F32.div (F32.of_int k) (F32.of_int k)) F32.one)
              = true) by (vm_compute; reflexivity).
  rewrite forall_range_true in H. exact (H k Hk).
Qed.

(** ** The vertical gradient rectangle *)

Lemma rgb_eta (c : rgb_t) : mk_rgb (r c) (g c) (b c) = c.
Proof. destruct c. reflexivity. Qed.

Lemma grad_color_first (y0 h : Z) (top bot : rgb_t) :
  1 <= h <= FB_H -> Fb.grad_color y0 h top bot y0 = top.
Proof.
  intros Hh. unfold Fb.grad_color.
  replace (y0 - y0) with 0 by lia.
  destruct (1 <? h) eqn:E.
  - apply Z.ltb_lt in E. rewrite ratio_zero by lia.
    rewrite !lerp_u8_zero. apply rgb_eta.
  - change (F32.of_int 0) with F32.zero.
    rewrite !lerp_u8_zero. apply rgb_eta.
Qed.

Lemma grad_color_last (y0 h : Z) (top bot : rgb_t) :
  1 < h <= FB_H -> Fb.grad_color y0 h top bot (y0 + h - 1) = bot.
Proof.
  intros Hh. unfold Fb.grad_color.
  replace (y0 + h - 1 - y0) with (h - 1) by lia.
  replace (1 <? h) with true by (symmetry; apply Z.ltb_lt; lia).
  rewrite ratio_one by lia.
  rewrite !lerp_u8_one. apply rgb_eta.
Qed.

(** C6.  A gradient rectangle that lies on the canvas has [top] in every
    pixel of its first row, for every height h >= 1 (so also for h = 1), and
    [bot] in every pixel of its last row when h > 1. *)
Theorem fb_rect_grad_v_end_rows (x0 y0 w h : Z) (top bot : rgb_t)
  (s : fb_state) (x : Z) :
  rect_on_canvas x0 y0 w h -> 1 <= h -> x0 <= x < x0 + w ->
  fb (Fb.fb_rect_grad_v x0 y0 w h top bot s) y0 x = top /\
  (1 < h ->
   fb (Fb.fb_rect_grad_v x0 y0 w h top bot s) (y0 + h - 1) x = bot).
Proof.
  intros (Hx0 & Hy0 & Hw & Hh & Hxw & Hyh) H1 Hx.
  unfold FB_W, FB_H in *.
  split; [|intros H2]; rewrite (paints_fb_rect_grad_v x0 y0 w h top bot).
  - replace (in_rect x0 y0 w h y0 x) with true.
    + apply grad_color_first. unfold FB_H. lia.
    + symmetry. unfold in_rect. rewrite !andb_true_iff, in_fb_iff.
      unfold FB_W, FB_H. lia.
  - replace (in_rect x0 y0 w h (y0 + h - 1) x) with true.
    + apply grad_color_last. unfold FB_H. lia.
    + symmetry. unfold in_rect. rewrite !andb_true_iff, in_fb_iff.
      unfold FB_W, FB_H. lia.
Qed.

Lemma fb_rect_grad_v_end_rows_witness :
  rect_on_canvas 0 4 640 36 /\ 1 <= 36 /\ 0 <= 17 < 0 + 640 /\
  fb (Fb.fb_rect_grad_v 0 4 640 36 COL_HEADER (rgb 30 55 140) fb_initial)
     4 17 = COL_HEADER /\
  (1 < 36 ->
   fb (Fb.fb_rect_grad_v 0 4 640 36 COL_HEADER (rgb 30 55 140) fb_initial)
      (4 + 36 - 1) 17 = rgb 30 55 140).
Proof.
  assert (H1 : rect_on_canvas 0 4 640 36)
    by (unfold rect_on_canvas, FB_W, FB_H; lia).
  assert (H2 : 1 <= 36) by lia.
  assert (H3 : 0 <= 17 < 0 + 640) by lia.
  split; [exact H1|]. split; [exact H2|]. split; [exact H3|].
  exact (fb_rect_grad_v_end_rows 0 4 640 36 COL_HEADER (rgb 30 55 140)
           fb_initial 17 H1 H2 H3).
Defined.

(** ** The background of the two builds *)

Lemma fb_clear_pixel (s : fb_state) (y x : Z) :
  in_fb y x = true -> fb (Fb.fb_clear s) y x = Fb.fb_bg_at y.
Proof. intros H. rewrite paints_fb_clear. now rewrite H. Qed.

Lemma ws_fb_clear_pixel (s : fb_state) (y x : Z) :
  in_fb y x = true -> fb (Weatherstar.fb_clear s) y x = Weatherstar.bg_at y.
Proof. intros H. rewrite paints_ws_fb_clear. now rewrite H. Qed.

Lemma bg_rows_related_all (y : Z) :
  0 <= y < FB_H -> bg_rows_related y = true.
Proof.
  assert (H : forall_range 0 FB_H bg_rows_related = true)
    by (vm_compute; reflexivity).
  rewrite forall_range_true in H. apply H.
Qed.

(** C3, as stated, fails: at row 1 fb.h stores (19, 39, 119) and
    weatherstar.c stores (20, 40, 120). *)
Lemma fb_clear_builds_differ_row1 :
  fb (Fb.fb_clear fb_initial) 1 0 = rgb 19 39 119 /\
  fb (Weatherstar.fb_clear fb_initial) 1 0 = rgb 20 40 120 /\
  fb (Fb.fb_clear fb_initial) 1 0 <> fb (Weatherstar.fb_clear fb_initial) 1 0.
Proof.
  rewrite fb_clear_pixel, ws_fb_clear_pixel by reflexivity.
  split; [vm_compute; reflexivity|].
  split; [vm_compute; reflexivity|].
  vm_compute. discriminate.
Qed.

(** C3, amended.  At every pixel of the canvas each channel written by
    weatherstar.c's [fb_clear] equals the channel written by fb.h's
    [fb_clear] or exceeds it by one (the cast of the negative product
    truncates up, the cast of the positive sum truncates down), and the two
    colours are equal exactly in the rows that are multiples of 80. *)
Theorem fb_clear_builds_within_one (s t : fb_state) (y x : Z) :
  0 <= y < FB_H -> 0 <= x < FB_W ->
  let p := fb (Fb.fb_clear s) y x in
  let q := fb (Weatherstar.fb_clear t) y x in
  0 <= int_of (r q) - int_of (r p) <= 1 /\
  0 <= int_of (g q) - int_of (g p) <= 1 /\
  0 <= int_of (b q) - int_of (b p) <= 1 /\
  (p = q <-> y mod 80 = 0).
Proof.
  intros Hy Hx.
  assert (Hin : in_fb y x = true) by (apply in_fb_iff; lia).
  rewrite fb_clear_pixel, ws_fb_clear_pixel by exact Hin. cbv zeta.
  pose proof (bg_rows_related_all y Hy) as H.
  unfold bg_rows_related in H. cbv zeta in H.
  rewrite !andb_true_iff in H.
  destruct H as [[[[Hr1 Hr2] [Hg1 Hg2]] [Hb1 Hb2]] He].
  apply eqb_prop in He.
  repeat split; try lia.
  - intros E. apply rgb_eqb_eq in E. rewrite E in He.
    symmetry in He. now apply Z.eqb_eq in He.
  - intros E. apply Z.eqb_eq in E. rewrite E in He.
    now apply rgb_eqb_eq.
Qed.

Lemma fb_clear_builds_within_one_witness :
  0 <= 80 < FB_H /\ 0 <= 3 < FB_W /\
  (fb (Fb.fb_clear fb_initial) 80 3
   = fb (Weatherstar.fb_clear fb_initial) 80 3 <-> 80 mod 80 = 0).
Proof.
  assert (H1 : 0 <= 80 < FB_H) by (unfold FB_H; lia).
  assert (H2 : 0 <= 3 < FB_W) by (unfold FB_W; lia).
  split; [exact H1|]. split; [exact H2|].
  exact (proj2 (proj2 (proj2
    (fb_clear_builds_within_one fb_initial fb_initial 80 3 H1 H2)))).
Defined.

(** ** Text width *)

(** C7.  [fb_string_width] is the length times 6 times the scale, and it is
    the distance [fb_string] moves [px] while drawing the string, for every
    string and scale (in particular the scales 1 to 5). *)
Theorem fb_string_width_is_advance (px py : Z) (str : string) (fg : rgb_t)
  (scale : Z) (s : fb_state) :
  Font.fb_string_width str scale = Z.of_nat (String.length str) * 6 * scale /\
  fst (Font.fb_string_loop px py str fg scale s) - px
  = Font.fb_string_width str scale.
Proof.
  split; [reflexivity|].
  unfold Font.fb_string_width.
  revert px s. induction str as [|c rest IH]; intros px s.
  - simpl. lia.
  - cbn [Font.fb_string_loop String.length].
    specialize (IH (px + 6 * scale) (Font.fb_char px py (Font.code c) fg scale s)).
    rewrite Nat2Z.inj_succ. lia.
Qed.

(** ** Rounded rectangles *)

Lemma paints_fold_left {A : Type} (f : fb_state -> A -> fb_state)
  (l : list A) (hit : A -> Z -> Z -> bool) (v : Z -> Z -> rgb_t) :
  (forall a, In a l -> paints (fun s => f s a) (hit a) v) ->
  paints (fun s => fold_left f l s)
         (fun y x => existsb (fun a => hit a y x) l) v.
Proof.
  induction l as [|a l IH]; intros H.
  - apply paints_id.
  - simpl.
    apply (paints_seq (fun s => f s a) (fun s => fold_left f l s)
                      (hit a) (fun y x => existsb (fun a => hit a y x) l)).
    + apply H. now left.
    + apply IH. intros a' Ha'. apply H. now right.
Qed.

Lemma paints_knock_out (bg : Z -> rgb_t) (x0 y0 w h dx dy : Z) :
  paints (Fb.knock_out bg x0 y0 w h dx dy) (corner_hit x0 y0 w h dx dy)
         (fun y _ => bg y).
Proof.
  unfold Fb.knock_out, corner_hit.
  apply (paints_fold_left
           (fun s c => let '(cx, cy) := c in
                       if in_fb cy cx then fb_set cy cx (bg cy) s else s)
           (Fb.corners x0 y0 w h dx dy)
           (fun c y x => in_fb (snd c) (fst c) && (y =? snd c) && (x =? fst c))).
  intros [cx cy] _. cbn [fst snd].
  apply (paints_put cy cx (bg cy) (fun y _ => bg y)). reflexivity.
Qed.

Lemma paints_restore_bg (cx cy : Z) :
  paints (Weatherstar.restore_bg cx cy)
         (fun y x => in_fb cy cx && (y =? cy) && (x =? cx))
         (fun y _ => Weatherstar.bg_at y).
Proof.
  apply (paints_put cy cx (Weatherstar.bg_at cy)
           (fun y _ => Weatherstar.bg_at y)). reflexivity.
Qed.

(** The corner loops of fb.h. *)
Lemma paints_fb_corners (x0 y0 w h rad : Z) :
  paints
    (for_range 0 rad (fun dy =>
       for_range 0 rad (fun dx s =>
         if Fb.outside_arc rad dx dy
         then Fb.knock_out Fb.fb_bg_at x0 y0 w h dx dy s
         else s)))
    (knocked Fb.outside_arc x0 y0 w h rad)
    (fun y _ => Fb.fb_bg_at y).
Proof.
  unfold knocked.
  apply (paints_for_range 0 rad _
           (fun dy y x => exists_range 0 rad (fun dx =>
              Fb.outside_arc rad dx dy && corner_hit x0 y0 w h dx dy y x))).
  intros dy _.
  apply (paints_for_range 0 rad _
           (fun dx y x =>
              Fb.outside_arc rad dx dy && corner_hit x0 y0 w h dx dy y x)).
  intros dx _.
  apply (paints_if (Fb.outside_arc rad dx dy)
           (Fb.knock_out Fb.fb_bg_at x0 y0 w h dx dy)).
  intros _. apply paints_knock_out.
Qed.

(** The corner loops of weatherstar.c. *)
Lemma paints_ws_corners (x0 y0 w h rad : Z) :
  paints
    (for_range 0 rad (fun dy =>
       for_range 0 rad (fun dx s =>
         if Weatherstar.outside_arc rad dx dy then
           let s := Weatherstar.restore_bg (x0 + dx) (y0 + dy) s in
           let s := Weatherstar.restore_bg (x0 + w - 1 - dx) (y0 + dy) s in
           let s := Weatherstar.restore_bg (x0 + dx) (y0 + h - 1 - dy) s in
           Weatherstar.restore_bg (x0 + w - 1 - dx) (y0 + h - 1 - dy) s
         else s)))
    (knocked Weatherstar.outside_arc x0 y0 w h rad)
    (fun y _ => Weatherstar.bg_at y).
Proof.
  unfold knocked.
  apply (paints_for_range 0 rad _
           (fun dy y x => exists_range 0 rad (fun dx =>
              Weatherstar.outside_arc rad dx dy &&
              corner_hit x0 y0 w h dx dy y x))).
  intros dy _.
  apply (paints_for_range 0 rad _
           (fun dx y x =>
              Weatherstar.outside_arc rad dx dy &&
              corner_hit x0 y0 w h dx dy y x)).
  intros dx _.
  apply (paints_if (Weatherstar.outside_arc rad dx dy)
           (fun s =>
              Weatherstar.restore_bg (x0 + w - 1 - dx) (y0 + h - 1 - dy)
                (Weatherstar.restore_bg (x0 + dx) (y0 + h - 1 - dy)
                   (Weatherstar.restore_bg (x0 + w - 1 - dx) (y0 + dy)
                      (Weatherstar.restore_bg (x0 + dx) (y0 + dy) s))))).
  intros _ s y x.
  rewrite !paints_restore_bg.
  unfold corner_hit, Fb.corners. cbn [existsb fst snd].
  rewrite orb_false_r.
  destruct (in_fb (y0 + dy) (x0 + dx) && (y =? y0 + dy) && (x =? x0 + dx));
  destruct (in_fb (y0 + dy) (x0 + w - 1 - dx) && (y =? y0 + dy)
            && (x =? x0 + w - 1 - dx));
  destruct (in_fb (y0 + h - 1 - dy) (x0 + dx) && (y =? y0 + h - 1 - dy)
            && (x =? x0 + dx));
  destruct (in_fb (y0 + h - 1 - dy) (x0 + w - 1 - dx)
            && (y =? y0 + h - 1 - dy) && (x =? x0 + w - 1 - dx));
  reflexivity.
Qed.

Lemma fb_draw_rounded_rect_pixel (x0 y0 w h rad : Z) (fill : rgb_t)
  (s : fb_state) (y x : Z) :
  fb (Fb.draw_rounded_rect x0 y0 w h rad fill s) y x =
  if knocked Fb.outside_arc x0 y0 w h rad y x then Fb.fb_bg_at y
  else if in_rect x0 y0 w h y x then fill
  else fb s y x.
Proof.
  unfold Fb.draw_rounded_rect.
  rewrite (paints_fb_corners x0 y0 w h rad).
  now rewrite (paints_fb_rect x0 y0 w h fill).
Qed.

Lemma ws_draw_rounded_rect_pixel (x0 y0 w h rad : Z) (fill : rgb_t)
  (s : fb_state) (y x : Z) :
  fb (Weatherstar.draw_rounded_rect x0 y0 w h rad fill s) y x =
  if knocked Weatherstar.outside_arc x0 y0 w h rad y x
  then Weatherstar.bg_at y
  else if in_rect x0 y0 w h y x then fill
  else fb s y x.
Proof.
  unfold Weatherstar.draw_rounded_rect.
  rewrite (paints_ws_corners x0 y0 w h rad).
  unfold Weatherstar.fb_rect.
  now rewrite (paints_fb_rect x0 y0 w h fill).
Qed.

Lemma corner_hit_iff (x0 y0 w h dx dy y x : Z) :
  corner_hit x0 y0 w h dx dy y x = true <->
  in_fb y x = true /\
  (x = x0 + dx \/ x = x0 + w - 1 - dx) /\
  (y = y0 + dy \/ y = y0 + h - 1 - dy).
Proof.
  unfold corner_hit, Fb.corners. cbn [existsb fst snd].
  rewrite !orb_true_iff, !andb_true_iff, !Z.eqb_eq. split.
  - intros [[[Hin Hy] Hx]|[[[Hin Hy] Hx]|[[[Hin Hy] Hx]|[[[Hin Hy] Hx]|F]]]];
      try discriminate; subst; (split; [assumption | lia]).
  - intros [Hin [[Hx|Hx] [Hy|Hy]]]; subst; tauto.
Qed.

(** With a corner test that agrees with the squared-distance test on the
    offsets whose mirrored positions reach the pixel, the pixel is restored
    exactly when it is one of [corner_cut]. *)
Lemma knocked_iff_at (out : Z -> Z -> Z -> bool) (x0 y0 w h rad y x : Z) :
  (forall dx dy, 0 <= dx < rad -> 0 <= dy < rad ->
                 corner_hit x0 y0 w h dx dy y x = true ->
                 out rad dx dy = Fb.outside_arc rad dx dy) ->
  in_fb y x = true ->
  (knocked out x0 y0 w h rad y x = true <-> corner_cut x0 y0 w h rad x y).
Proof.
  intros Hout Hin. unfold knocked, corner_cut. rewrite exists_range_true.
  split.
  - intros [dy [Hdy H]]. apply exists_range_true in H.
    destruct H as [dx [Hdx H]]. apply andb_true_iff in H.
    destruct H as [Ho Hc]. rewrite Hout in Ho by assumption.
    apply corner_hit_iff in Hc. destruct Hc as [_ [Hx Hy]].
    exists dx, dy. unfold Fb.outside_arc in Ho.
    apply negb_true_iff, Z.leb_gt in Ho.
    repeat split; try lia; assumption.
  - intros [dx [dy (Hdx & Hdy & Hd & Hx & Hy)]].
    assert (Hc : corner_hit x0 y0 w h dx dy y x = true)
      by (apply corner_hit_iff; tauto).
    exists dy. split; [lia|]. apply exists_range_true.
    exists dx. split; [lia|]. apply andb_true_iff. split.
    + rewrite Hout by assumption. unfold Fb.outside_arc.
      apply negb_true_iff, Z.leb_gt. lia.
    + exact Hc.
Qed.

Lemma knocked_iff (out : Z -> Z -> Z -> bool) (x0 y0 w h rad y x : Z) :
  (forall dx dy, 0 <= dx < rad -> 0 <= dy < rad ->
                 out rad dx dy = Fb.outside_arc rad dx dy) ->
  in_fb y x = true ->
  (knocked out x0 y0 w h rad y x = true <-> corner_cut x0 y0 w h rad x y).
Proof.
  intros Hout. apply knocked_iff_at. intros dx dy Hdx Hdy _.
  apply Hout; assumption.
Qed.

(** ** The two corner tests

    fb.h compares squared distances; weatherstar.c compares
    [sqrtf((float)dist_sq)] with [(float)r].  The lemmas below compute the
    normal forms of the binary32 conversion, square root and comparison
    and show that the tests agree for every radius below 4096. *)

Lemma digits_bounds (p : positive) :
  2 ^ (Zpos (digits2_pos p) - 1) <= Zpos p < 2 ^ Zpos (digits2_pos p).
Proof.
  induction p as [p IH|p IH|]; cbn [digits2_pos].
  - rewrite Pos2Z.inj_succ, (Pos2Z.inj_xI p).
    replace (Z.succ (Zpos (digits2_pos p)) - 1)
      with (Z.succ (Zpos (digits2_pos p) - 1)) by lia.
    rewrite !Z.pow_succ_r by lia.
    set (a := 2 ^ (Zpos (digits2_pos p) - 1)) in *.
    set (c := 2 ^ Zpos (digits2_pos p)) in *. clearbody a c. lia.
  - rewrite Pos2Z.inj_succ, (Pos2Z.inj_xO p).
    replace (Z.succ (Zpos (digits2_pos p)) - 1)
      with (Z.succ (Zpos (digits2_pos p) - 1)) by lia.
    rewrite !Z.pow_succ_r by lia.
    set (a := 2 ^ (Zpos (digits2_pos p) - 1)) in *.
    set (c := 2 ^ Zpos (digits2_pos p)) in *. clearbody a c. lia.
  - simpl. lia.
Qed.

Lemma digits_unique (p : positive) (k : Z) :
  2 ^ (k - 1) <= Zpos p < 2 ^ k -> Zpos (digits2_pos p) = k.
Proof.
  intros [H1 H2]. pose proof (digits_bounds p) as [D1 D2].
  set (d := Zpos (digits2_pos p)) in *.
  assert (Hd : 0 < d) by (unfold d; lia).
  destruct (Z.lt_trichotomy d k) as [L|[E|G]]; [|exact E|].
  - assert (2 ^ d <= 2 ^ (k - 1)) by (apply Z.pow_le_mono_r; lia). lia.
  - assert (0 <= k).
    { destruct (Z.leb_spec 0 k); [assumption|]. rewrite Z.pow_neg_r in H2 by lia. lia. }
    assert (2 ^ k <= 2 ^ (d - 1)) by (apply Z.pow_le_mono_r; lia). lia.
Qed.

Lemma loc_roundtrip (m : Z) (l : location) :
  shr_m (shr_record_of_loc m l) = m /\
  loc_of_shr_record (shr_record_of_loc m l) = l.
Proof. destruct l as [|[| |]]; split; reflexivity. Qed.

(** second half of binary_round_aux *)
Lemma bra_tail (sx : bool) (m1 : positive) (e : Z) :
  2 ^ 23 <= Zpos m1 <= 2 ^ 24 -> -149 <= e <= 103 ->
  (let '(mrs'', e'') := shr_fexp F32.prec F32.emax (Zpos m1) e loc_Exact in
   match shr_m mrs'' with
   | Z0 => S754_zero sx
   | Zpos m => if e'' <=? F32.emax - F32.prec then S754_finite sx m e''
               else S754_infinity sx
   | Zneg _ => S754_nan
   end)
  = if Zpos m1 <? 2 ^ 24 then S754_finite sx m1 e
    else S754_finite sx 8388608 (e + 1).
Proof.
  intros Hm He.
  destruct (Z.ltb_spec (Zpos m1) (2 ^ 24)) as [Hlt|Hge].
  - assert (Hd : Zpos (digits2_pos m1) = 24) by (apply digits_unique; simpl; lia).
    unfold shr_fexp. cbn [Zdigits2]. rewrite Hd.
    unfold fexp, emin, F32.prec, F32.emax.
    replace (Z.max (24 + e - 24) (3 - 128 - 24) - e) with 0 by lia.
    cbn [shr shr_record_of_loc shr_m].
    replace (e <=? 128 - 24) with true by (symmetry; apply Z.leb_le; lia).
    reflexivity.
  - assert (Hm1 : m1 = 16777216%positive) by lia. subst m1.
    unfold shr_fexp. cbn [Zdigits2 digits2_pos Pos.succ].
    unfold fexp, emin, F32.prec, F32.emax.
    replace (Z.max (25 + e - 24) (3 - 128 - 24) - e) with 1 by lia.
    cbn.
    replace (e + 1 <=? 104) with true by (symmetry; apply Z.leb_le; lia).
    reflexivity.
Qed.

Lemma bra_unfold (sx : bool) (mx : Z) (ex : Z) (lx : location) :
  binary_round_aux F32.prec F32.emax sx mx ex lx =
  let '(mrs', e') := shr_fexp F32.prec F32.emax mx ex lx in
  let '(mrs'', e'') :=
    shr_fexp F32.prec F32.emax
      (round_nearest_even (shr_m mrs') (loc_of_shr_record mrs')) e' loc_Exact in
  match shr_m mrs'' with
  | Z0 => S754_zero sx
  | Zpos m => if e'' <=? F32.emax - F32.prec then S754_finite sx m e''
              else S754_infinity sx
  | Zneg _ => S754_nan
  end.
Proof. reflexivity. Qed.

Lemma round_nearest_even_cases (q : Z) (l : location) :
  round_nearest_even q l = q \/ round_nearest_even q l = q + 1.
Proof.
  destruct l as [|[| |]]; simpl; auto. destruct (Z.even q); auto.
Qed.

(** Rounding a 24-bit significand with a location. *)
Lemma bra_24 (q : positive) (e : Z) (l : location) :
  2 ^ 23 <= Zpos q < 2 ^ 24 -> -149 <= e <= 103 ->
  exists m E,
    normal24 (binary_round_aux F32.prec F32.emax false (Zpos q) e l) m E /\
    ((Zpos m = round_nearest_even (Zpos q) l /\ E = e) \/
     (round_nearest_even (Zpos q) l = 2 ^ 24 /\ Zpos m = 2 ^ 23 /\ E = e + 1)).
Proof.
  intros Hq He.
  assert (Hd : Zpos (digits2_pos q) = 24) by (apply digits_unique; simpl; lia).
  rewrite bra_unfold. unfold shr_fexp at 1. cbn [Zdigits2]. rewrite Hd.
  unfold fexp at 1. unfold emin, F32.prec, F32.emax.
  replace (Z.max (24 + e - 24) (3 - 128 - 24) - e) with 0 by lia.
  cbn [shr]. destruct (loc_roundtrip (Zpos q) l) as [-> ->].
  destruct (round_nearest_even_cases (Zpos q) l) as [E1|E1].
  - rewrite E1.
    pose proof (bra_tail false q e) as T. unfold F32.prec, F32.emax in T.
    rewrite T by lia.
    replace (Zpos q <? 2 ^ 24) with true by (symmetry; apply Z.ltb_lt; lia).
    exists q, e. split; [split; [reflexivity | lia]|]. left. split; reflexivity.
  - rewrite E1. change (Zpos q + 1) with (Zpos (q + 1)).
    pose proof (bra_tail false (q + 1) e) as T. unfold F32.prec, F32.emax in T.
    rewrite T by lia.
    destruct (Z.ltb_spec (Zpos (q + 1)) (2 ^ 24)) as [L|G].
    + exists (q + 1)%positive, e. split; [split; [reflexivity | lia]|].
      left. split; [lia | reflexivity].
    + exists 8388608%positive, (e + 1). split; [split; [reflexivity | simpl; lia]|].
      right. split; [lia|]. split; reflexivity.
Qed.

Lemma iter_xO (p k : positive) :
  Zpos (Pos.iter xO p k) = Zpos p * 2 ^ Zpos k.
Proof.
  induction k as [|k IH] using Pos.peano_ind.
  - simpl. lia.
  - rewrite Pos.iter_succ, (Pos2Z.inj_xO (Pos.iter xO p k)), IH.
    rewrite Pos2Z.inj_succ, Z.pow_succ_r by lia. lia.
Qed.

Lemma shl_align_spec (p : positive) (ex ex' : Z) :
  ex' <= ex ->
  exists m, shl_align p ex ex' = (m, ex') /\ Zpos m = Zpos p * 2 ^ (ex - ex').
Proof.
  intros H. unfold shl_align.
  destruct (ex' - ex) as [|k|k] eqn:E.
  - exists p. replace ex' with ex by lia. rewrite Z.sub_diag. split; [reflexivity | simpl; lia].
  - lia.
  - exists (Pos.iter xO p k). split; [reflexivity|].
    rewrite iter_xO. f_equal. f_equal. lia.
Qed.

(** [(float)n] for 1 <= n < 2^24 is exact. *)
Lemma of_int_exact (p : positive) :
  Zpos p < 2 ^ 24 ->
  exists m e, normal24 (F32.of_int (Zpos p)) m e /\
              -23 <= e <= 0 /\ Zpos m = Zpos p * 2 ^ (- e).
Proof.
  intros Hp.
  pose proof (digits_bounds p) as [D1 D2].
  set (d := Zpos (digits2_pos p)) in *.
  assert (Hd : 1 <= d <= 24).
  { split; [unfold d; lia|].
    destruct (Z.leb_spec d 24); [assumption|].
    assert (2 ^ 24 <= 2 ^ (d - 1)) by (apply Z.pow_le_mono_r; lia). lia. }
  unfold F32.of_int, binary_normalize, binary_round.
  fold d. unfold fexp at 1. unfold emin, F32.prec, F32.emax.
  replace (Z.max (d + 0 - 24) (3 - 128 - 24)) with (d - 24) by lia.
  destruct (shl_align_spec p 0 (d - 24)) as [m [-> Hm]]; [lia|].
  replace (0 - (d - 24)) with (24 - d) in Hm by lia.
  assert (Hm24 : 2 ^ 23 <= Zpos m < 2 ^ 24).
  { rewrite Hm.
    replace (2 ^ 23) with (2 ^ (d - 1) * 2 ^ (24 - d))
      by (rewrite <- Z.pow_add_r by lia; f_equal; lia).
    replace (2 ^ 24) with (2 ^ d * 2 ^ (24 - d))
      by (rewrite <- Z.pow_add_r by lia; f_equal; lia).
    assert (0 < 2 ^ (24 - d)) by (apply Z.pow_pos_nonneg; lia).
    nia. }
  destruct (bra_24 m (d - 24) loc_Exact Hm24) as [m' [E' [[N1 N2] C]]]; [lia|].
  unfold F32.prec, F32.emax in *.
  cbn [round_nearest_even] in C.
  destruct C as [[C1 C2]|[C1 _]]; [|lia].
  exists m', E'. split; [split; assumption|].
  subst E'. split; [lia|].
  rewrite C1, Hm. f_equal. f_equal. lia.
Qed.

(** [(float)n] for 2^24 <= n < 2^25 is rounded to an even integer. *)
Lemma of_int_25 (p : positive) :
  2 ^ 24 <= Zpos p < 2 ^ 25 ->
  exists m e, normal24 (F32.of_int (Zpos p)) m e /\ 1 <= e <= 2.
Proof.
  intros Hp.
  assert (Hd : Zpos (digits2_pos p) = 25) by (apply digits_unique; simpl; lia).
  unfold F32.of_int, binary_normalize, binary_round.
  rewrite Hd. unfold fexp at 1. unfold emin, F32.prec, F32.emax.
  change (Z.max (25 + 0 - 24) (3 - 128 - 24)) with 1.
  unfold shl_align. change (1 - 0) with 1. cbv iota beta.
  pose proof (bra_unfold false (Zpos p) 0 loc_Exact) as U.
  unfold F32.prec, F32.emax in U. rewrite U. clear U.
  unfold shr_fexp at 1. cbn [Zdigits2]. rewrite Hd.
  unfold fexp at 1. unfold emin.
  change (Z.max (25 + 0 - 24) (3 - 128 - 24) - 0) with 1.
  cbn [shr iter_pos shr_record_of_loc Z.add].
  destruct p as [p'|p'|]; [| |simpl in Hp; lia].
  - (* odd *)
    cbn [shr_1 orb shr_m loc_of_shr_record round_nearest_even].
    rewrite (Pos2Z.inj_xI p') in Hp.
    destruct (Z.even (Zpos p')).
    + pose proof (bra_tail false p' 1) as T. unfold F32.prec, F32.emax in T.
      rewrite T by lia.
      replace (Zpos p' <? 2 ^ 24) with true by (symmetry; apply Z.ltb_lt; lia).
      exists p', 1. split; [split; [reflexivity|lia]|lia].
    + change (Zpos p' + 1) with (Zpos (p' + 1)).
      pose proof (bra_tail false (p' + 1) 1) as T. unfold F32.prec, F32.emax in T.
      rewrite T by lia.
      destruct (Z.ltb_spec (Zpos (p' + 1)) (2 ^ 24)).
      * exists (p' + 1)%positive, 1. split; [split; [reflexivity|lia]|lia].
      * exists 8388608%positive, 2. split; [split; [reflexivity|simpl; lia]|lia].
  - (* even *)
    cbn [shr_1 orb shr_m loc_of_shr_record round_nearest_even].
    rewrite (Pos2Z.inj_xO p') in Hp.
    pose proof (bra_tail false p' 1) as T. unfold F32.prec, F32.emax in T.
    rewrite T by lia.
    replace (Zpos p' <? 2 ^ 24) with true by (symmetry; apply Z.ltb_lt; lia).
    exists p', 1. split; [split; [reflexivity|lia]|lia].
Qed.

(** [sqrtf] of a positive float with a 24-bit significand: the result is
    the integer nearest to the square root of the scaled significand. *)
Lemma sqrtf_normal (m : positive) (e : Z) :
  2 ^ 23 <= Zpos m < 2 ^ 24 -> -23 <= e <= 8 ->
  exists Q E,
    normal24 (F32.sqrtf (S754_finite false m e)) Q E /\
    E = (25 + e) / 2 - 24 /\
    Zpos Q * Zpos Q - Zpos Q < Zpos m * 2 ^ (e - 2 * E)
    <= Zpos Q * Zpos Q + Zpos Q.
Proof.
  intros Hm He.
  assert (Hd : Zpos (digits2_pos m) = 24) by (apply digits_unique; simpl; lia).
  unfold F32.sqrtf, SFsqrt, SFsqrt_core_binary. cbn [Zdigits2]. rewrite Hd.
  rewrite !Z.div2_div. unfold fexp, emin, F32.prec, F32.emax.
  set (E := (25 + e) / 2 - 24).
  replace (Z.min (Z.max ((24 + e + 1) / 2 - 24) (3 - 128 - 24)) (e / 2))
    with E by (unfold E; Z.div_mod_to_equations; lia).
  assert (Hs : e - 2 * E = 23 \/ e - 2 * E = 24)
    by (unfold E; Z.div_mod_to_equations; lia).
  set (sh := e - 2 * E) in *.
  set (X := Zpos m * 2 ^ sh).
  assert (HX : 2 ^ 46 <= X < 2 ^ 48 /\ X <= (2 ^ 24 - 1) * 2 ^ 24).
  { unfold X. destruct Hs as [-> | ->]; lia. }
  assert (Hshift : match sh with
                   | Zpos _ => Z.shiftl (Zpos m) sh
                   | Z0 => Zpos m
                   | Zneg _ => Z0
                   end = X).
  { unfold X. destruct sh as [|k|k] eqn:Ek; try lia.
    rewrite Z.shiftl_mul_pow2 by lia. reflexivity. }
  rewrite Hshift. clear Hshift.
  pose proof (Z.sqrtrem_spec X) as S.
  destruct (Z.sqrtrem X) as [q rem].
  destruct S as [S1 S2]; [lia|].
  assert (Hq : 2 ^ 23 <= q < 2 ^ 24).
  { clearbody X. split.
    - destruct (Z.leb_spec (2 ^ 23) q); [assumption|].
      assert ((q + 1) * (q + 1) <= 2 ^ 23 * 2 ^ 23) by nia. lia.
    - destruct (Z.ltb_spec q (2 ^ 24)); [assumption|].
      assert (2 ^ 24 * 2 ^ 24 <= q * q) by nia. lia. }
  destruct q as [|q'|q']; try lia.
  set (l := if rem =? 0 then loc_Exact
            else loc_Inexact (if rem <=? Zpos q' then Lt else Gt)).
  assert (E0 : -149 <= E <= 103)
    by (unfold E; Z.div_mod_to_equations; lia).
  destruct (bra_24 q' E l Hq E0) as [Qm [QE [[N1 N2] C]]].
  unfold F32.prec, F32.emax in N1.
  assert (Hr : (round_nearest_even (Zpos q') l = Zpos q' /\ rem <= Zpos q') \/
               (round_nearest_even (Zpos q') l = Zpos q' + 1 /\ Zpos q' < rem)).
  { unfold l. destruct (Z.eqb_spec rem 0); [left; simpl; lia|].
    destruct (Z.leb_spec rem (Zpos q')); [left | right]; simpl; lia. }
  destruct C as [[C1 C2]|[C1 [C2 C3]]].
  - exists Qm, QE. split; [split; assumption|]. split; [exact C2|].
    subst QE. fold sh. fold X. rewrite C1.
    clearbody X l. clear N1 Hs HX.
    destruct Hr as [[-> Hr]|[-> Hr]]; nia.
  - exfalso. clearbody X l. clear N1 Hs.
    destruct Hr as [[R Hr]|[R Hr]]; rewrite R in C1; [lia|].
    assert (Zpos q' = 2 ^ 24 - 1) by lia. nia.
Qed.

Lemma gt_finite (m1 m2 : positive) (e1 e2 : Z) :
  F32.gt (S754_finite false m1 e1) (S754_finite false m2 e2) = true <->
  e2 < e1 \/ (e2 = e1 /\ Zpos m2 < Zpos m1).
Proof.
  unfold F32.gt, SFltb, SFcompare.
  destruct (Z.compare_spec e2 e1) as [E|L|G].
  - rewrite Pos.compare_cont_spec. cbn [Pos.switch_Eq].
    destruct (Pos.compare_spec m2 m1) as [E'|L'|G']; split; intros H;
      try discriminate; try reflexivity; try lia.
  - split; [intros _; lia | reflexivity].
  - split; [discriminate | lia].
Qed.

(** The arithmetic behind the agreement of the two corner tests. *)
Lemma arc_core (r n Q A B J K : Z) :
  1 <= r < 4096 -> 4096 <= A -> 0 < B ->
  2 ^ 23 <= r * B < 2 ^ 24 -> 2 ^ 23 <= Q < 2 ^ 24 ->
  Q * Q - Q < n * (A * A) <= Q * Q + Q ->
  (J < K -> 2 * A <= B) -> (J = K -> A = B) -> (K < J -> 2 * B <= A) ->
  (J < K \/ (J = K /\ r * B < Q)) <-> r * r < n.
Proof.
  intros Hr HA HB HrB HQ HX H1 H2 H3. split.
  - intros T.
    destruct (Z.lt_ge_cases (r * r) n) as [|Hn]; [assumption|exfalso].
    assert (HnA : n * (A * A) <= (r * A) * (r * A)) by nia.
    assert (HQA : Q <= r * A).
    { destruct (Z.le_gt_cases Q (r * A)); [assumption|exfalso].
      assert ((r * A) * (r * A) <= Q * Q - Q) by nia. lia. }
    destruct T as [T|[T1 T2]].
    + specialize (H1 T). nia.
    + specialize (H2 T1). subst B. lia.
  - intros Hn.
    destruct (Z.lt_trichotomy J K) as [L|[E|G]]; [left; assumption| |exfalso].
    + right. split; [assumption|]. specialize (H2 E). subst B.
      destruct (Z.lt_ge_cases (r * A) Q); [assumption|exfalso].
      assert (Q * Q + Q <= (r * A) * (r * A) + r * A) by nia.
      assert ((r * A) * (r * A) + A * A <= n * (A * A)) by nia.
      nia.
    + specialize (H3 G).
      assert (Q <= r * A - 1) by nia.
      assert (Q * Q + Q <= (r * A - 1) * (r * A - 1) + (r * A - 1)) by nia.
      assert ((r * A) * (r * A) <= n * (A * A)) by nia.
      nia.
Qed.

Lemma pow2_compare (J K : Z) :
  0 <= J -> 0 <= K ->
  (J < K -> 2 * 2 ^ J <= 2 ^ K) /\ (J = K -> 2 ^ J = 2 ^ K) /\
  (K < J -> 2 * 2 ^ K <= 2 ^ J).
Proof.
  intros HJ HK. repeat split.
  - intros L. rewrite <- Z.pow_succ_r by lia. apply Z.pow_le_mono_r; lia.
  - intros ->. reflexivity.
  - intros L. rewrite <- Z.pow_succ_r by lia. apply Z.pow_le_mono_r; lia.
Qed.

(** For radii below 4096 the test [sqrtf((float)n) > (float)r] decides
    [n > r * r] exactly. *)
Lemma sqrt_test_exact (rad n : Z) :
  1 <= rad < 4096 -> 1 <= n <= 2 * (rad * rad) ->
  F32.gt (F32.sqrtf (F32.of_int n)) (F32.of_int rad)
  = negb (n <=? rad * rad).
Proof.
  intros Hr Hn.
  destruct rad as [|pr|pr]; try lia.
  destruct n as [|pn|pn]; try lia.
  destruct (of_int_exact pr) as [mr [er [[Er Nr] [Ber Vr]]]]; [lia|].
  rewrite Er.
  assert (HK : 12 <= - er).
  { destruct (Z.le_gt_cases 12 (- er)); [assumption|exfalso].
    assert (2 ^ (- er) <= 2 ^ 11) by (apply Z.pow_le_mono_r; lia).
    nia. }
  apply eq_iff_eq_true. rewrite negb_true_iff, Z.leb_gt.
  destruct (Z.lt_ge_cases (Zpos pn) (2 ^ 24)) as [Hsmall|Hbig].
  - destruct (of_int_exact pn Hsmall) as [mn [en [[En Nn] [Ben Vn]]]].
    rewrite En.
    destruct (sqrtf_normal mn en Nn) as [Q [E [[EQ NQ] [HE HX]]]]; [lia|].
    rewrite EQ, gt_finite.
    assert (HJ : 12 <= - E) by (subst E; Z.div_mod_to_equations; lia).
    assert (HJ' : - E <= 24) by (subst E; Z.div_mod_to_equations; lia).
    assert (HXv : Zpos mn * 2 ^ (en - 2 * E)
                  = Zpos pn * (2 ^ (- E) * 2 ^ (- E))).
    { rewrite Vn, <- Z.mul_assoc. f_equal.
      rewrite <- !Z.pow_add_r by lia. f_equal. lia. }
    rewrite HXv in HX.
    destruct (pow2_compare (- E) (- er)) as (P1 & P2 & P3); [lia|lia|].
    assert (HA : 4096 <= 2 ^ (- E)).
    { change 4096 with (2 ^ 12). apply Z.pow_le_mono_r; lia. }
    assert (HB : 0 < 2 ^ (- er)) by (apply Z.pow_pos_nonneg; lia).
    rewrite Vr in Nr.
    pose proof (arc_core (Zpos pr) (Zpos pn) (Zpos Q) (2 ^ (- E)) (2 ^ (- er))
                  (- E) (- er) Hr HA HB Nr NQ HX P1 P2 P3) as Core.
    rewrite <- Core. rewrite Vr.
    split.
    + intros [L|[L1 L2]]; [left; lia | right; split; [lia | assumption]].
    + intros [L|[L1 L2]]; [left; lia | right; split; [lia | assumption]].
  - assert (Hn25 : Zpos pn < 2 ^ 25) by nia.
    destruct (of_int_25 pn) as [mn [en [[En Nn] Ben]]]; [lia|].
    rewrite En.
    destruct (sqrtf_normal mn en Nn) as [Q [E [[EQ NQ] [HE HX]]]]; [lia|].
    rewrite EQ, gt_finite.
    assert (HE11 : E = -11) by (subst E; Z.div_mod_to_equations; lia).
    split.
    + intros _. nia.
    + intros _. left. lia.
Qed.

Lemma ws_outside_arc_agrees (rad dx dy : Z) :
  0 <= rad < 4096 -> 0 <= dx < rad -> 0 <= dy < rad ->
  Weatherstar.outside_arc rad dx dy = Fb.outside_arc rad dx dy.
Proof.
  intros Hr Hdx Hdy. unfold Weatherstar.outside_arc, Fb.outside_arc.
  cbv zeta. apply sqrt_test_exact; nia.
Qed.

(** One right shift of the rounding record halves its integer part. *)
Lemma shr_1_m (mrs : shr_record) :
  0 <= shr_m mrs -> shr_m (shr_1 mrs) = shr_m mrs / 2.
Proof.
  destruct mrs as [m r0 s0]. cbn [shr_m]. intros H.
  destruct m as [|p|p]; [reflexivity| |lia].
  destruct p as [p|p|]; cbn [shr_1 shr_m].
  - rewrite (Pos2Z.inj_xI p). Z.div_mod_to_equations. lia.
  - rewrite (Pos2Z.inj_xO p). Z.div_mod_to_equations. lia.
  - reflexivity.
Qed.

Lemma shr_iter_m (k : positive) (mrs : shr_record) :
  0 <= shr_m mrs ->
  shr_m (iter_pos shr_1 k mrs) = shr_m mrs / 2 ^ Zpos k.
Proof.
  revert mrs. induction k as [k IH|k IH|]; intros mrs H; cbn [iter_pos].
  - assert (H1 : 0 <= shr_m (shr_1 mrs)).
    { rewrite shr_1_m by assumption. apply Z.div_pos; lia. }
    assert (H2 : 0 <= shr_m (iter_pos shr_1 k (shr_1 mrs))).
    { rewrite IH by assumption. apply Z.div_pos; [assumption|].
      apply Z.pow_pos_nonneg; lia. }
    rewrite IH, IH, shr_1_m by assumption.
    rewrite !Z.div_div by (try apply Z.pow_pos_nonneg; lia).
    f_equal. replace (Zpos k~1) with (Zpos k + Zpos k + 1) by lia.
    rewrite !Z.pow_add_r by lia. change (2 ^ 1) with 2. lia.
  - assert (H2 : 0 <= shr_m (iter_pos shr_1 k mrs)).
    { rewrite IH by assumption. apply Z.div_pos; [assumption|].
      apply Z.pow_pos_nonneg; lia. }
    rewrite IH, IH by assumption.
    rewrite !Z.div_div by (try apply Z.pow_pos_nonneg; lia).
    f_equal. rewrite (Pos2Z.inj_xO k).
    rewrite <- Z.pow_add_r by lia. f_equal. lia.
  - rewrite shr_1_m by assumption. reflexivity.
Qed.

(** [(float)n] for 2^24 <= n < 2^31: the significand is the top 24 bits,
    rounded. *)
Lemma of_int_large (p : positive) :
  2 ^ 24 <= Zpos p < 2 ^ 31 ->
  exists m e, normal24 (F32.of_int (Zpos p)) m e /\ 1 <= e <= 8 /\
              Zpos p < (Zpos m + 1) * 2 ^ e.
Proof.
  intros Hp.
  pose proof (digits_bounds p) as [D1 D2].
  set (d := Zpos (digits2_pos p)) in *.
  assert (Hd : 25 <= d <= 31).
  { split.
    - destruct (Z.le_gt_cases 25 d); [assumption|exfalso].
      assert (2 ^ d <= 2 ^ 24) by (apply Z.pow_le_mono_r; lia). lia.
    - destruct (Z.le_gt_cases d 31); [assumption|exfalso].
      assert (2 ^ 31 <= 2 ^ (d - 1)) by (apply Z.pow_le_mono_r; lia). lia. }
  unfold F32.of_int, binary_normalize, binary_round.
  fold d. unfold fexp at 1. unfold emin, F32.prec, F32.emax.
  replace (Z.max (d + 0 - 24) (3 - 128 - 24)) with (d - 24) by lia.
  assert (Hal : shl_align p 0 (d - 24) = (p, 0)).
  { unfold shl_align. destruct (d - 24 - 0) eqn:E; try reflexivity. lia. }
  rewrite Hal.
  pose proof (bra_unfold false (Zpos p) 0 loc_Exact) as U.
  unfold F32.prec, F32.emax in U. rewrite U. clear U.
  unfold shr_fexp at 1. cbn [Zdigits2]. fold d.
  unfold fexp at 1. unfold emin.
  replace (Z.max (d + 0 - 24) (3 - 128 - 24) - 0) with (d - 24) by lia.
  destruct (d - 24) as [|k|k] eqn:Ek; try lia.
  cbn [shr shr_record_of_loc].
  set (mrs := iter_pos shr_1 k {| shr_m := Zpos p; shr_r := false; shr_s := false |}).
  assert (Hm0 : shr_m mrs = Zpos p / 2 ^ Zpos k).
  { unfold mrs. rewrite shr_iter_m; [reflexivity | cbn; lia]. }
  assert (Hpow : 2 ^ d = 2 ^ 24 * 2 ^ Zpos k /\ 2 ^ (d - 1) = 2 ^ 23 * 2 ^ Zpos k).
  { rewrite <- !Z.pow_add_r by lia. split; f_equal; lia. }
  destruct Hpow as [Hp1 Hp2].
  assert (Hk : 0 < 2 ^ Zpos k) by (apply Z.pow_pos_nonneg; lia).
  assert (Hm0b : 2 ^ 23 <= shr_m mrs < 2 ^ 24 /\
                 Zpos p < (shr_m mrs + 1) * 2 ^ Zpos k).
  { rewrite Hm0. clearbody d. clear mrs Hm0 Hal.
    pose proof (Z.div_mod (Zpos p) (2 ^ Zpos k)) as DM.
    pose proof (Z.mod_pos_bound (Zpos p) (2 ^ Zpos k) Hk) as MB.
    set (qq := Zpos p / 2 ^ Zpos k) in *. set (rr := Zpos p mod 2 ^ Zpos k) in *.
    clearbody qq rr. specialize (DM ltac:(lia)).
    set (pk := 2 ^ Zpos k) in *. clearbody pk.
    set (pd := 2 ^ d) in *. set (pd1 := 2 ^ (d - 1)) in *. clearbody pd pd1.
    split; [split|]; nia. }
  destruct Hm0b as [Hm0b Hval].
  set (m0 := shr_m mrs) in *.
  destruct (round_nearest_even_cases m0 (loc_of_shr_record mrs)) as [R|R];
    rewrite R.
  - destruct m0 as [|m0'|m0'] eqn:Em0; try lia.
    pose proof (bra_tail false m0' (0 + Zpos k)) as T.
    unfold F32.prec, F32.emax in T. rewrite T by lia.
    replace (Zpos m0' <? 2 ^ 24) with true by (symmetry; apply Z.ltb_lt; lia).
    exists m0', (0 + Zpos k). split; [split; [reflexivity|lia]|].
    split; [lia|]. replace (0 + Zpos k) with (Zpos k) by lia. exact Hval.
  - destruct m0 as [|m0'|m0'] eqn:Em0; try lia.
    change (Zpos m0' + 1) with (Zpos (m0' + 1)).
    pose proof (bra_tail false (m0' + 1) (0 + Zpos k)) as T.
    unfold F32.prec, F32.emax in T. rewrite T by lia.
    destruct (Z.ltb_spec (Zpos (m0' + 1)) (2 ^ 24)).
    + exists (m0' + 1)%positive, (0 + Zpos k).
      split; [split; [reflexivity|lia]|]. split; [lia|].
      replace (0 + Zpos k) with (Zpos k) by lia. nia.
    + exists 8388608%positive, (0 + Zpos k + 1).
      split; [split; [reflexivity|simpl; lia]|]. split; [lia|].
      replace (0 + Zpos k + 1) with (Z.succ (Zpos k)) by lia.
      rewrite Z.pow_succ_r by lia.
      assert (Zpos m0' = 2 ^ 24 - 1) by lia. nia.
Qed.

(** Far outside the arc the [sqrtf] test is true, also for radii from 4096
    on. *)
Lemma sqrt_test_far (rad n : Z) :
  4096 <= rad <= 32767 -> 2 ^ 24 <= n ->
  rad * rad + rad + 256 <= n <= 2 * (rad * rad) ->
  F32.gt (F32.sqrtf (F32.of_int n)) (F32.of_int rad) = true.
Proof.
  intros Hr Hn24 Hn.
  destruct rad as [|pr|pr]; try lia.
  destruct n as [|pn|pn]; try lia.
  destruct (of_int_exact pr) as [mr [er [[Er Nr] [Ber Vr]]]]; [lia|].
  destruct (of_int_large pn) as [mn [en [[En Nn] [Ben Vn]]]]; [nia|].
  rewrite Er, En.
  destruct (sqrtf_normal mn en Nn) as [Q [E [[EQ NQ] [HE HX]]]]; [lia|].
  rewrite EQ, gt_finite.
  assert (HJ : 8 <= - E <= 11) by (subst E; Z.div_mod_to_equations; lia).
  assert (HXv : Zpos mn * 2 ^ (en - 2 * E)
                = Zpos mn * 2 ^ en * (2 ^ (- E) * 2 ^ (- E))).
  { rewrite <- Z.mul_assoc. f_equal.
    rewrite <- !Z.pow_add_r by lia. f_equal. lia. }
  rewrite HXv in HX. clear HXv.
  assert (He256 : 2 ^ en <= 256).
  { change 256 with (2 ^ 8). apply Z.pow_le_mono_r; lia. }
  assert (HA : 2 <= 2 ^ (- E)).
  { change 2 with (2 ^ 1) at 1. apply Z.pow_le_mono_r; lia. }
  destruct (pow2_compare (- E) (- er)) as (P1 & P2 & P3); [lia|lia|].
  rewrite Vr in Nr.
  set (A := 2 ^ (- E)) in *. set (B := 2 ^ (- er)) in *.
  set (pe := 2 ^ en) in *.
  assert (HB : 0 < B) by (apply Z.pow_pos_nonneg; lia).
  assert (Hpe : 0 < pe) by (apply Z.pow_pos_nonneg; lia).
  clearbody A B pe.
  assert (Hm : Zpos pr * Zpos pr + Zpos pr <= Zpos mn * pe) by nia.
  assert (HQ : Zpos pr * A < Zpos Q).
  { destruct (Z.lt_ge_cases (Zpos pr * A) (Zpos Q)) as [|Hle];
      [assumption|exfalso].
    assert (HR : 0 < Zpos pr * A) by (apply Z.mul_pos_pos; lia).
    assert (H1 : Zpos Q * Zpos Q <= (Zpos pr * A) * (Zpos pr * A))
      by (apply Z.mul_le_mono_nonneg; lia).
    assert (H2 : (Zpos pr * Zpos pr + Zpos pr) * (A * A)
                 <= Zpos mn * pe * (A * A)).
    { apply Z.mul_le_mono_nonneg_r; [|exact Hm].
      apply Z.mul_nonneg_nonneg; lia. }
    assert (H3 : (Zpos pr * A) * 2 <= (Zpos pr * A) * A)
      by (apply Z.mul_le_mono_nonneg_l; lia).
    lia. }
  destruct (Z.lt_trichotomy (- E) (- er)) as [L|[Eq|G]].
  - left. lia.
  - right. split; [lia|]. rewrite Vr. specialize (P2 Eq). subst B. exact HQ.
  - exfalso. specialize (P3 G).
    assert (H4 : Zpos pr * (2 * B) <= Zpos pr * A)
      by (apply Z.mul_le_mono_nonneg_l; lia).
    lia.
Qed.

Lemma ws_outside_arc_far (rad dx dy : Z) :
  4096 <= rad <= 32767 -> 0 <= dx <= 639 -> 0 <= dy <= 399 ->
  Weatherstar.outside_arc rad dx dy = true /\
  Fb.outside_arc rad dx dy = true.
Proof.
  intros Hr Hdx Hdy.
  assert (Hrr : 4096 * rad <= rad * rad)
    by (apply Z.mul_le_mono_nonneg_r; lia).
  assert (Ha1 : (rad - 639) * (rad - 639) <= (rad - dx) * (rad - dx))
    by (apply Z.mul_le_mono_nonneg; lia).
  assert (Ha2 : (rad - dx) * (rad - dx) <= rad * rad)
    by (apply Z.mul_le_mono_nonneg; lia).
  assert (Hb1 : (rad - 399) * (rad - 399) <= (rad - dy) * (rad - dy))
    by (apply Z.mul_le_mono_nonneg; lia).
  assert (Hb2 : (rad - dy) * (rad - dy) <= rad * rad)
    by (apply Z.mul_le_mono_nonneg; lia).
  set (a := (rad - dx) * (rad - dx)) in *.
  set (b := (rad - dy) * (rad - dy)) in *.
  split.
  - unfold Weatherstar.outside_arc. cbv zeta. fold a b.
    apply sqrt_test_far; [assumption| |]; change (2 ^ 24) with 16777216; lia.
  - unfold Fb.outside_arc. cbv zeta. fold a b.
    apply negb_true_iff, Z.leb_gt. lia.
Qed.


(** C4.  On a canvas just filled by [fb_clear], a rounded rectangle that
    lies on the canvas leaves the background colour of the row in every
    corner-block pixel outside the arc and [fill] in every other pixel of
    the rectangle.  This holds for fb.h, and for weatherstar.c (whose
    background is its own [fb_clear] colour) with every radius up to 32767,
    the largest for which the squared distance fits an [int]: its
    floating-point corner test is exact below 4096, and from 4096 on every
    offset that reaches the canvas lies far outside the arc. *)
Theorem draw_rounded_rect_on_fresh_canvas (x0 y0 w h rad : Z) (fill : rgb_t)
  (s : fb_state) (px py : Z) :
  rect_on_canvas x0 y0 w h ->
  x0 <= px < x0 + w -> y0 <= py < y0 + h ->
  (let s' := Fb.draw_rounded_rect x0 y0 w h rad fill (Fb.fb_clear s) in
   (corner_cut x0 y0 w h rad px py ->
    fb s' py px = Fb.fb_bg_at py /\ fb s' py px = fb (Fb.fb_clear s) py px) /\
   (~ corner_cut x0 y0 w h rad px py -> fb s' py px = fill)) /\
  (rad <= 32767 ->
   let s' := Weatherstar.draw_rounded_rect x0 y0 w h rad fill
               (Weatherstar.fb_clear s) in
   (corner_cut x0 y0 w h rad px py ->
    fb s' py px = Weatherstar.bg_at py /\
    fb s' py px = fb (Weatherstar.fb_clear s) py px) /\
   (~ corner_cut x0 y0 w h rad px py -> fb s' py px = fill)).
Proof.
  intros (Hx0 & Hy0 & Hw & Hh & Hxw & Hyh) Hx Hy.
  assert (Hin : in_fb py px = true) by (apply in_fb_iff; lia).
  assert (Hrect : in_rect x0 y0 w h py px = true).
  { unfold in_rect. rewrite Hin, !andb_true_iff. lia. }
  split.
  - cbv zeta. rewrite fb_draw_rounded_rect_pixel, fb_clear_pixel by exact Hin.
    rewrite Hrect.
    pose proof (knocked_iff Fb.outside_arc x0 y0 w h rad py px
                  (fun _ _ _ _ => eq_refl) Hin) as K.
    destruct (knocked Fb.outside_arc x0 y0 w h rad py px).
    + split; [intros _; split; reflexivity|].
      intros N. exfalso. apply N, K. reflexivity.
    + split; [|intros _; reflexivity].
      intros C. apply K in C. discriminate.
  - intros Hr. cbv zeta.
    rewrite ws_draw_rounded_rect_pixel, ws_fb_clear_pixel by exact Hin.
    rewrite Hrect.
    assert (Hout : forall dx dy, 0 <= dx < rad -> 0 <= dy < rad ->
                   corner_hit x0 y0 w h dx dy py px = true ->
                   Weatherstar.outside_arc rad dx dy
                   = Fb.outside_arc rad dx dy).
    { intros dx dy Hdx Hdy Hc.
      destruct (Z.lt_ge_cases rad 4096) as [Hs|Hb].
      - apply ws_outside_arc_agrees; lia.
      - apply corner_hit_iff in Hc. destruct Hc as [_ [Hcx Hcy]].
        unfold FB_W, FB_H in *.
        destruct (ws_outside_arc_far rad dx dy) as [E1 E2]; try lia.
        rewrite E1, E2. reflexivity. }
    pose proof (knocked_iff_at Weatherstar.outside_arc x0 y0 w h rad py px
                  Hout Hin) as K.
    destruct (knocked Weatherstar.outside_arc x0 y0 w h rad py px).
    + split; [intros _; split; reflexivity|].
      intros N. exfalso. apply N, K. reflexivity.
    + split; [|intros _; reflexivity].
      intros C. apply K in C. discriminate.
Qed.

Lemma draw_rounded_rect_on_fresh_canvas_witness :
  rect_on_canvas 20 104 600 140 /\
  20 <= 20 < 20 + 600 /\ 104 <= 104 < 104 + 140 /\
  corner_cut 20 104 600 140 6 20 104 /\
  fb (Fb.draw_rounded_rect 20 104 600 140 6 (rgb 15 25 90)
        (Fb.fb_clear fb_initial)) 104 20 = Fb.fb_bg_at 104.
Proof.
  assert (H1 : rect_on_canvas 20 104 600 140)
    by (unfold rect_on_canvas, FB_W, FB_H; lia).
  assert (H2 : 20 <= 20 < 20 + 600) by lia.
  assert (H3 : 104 <= 104 < 104 + 140) by lia.
  assert (C : corner_cut 20 104 600 140 6 20 104).
  { exists 0, 0. lia. }
  split; [exact H1|]. split; [exact H2|]. split; [exact H3|].
  split; [exact C|].
  exact (proj1 (proj1 (proj1
    (draw_rounded_rect_on_fresh_canvas 20 104 600 140 6 (rgb 15 25 90)
       fb_initial 20 104 H1 H2 H3)) C)).
Defined.

(** ** Footprints *)

Lemma draws_id (P : Z -> Z -> Prop) : draws P (fun s => s).
Proof.
  split; [reflexivity|]. split; [reflexivity|]. intros s t y x E. exact E.
Qed.

Lemma draws_weaken (P Q : Z -> Z -> Prop) (prog : fb_state -> fb_state) :
  (forall y x, P y x -> Q y x) -> draws P prog -> draws Q prog.
Proof.
  intros HPQ (H1 & H2 & H3). split; [exact H1|]. split; [|exact H3].
  intros s y x N. apply H2. intros HP. apply N, HPQ, HP.
Qed.

Lemma draws_seq (P : Z -> Z -> Prop) (p q : fb_state -> fb_state) :
  draws P p -> draws P q -> draws P (fun s => q (p s)).
Proof.
  intros (Hp1 & Hp2 & Hp3) (Hq1 & Hq2 & Hq3).
  split; [|split].
  - intros s. now rewrite Hq1, Hp1.
  - intros s y x N. now rewrite Hq2, Hp2.
  - intros s t y x E. apply Hq3, Hp3, E.
Qed.

Lemma draws_when (P : Z -> Z -> Prop) (c : bool) (p : fb_state -> fb_state) :
  (c = true -> draws P p) -> draws P (fun s => if c then p s else s).
Proof.
  intros H. destruct c; [now apply H | apply draws_id].
Qed.

Lemma draws_unless (P : Z -> Z -> Prop) (c : bool) (p : fb_state -> fb_state) :
  (c = false -> draws P p) -> draws P (fun s => if c then s else p s).
Proof.
  intros H. destruct c; [apply draws_id | now apply H].
Qed.

Lemma draws_fb_set (P : Z -> Z -> Prop) (y0 x0 : Z) (c : rgb_t) :
  in_fb y0 x0 = true -> P y0 x0 -> draws P (fb_set y0 x0 c).
Proof.
  intros Hin HP. split; [|split].
  - intros s. rewrite oob_fb_set, Hin. apply orb_false_r.
  - intros s y x N. rewrite fb_fb_set.
    destruct (in_fb y0 x0 && (y =? y0) && (x =? x0)) eqn:E; [|reflexivity].
    rewrite !andb_true_iff, !Z.eqb_eq in E. destruct E as [[_ ->] ->].
    contradiction.
  - intros s t y x E. rewrite !fb_fb_set.
    destruct (in_fb y0 x0 && (y =? y0) && (x =? x0)); [reflexivity | exact E].
Qed.

Lemma draws_put (P : Z -> Z -> Prop) (y0 x0 : Z) (c : rgb_t) :
  (in_fb y0 x0 = true -> P y0 x0) ->
  draws P (fun s => if in_fb y0 x0 then fb_set y0 x0 c s else s).
Proof.
  intros H. apply (draws_when P (in_fb y0 x0) (fb_set y0 x0 c)).
  intros Hin. apply draws_fb_set; auto.
Qed.

Lemma draws_for_range (P : Z -> Z -> Prop) (lo hi : Z)
  (body : Z -> fb_state -> fb_state) :
  (forall i, lo <= i < hi -> draws P (body i)) ->
  draws P (for_range lo hi body).
Proof.
  intros Hb. split; [|split].
  - intros s.
    apply (for_range_inv (fun t => oob t = oob s)); [|reflexivity].
    intros i t Hi Ht. destruct (Hb i Hi) as (H1 & _). now rewrite H1.
  - intros s y x N.
    apply (for_range_inv (fun t => fb t y x = fb s y x)); [|reflexivity].
    intros i t Hi Ht. destruct (Hb i Hi) as (_ & H2 & _). now rewrite H2.
  - intros s t y x E.
    apply (for_range_rel (fun a c => fb a y x = fb c y x)); [|exact E].
    intros i a c Hi Hac. destruct (Hb i Hi) as (_ & _ & H3). now apply H3.
Qed.

Lemma draws_fold_left {A : Type} (P : Z -> Z -> Prop)
  (f : fb_state -> A -> fb_state) (l : list A) :
  (forall a, In a l -> draws P (fun s => f s a)) ->
  draws P (fun s => fold_left f l s).
Proof.
  induction l as [|a l IH]; intros H; simpl.
  - apply draws_id.
  - apply (draws_seq P (fun s => f s a) (fun s => fold_left f l s)).
    + apply H. now left.
    + apply IH. intros a' Ha'. apply H. now right.
Qed.

Lemma draws_oob (P : Z -> Z -> Prop) (prog : fb_state -> fb_state)
  (s : fb_state) : draws P prog -> oob (prog s) = oob s.
Proof. intros (H & _). apply H. Qed.

Lemma draws_pointwise (P : Z -> Z -> Prop) (prog : fb_state -> fb_state)
  (s t : fb_state) (y x : Z) :
  draws P prog -> fb s y x = fb t y x -> fb (prog s) y x = fb (prog t) y x.
Proof. intros (_ & _ & H). apply H. Qed.

(** *** fb.h *)

Lemma draws_rows (P : Z -> Z -> Prop) (ylo yhi xlo xhi : Z)
  (guard : Z -> Z -> bool) (col : Z -> rgb_t) :
  (forall y x, ylo <= y < yhi -> xlo <= x < xhi -> guard x y = true ->
               in_fb y x = true /\ P y x) ->
  draws P
    (for_range ylo yhi (fun y s =>
       for_range xlo xhi (fun x s =>
         if guard x y then fb_set y x (col y) s else s) s)).
Proof.
  intros H. apply draws_for_range. intros y Hy.
  apply (draws_for_range P xlo xhi
           (fun x s => if guard x y then fb_set y x (col y) s else s)).
  intros x Hx.
  apply (draws_when P (guard x y) (fb_set y x (col y))).
  intros G. destruct (H y x Hy Hx G). now apply draws_fb_set.
Qed.

Lemma draws_fb_clear : draws (fun _ _ => True) Fb.fb_clear.
Proof.
  apply (draws_rows _ 0 FB_H 0 FB_W (fun _ _ => true) Fb.fb_bg_at).
  intros y x Hy Hx _. split; [|exact I]. apply in_fb_iff. lia.
Qed.

Lemma draws_ws_fb_clear : draws (fun _ _ => True) Weatherstar.fb_clear.
Proof.
  apply (draws_rows _ 0 FB_H 0 FB_W (fun _ _ => true) Weatherstar.bg_at).
  intros y x Hy Hx _. split; [|exact I]. apply in_fb_iff. lia.
Qed.

Lemma draws_fb_rect (x0 y0 w h : Z) (c : rgb_t) :
  draws (from_row y0) (Fb.fb_rect x0 y0 w h c).
Proof.
  apply (draws_rows _ y0 (Z.min (y0 + h) FB_H) x0 (Z.min (x0 + w) FB_W)
           (fun x y => (0 <=? x) && (0 <=? y)) (fun _ => c)).
  intros y x Hy Hx G. apply andb_true_iff in G.
  split; [apply in_fb_iff|unfold from_row]; lia.
Qed.

Lemma draws_fb_rect_grad_v (x0 y0 w h : Z) (top bot : rgb_t) :
  draws (from_row y0) (Fb.fb_rect_grad_v x0 y0 w h top bot).
Proof.
  apply (draws_rows _ y0 (Z.min (y0 + h) FB_H) x0 (Z.min (x0 + w) FB_W)
           (fun x y => (0 <=? x) && (0 <=? y)) (Fb.grad_color y0 h top bot)).
  intros y x Hy Hx G. apply andb_true_iff in G.
  split; [apply in_fb_iff|unfold from_row]; lia.
Qed.

Lemma draws_fb_hline (x0 x1 y0 : Z) (c : rgb_t) :
  draws (from_row y0) (Fb.fb_hline x0 x1 y0 c).
Proof.
  unfold Fb.fb_hline.
  apply (draws_unless _ ((y0 <? 0) || (FB_H <=? y0))
           (for_range x0 (Z.min (x1 + 1) FB_W)
              (fun x s => if 0 <=? x then fb_set y0 x c s else s))).
  intros E. apply orb_false_iff in E.
  apply draws_for_range. intros x Hx.
  apply (draws_when _ (0 <=? x) (fb_set y0 x c)). intros G.
  apply draws_fb_set; [apply in_fb_iff|unfold from_row]; lia.
Qed.

Lemma draws_knock_out (bg : Z -> rgb_t) (x0 y0 w h dx dy ymin : Z) :
  0 <= dy -> ymin <= y0 -> ymin <= y0 + h - 1 - dy ->
  draws (from_row ymin) (Fb.knock_out bg x0 y0 w h dx dy).
Proof.
  intros Hdy H1 H2. unfold Fb.knock_out.
  apply (draws_fold_left _
           (fun s c => let '(cx, cy) := c in
                       if in_fb cy cx then fb_set cy cx (bg cy) s else s)).
  intros [cx cy] Hc. apply (draws_put _ cy cx (bg cy)). intros _.
  unfold Fb.corners in Hc. simpl in Hc. unfold from_row.
  destruct Hc as [E|[E|[E|[E|[]]]]]; inversion E; subst; lia.
Qed.

Lemma draws_fb_draw_rounded_rect (x0 y0 w h rad : Z) (fill : rgb_t)
  (ymin : Z) :
  ymin <= y0 -> ymin <= y0 + h - rad ->
  draws (from_row ymin) (Fb.draw_rounded_rect x0 y0 w h rad fill).
Proof.
  intros H1 H2. unfold Fb.draw_rounded_rect.
  apply (draws_seq _ (Fb.fb_rect x0 y0 w h fill)).
  - eapply draws_weaken; [|apply draws_fb_rect].
    unfold from_row. intros; lia.
  - apply draws_for_range. intros dy Hdy.
    apply draws_for_range. intros dx Hdx.
    apply (draws_when _ (Fb.outside_arc rad dx dy)
             (Fb.knock_out Fb.fb_bg_at x0 y0 w h dx dy)).
    intros _. apply draws_knock_out; lia.
Qed.

Lemma draws_restore_bg (cx cy ymin : Z) :
  ymin <= cy -> draws (from_row ymin) (Weatherstar.restore_bg cx cy).
Proof.
  intros H. apply (draws_put _ cy cx (Weatherstar.bg_at cy)).
  intros _. exact H.
Qed.

Lemma draws_ws_draw_rounded_rect (x0 y0 w h rad : Z) (fill : rgb_t)
  (ymin : Z) :
  ymin <= y0 -> ymin <= y0 + h - rad ->
  draws (from_row ymin) (Weatherstar.draw_rounded_rect x0 y0 w h rad fill).
Proof.
  intros H1 H2. unfold Weatherstar.draw_rounded_rect.
  apply (draws_seq _ (Fb.fb_rect x0 y0 w h fill)).
  - eapply draws_weaken; [|apply draws_fb_rect].
    unfold from_row. intros; lia.
  - apply draws_for_range. intros dy Hdy.
    apply draws_for_range. intros dx Hdx.
    apply (draws_when _ (Weatherstar.outside_arc rad dx dy)
             (fun s =>
                Weatherstar.restore_bg (x0 + w - 1 - dx) (y0 + h - 1 - dy)
                  (Weatherstar.restore_bg (x0 + dx) (y0 + h - 1 - dy)
                     (Weatherstar.restore_bg (x0 + w - 1 - dx) (y0 + dy)
                        (Weatherstar.restore_bg (x0 + dx) (y0 + dy) s))))).
    intros _.
    apply (draws_seq _
             (fun s => Weatherstar.restore_bg (x0 + dx) (y0 + h - 1 - dy)
                         (Weatherstar.restore_bg (x0 + w - 1 - dx) (y0 + dy)
                            (Weatherstar.restore_bg (x0 + dx) (y0 + dy) s)))
             (Weatherstar.restore_bg (x0 + w - 1 - dx) (y0 + h - 1 - dy)));
      [|apply draws_restore_bg; lia].
    apply (draws_seq _
             (fun s => Weatherstar.restore_bg (x0 + w - 1 - dx) (y0 + dy)
                         (Weatherstar.restore_bg (x0 + dx) (y0 + dy) s))
             (Weatherstar.restore_bg (x0 + dx) (y0 + h - 1 - dy)));
      [|apply draws_restore_bg; lia].
    apply (draws_seq _
             (Weatherstar.restore_bg (x0 + dx) (y0 + dy))
             (Weatherstar.restore_bg (x0 + w - 1 - dx) (y0 + dy)));
      apply draws_restore_bg; lia.
Qed.

(** *** Text *)

Lemma draws_blit_block (px py col row scale : Z) (fg : rgb_t) :
  0 <= row -> draws (from_row py) (Font.blit_block px py col row scale fg).
Proof.
  intros Hrow. unfold Font.blit_block.
  apply draws_for_range. intros sy Hsy.
  apply draws_for_range. intros sx Hsx.
  apply (draws_put _ (py + row * scale + sy) (px + col * scale + sx) fg).
  intros _. unfold from_row. nia.
Qed.

Lemma draws_fb_char (px py ch : Z) (fg : rgb_t) (scale : Z) :
  draws (from_row py) (Font.fb_char px py ch fg scale).
Proof.
  unfold Font.fb_char.
  set (idx := if (ch - 32 <? 0) || (94 <? ch - 32) then 0 else ch - 32).
  apply draws_for_range. intros row Hrow.
  apply draws_for_range. intros col Hcol.
  apply (draws_unless _
           (Z.land (Font.glyph_row idx row) (Z.shiftr 16 col) =? 0)
           (Font.blit_block px py col row scale fg)).
  intros _. apply draws_blit_block. lia.
Qed.

Lemma draws_fb_string (px py : Z) (str : string) (fg : rgb_t) (scale : Z) :
  draws (from_row py) (Font.fb_string px py str fg scale).
Proof.
  unfold Font.fb_string. revert px.
  induction str as [|c rest IH]; intros px.
  - apply draws_id.
  - cbn [Font.fb_string_loop].
    apply (draws_seq _ (Font.fb_char px py (Font.code c) fg scale)
             (fun s => snd (Font.fb_string_loop (px + 6 * scale) py rest
                              fg scale s))).
    + apply draws_fb_char.
    + apply IH.
Qed.

Lemma draws_fb_string_centered (y0 : Z) (str : string) (fg : rgb_t)
  (scale : Z) :
  draws (from_row y0) (Font.fb_string_centered y0 str fg scale).
Proof. unfold Font.fb_string_centered. apply draws_fb_string. Qed.

Lemma draws_fb_degree (px py : Z) (fg : rgb_t) (scale : Z) :
  draws (from_row py) (Font.fb_degree px py fg scale).
Proof.
  unfold Font.fb_degree.
  apply draws_for_range. intros row Hrow.
  apply draws_for_range. intros col Hcol.
  apply (draws_unless _
           (Z.land (nth (Z.to_nat row) Font.deg 0) (Z.shiftr 4 col) =? 0)
           (Font.blit_block px py col row scale fg)).
  intros _. apply draws_blit_block. lia.
Qed.

(** *** Icons *)

Lemma draws_disc_gen (P : Z -> Z -> Prop) (cx cy rad : Z) (col : rgb_t) :
  (forall dy x, - rad <= dy <= rad -> P (cy + dy) x) ->
  draws P
    (for_range (- rad) (rad + 1) (fun dy =>
       for_range (- rad) (rad + 1) (fun dx s =>
         if dx * dx + dy * dy <=? rad * rad then
           let px := cx + dx in
           let py := cy + dy in
           if in_fb py px then fb_set py px col s else s
         else s))).
Proof.
  intros HP.
  apply draws_for_range. intros dy Hdy.
  apply draws_for_range. intros dx Hdx.
  apply (draws_when _ (dx * dx + dy * dy <=? rad * rad)
           (fun s => if in_fb (cy + dy) (cx + dx)
                     then fb_set (cy + dy) (cx + dx) col s else s)).
  intros _. apply (draws_put _ (cy + dy) (cx + dx) col).
  intros _. apply HP. lia.
Qed.

Lemma draws_disc (cx cy rad : Z) (col : rgb_t) :
  draws (from_row (cy - rad)) (Icons.disc cx cy rad col).
Proof.
  apply draws_disc_gen. intros dy x Hdy. unfold from_row. lia.
Qed.

Lemma draws_draw_cloud (cx cy : Z) (col : rgb_t) :
  draws (from_row (cy - 12)) (Icons.draw_cloud cx cy col).
Proof.
  unfold Icons.draw_cloud.
  apply (draws_fold_left _
           (fun s o => let '(ox, oy, rad) := o in
                       Icons.disc (cx + ox) (cy + oy) rad col s)).
  intros [[ox oy] rad] Ho.
  eapply draws_weaken; [|apply draws_disc].
  unfold Icons.offsets in Ho. simpl in Ho. unfold from_row.
  destruct Ho as [E|[E|[E|[]]]]; inversion E; subst; intros; lia.
Qed.

(** The sun of icons.h stores behind the full guard, whatever [cosf] and
    [sinf] return. *)
Lemma draws_icons_draw_sun (P : Z -> Z -> Prop)
  (cosf sinf : F32.float -> F32.float) (cx cy rad : Z) :
  (forall dy x, - rad <= dy <= rad -> P (cy + dy) x) ->
  (forall i d x, 0 <= i < 8 -> rad + 3 <= d < rad + 10 ->
                 P (cy + Icons.ray_offset sinf i d) x) ->
  draws P (Icons.draw_sun cosf sinf cx cy rad).
Proof.
  intros Hdisc Hray. unfold Icons.draw_sun.
  apply (draws_seq P
           (for_range (- rad) (rad + 1) (fun dy =>
              for_range (- rad) (rad + 1) (fun dx s =>
                if dx * dx + dy * dy <=? rad * rad then
                  let px := cx + dx in
                  let py := cy + dy in
                  if in_fb py px then fb_set py px COL_YELLOW s else s
                else s)))).
  - now apply draws_disc_gen.
  - apply draws_for_range. intros i Hi.
    apply draws_for_range. intros d Hd.
    set (px := cx + Icons.ray_offset cosf i d).
    set (py := cy + Icons.ray_offset sinf i d).
    apply (draws_seq P
             (fun s => if in_fb py px then fb_set py px COL_ORANGE s else s)
             (fun s => if in_fb py (px + 1)
                       then fb_set py (px + 1) COL_ORANGE s else s)).
    + apply draws_put. intros _. now apply Hray.
    + apply draws_put. intros _. now apply Hray.
Qed.

(** The sun of weatherstar.c needs the second store of each ray step to
    land on the canvas. *)
Lemma draws_ws_draw_sun (P : Z -> Z -> Prop)
  (cosf sinf : F32.float -> F32.float) (cx cy rad : Z) :
  (forall dy x, - rad <= dy <= rad -> P (cy + dy) x) ->
  (forall i d x, 0 <= i < 8 -> rad + 3 <= d < rad + 10 ->
                 P (cy + Icons.ray_offset sinf i d) x) ->
  (forall i d, 0 <= i < 8 -> rad + 3 <= d < rad + 10 ->
               0 <= cy + Icons.ray_offset sinf i d < FB_H /\
               0 <= cx + Icons.ray_offset cosf i d + 1) ->
  draws P (Weatherstar.draw_sun cosf sinf cx cy rad).
Proof.
  intros Hdisc Hray Hin. unfold Weatherstar.draw_sun.
  apply (draws_seq P
           (for_range (- rad) (rad + 1) (fun dy =>
              for_range (- rad) (rad + 1) (fun dx s =>
                if dx * dx + dy * dy <=? rad * rad then
                  let px := cx + dx in
                  let py := cy + dy in
                  if in_fb py px then fb_set py px COL_YELLOW s else s
                else s)))).
  - now apply draws_disc_gen.
  - apply draws_for_range. intros i Hi.
    apply draws_for_range. intros d Hd.
    set (px := cx + Icons.ray_offset cosf i d).
    set (py := cy + Icons.ray_offset sinf i d).
    apply (draws_seq P
             (fun s => if in_fb py px then fb_set py px COL_ORANGE s else s)
             (fun s => if px + 1 <? FB_W
                       then fb_set py (px + 1) COL_ORANGE s else s)).
    + apply draws_put. intros _. now apply Hray.
    + apply (draws_when P (px + 1 <? FB_W) (fb_set py (px + 1) COL_ORANGE)).
      intros Hlt. apply Z.ltb_lt in Hlt.
      destruct (Hin i d Hi Hd) as [Hy Hx]. fold px py in Hy, Hx.
      apply draws_fb_set; [apply in_fb_iff; lia | now apply Hray].
Qed.

(** ** The composed scene *)

Lemma oob_step (P : Z -> Z -> Prop) (prog : fb_state -> fb_state)
  (s s0 : fb_state) :
  draws P prog -> oob s = oob s0 -> oob (prog s) = oob s0.
Proof. intros H E. now rewrite (draws_oob P prog s H). Qed.

Lemma out_step (P : Z -> Z -> Prop) (prog : fb_state -> fb_state)
  (s : fb_state) (y x : Z) (v : rgb_t) :
  draws P prog -> ~ P y x -> fb s y x = v -> fb (prog s) y x = v.
Proof. intros (_ & H & _) N E. now rewrite H. Qed.

Lemma pw_step (P : Z -> Z -> Prop) (prog : fb_state -> fb_state)
  (s t : fb_state) (y x : Z) :
  draws P prog -> fb s y x = fb t y x -> fb (prog s) y x = fb (prog t) y x.
Proof. intros H E. now apply (draws_pointwise P). Qed.

Ltac prim_draws :=
  lazymatch goal with
  | |- draws _ (Fb.fb_rect _ _ _ _ _) => apply draws_fb_rect
  | |- draws _ (Fb.fb_rect_grad_v _ _ _ _ _ _) => apply draws_fb_rect_grad_v
  | |- draws _ (Fb.fb_hline _ _ _ _) => apply draws_fb_hline
  | |- draws _ (Font.fb_string_centered _ _ _ _) =>
      apply draws_fb_string_centered
  | |- draws _ (Font.fb_string _ _ _ _ _) => apply draws_fb_string
  | |- draws _ (Font.fb_degree _ _ _ _) => apply draws_fb_degree
  | |- draws _ (Icons.draw_cloud _ _ _) => apply draws_draw_cloud
  end.

Lemma draws_forecast_box (box_start box_w box_gap strip_y i : Z) :
  draws (from_row (strip_y + 26))
        (forecast_box box_start box_w box_gap strip_y i).
Proof.
  assert (Hdot : forall bx dot,
            draws (from_row (strip_y + 26 + 69))
              (for_range (-3) 4 (fun dy =>
                 for_range (-3) 4 (fun dx s =>
                   if dx * dx + dy * dy <=? 9 then
                     let px := bx + box_w - 18 + dx in
                     let py := strip_y + 26 + 72 + dy in
                     if in_fb py px then fb_set py px dot s else s
                   else s)))).
  { intros bx dot.
    apply (draws_disc_gen _ (bx + box_w - 18) (strip_y + 26 + 72) 3 dot).
    intros dy x Hdy. unfold from_row. lia. }
  split; [|split]; intros; unfold forecast_box; cbv zeta.
  - eapply oob_step; [apply Hdot|].
    repeat (eapply oob_step; [prim_draws|]). reflexivity.
  - eapply out_step; [apply Hdot | unfold from_row in *; lia |].
    repeat (eapply out_step; [prim_draws | unfold from_row in *; lia |]).
    reflexivity.
  - eapply pw_step; [apply Hdot|].
    repeat (eapply pw_step; [prim_draws|]). assumption.
Qed.

Lemma draws_forecast_strip (box_start box_w box_gap strip_y : Z) :
  draws (from_row (strip_y + 26))
        (for_range 0 5 (forecast_box box_start box_w box_gap strip_y)).
Proof.
  apply draws_for_range. intros i _. apply draws_forecast_box.
Qed.

Section ComposerFacts.
Variable fb_clear : fb_state -> fb_state.
Variable draw_rounded_rect :
  Z -> Z -> Z -> Z -> Z -> rgb_t -> fb_state -> fb_state.
Variable draw_sun : Z -> Z -> Z -> fb_state -> fb_state.
Variable P : Z -> Z -> Prop.

Hypothesis clear_draws : draws (fun _ _ => True) fb_clear.
Hypothesis card_draws :
  draws P (draw_rounded_rect 20 104 (FB_W - 40) 140 6 (rgb 15 25 90)).
Hypothesis sun_draws : draws P (draw_sun 90 (104 + 55) 18).

Let compose := compose_display fb_clear draw_rounded_rect draw_sun.

Ltac scene_draws :=
  lazymatch goal with
  | |- draws _ (draw_rounded_rect _ _ _ _ _ _) => apply card_draws
  | |- draws _ (draw_sun _ _ _) => apply sun_draws
  | |- draws _ (for_range 0 5 (forecast_box _ _ _ _)) =>
      apply draws_forecast_strip
  | |- _ => prim_draws
  end.

(** The whole composition stores inside the array only. *)
Lemma compose_oob (clk : clock) (s : fb_state) :
  oob (compose clk s) = oob s.
Proof.
  unfold compose, compose_display. cbv zeta.
  repeat (eapply oob_step; [scene_draws|]).
  apply (draws_oob _ fb_clear s clear_draws).
Qed.

(** After [fb_clear] the composition treats every pixel on its own. *)
Lemma compose_pointwise (clk : clock) (s t : fb_state) (y x : Z) :
  fb (fb_clear s) y x = fb (fb_clear t) y x ->
  fb (compose clk s) y x = fb (compose clk t) y x.
Proof.
  intros E. unfold compose, compose_display. cbv zeta.
  repeat (eapply pw_step; [scene_draws|]). exact E.
Qed.

(** Rows 0 to 9 are settled by the accent bar and the header gradient. *)
Lemma compose_top_rows (clk : clock) (s : fb_state) (y x : Z) :
  (forall y x, P y x -> 10 <= y) -> y < 10 ->
  fb (compose clk s) y x =
  fb (Fb.fb_rect_grad_v 0 4 FB_W 36 COL_HEADER (rgb 30 55 140)
        (Fb.fb_rect 0 0 FB_W 4 COL_GOLD (fb_clear s))) y x.
Proof.
  intros HP Hy. unfold compose, compose_display. cbv zeta.
  assert (NP : ~ P y x) by (intros HPy; apply HP in HPy; lia).
  repeat (eapply out_step;
          [ scene_draws
          | first [exact NP | unfold from_row, FB_H; lia] | ]).
  reflexivity.
Qed.
End ComposerFacts.

Lemma ray_bound_check_sound (f : F32.float -> F32.float) (lo hi : Z) :
  ray_bound_check f lo hi = true -> ray_bound f lo hi.
Proof.
  unfold ray_bound_check. intros H i d Hi Hd.
  rewrite forall_range_true in H. specialize (H i Hi).
  rewrite forall_range_true in H. specialize (H d Hd).
  apply andb_true_iff in H. lia.
Qed.

(** *** The split build *)

Lemma display_card_draws (ymin : Z) :
  ymin <= 104 ->
  draws (from_row ymin)
        (Fb.draw_rounded_rect 20 104 (FB_W - 40) 140 6 (rgb 15 25 90)).
Proof. intros H. apply draws_fb_draw_rounded_rect; lia. Qed.

Lemma display_oob (cosf sinf : F32.float -> F32.float) (clk : clock)
  (s : fb_state) :
  oob (Display.compose_display cosf sinf clk s) = oob s.
Proof.
  apply (compose_oob Fb.fb_clear Fb.draw_rounded_rect
           (Icons.draw_sun cosf sinf) (fun _ _ => True)).
  - apply draws_fb_clear.
  - eapply draws_weaken; [|apply (display_card_draws 104); lia]. auto.
  - apply draws_icons_draw_sun; auto.
Qed.

Lemma display_pointwise (cosf sinf : F32.float -> F32.float) (clk : clock)
  (s t : fb_state) (y x : Z) :
  in_fb y x = true ->
  fb (Display.compose_display cosf sinf clk s) y x
  = fb (Display.compose_display cosf sinf clk t) y x.
Proof.
  intros Hin.
  apply (compose_pointwise Fb.fb_clear Fb.draw_rounded_rect
           (Icons.draw_sun cosf sinf) (fun _ _ => True)).
  - eapply draws_weaken; [|apply (display_card_draws 104); lia]. auto.
  - apply draws_icons_draw_sun; auto.
  - now rewrite !fb_clear_pixel.
Qed.

Lemma display_top_rows (cosf sinf : F32.float -> F32.float) (clk : clock)
  (s : fb_state) (y x : Z) :
  ray_bound sinf 21 28 -> y < 10 ->
  fb (Display.compose_display cosf sinf clk s) y x =
  fb (Fb.fb_rect_grad_v 0 4 FB_W 36 COL_HEADER (rgb 30 55 140)
        (Fb.fb_rect 0 0 FB_W 4 COL_GOLD (Fb.fb_clear s))) y x.
Proof.
  intros Hs Hy.
  apply (compose_top_rows Fb.fb_clear Fb.draw_rounded_rect
           (Icons.draw_sun cosf sinf) (from_row 10)).
  - apply display_card_draws. lia.
  - apply draws_icons_draw_sun.
    + intros dy x' Hdy. unfold from_row. lia.
    + intros i d x' Hi Hd. unfold from_row.
      specialize (Hs i d Hi). lia.
  - unfold from_row. auto.
  - exact Hy.
Qed.

(** *** The single-file build *)

Lemma ws_card_draws (ymin : Z) :
  ymin <= 104 ->
  draws (from_row ymin)
        (Weatherstar.draw_rounded_rect 20 104 (FB_W - 40) 140 6
           (rgb 15 25 90)).
Proof. intros H. apply draws_ws_draw_rounded_rect; lia. Qed.

Lemma ws_sun_draws (cosf sinf : F32.float -> F32.float) :
  ray_bound cosf 21 28 -> ray_bound sinf 21 28 ->
  draws (from_row 10) (Weatherstar.draw_sun cosf sinf 90 (104 + 55) 18).
Proof.
  intros Hc Hs. apply draws_ws_draw_sun.
  - intros dy x Hdy. unfold from_row. lia.
  - intros i d x Hi Hd. unfold from_row. specialize (Hs i d Hi). lia.
  - intros i d Hi Hd. specialize (Hs i d Hi). specialize (Hc i d Hi).
    unfold FB_H. lia.
Qed.

Lemma ws_oob (cosf sinf : F32.float -> F32.float) (clk : clock)
  (s : fb_state) :
  ray_bound cosf 21 28 -> ray_bound sinf 21 28 ->
  oob (Weatherstar.compose_display cosf sinf clk s) = oob s.
Proof.
  intros Hc Hs.
  apply (compose_oob Weatherstar.fb_clear Weatherstar.draw_rounded_rect
           (Weatherstar.draw_sun cosf sinf) (from_row 10)).
  - apply draws_ws_fb_clear.
  - apply ws_card_draws. lia.
  - now apply ws_sun_draws.
Qed.

Lemma ws_pointwise (cosf sinf : F32.float -> F32.float) (clk : clock)
  (s t : fb_state) (y x : Z) :
  ray_bound cosf 21 28 -> ray_bound sinf 21 28 ->
  in_fb y x = true ->
  fb (Weatherstar.compose_display cosf sinf clk s) y x
  = fb (Weatherstar.compose_display cosf sinf clk t) y x.
Proof.
  intros Hc Hs Hin.
  apply (compose_pointwise Weatherstar.fb_clear Weatherstar.draw_rounded_rect
           (Weatherstar.draw_sun cosf sinf) (from_row 10)).
  - apply ws_card_draws. lia.
  - now apply ws_sun_draws.
  - now rewrite !ws_fb_clear_pixel.
Qed.

Lemma ws_top_rows (cosf sinf : F32.float -> F32.float) (clk : clock)
  (s : fb_state) (y x : Z) :
  ray_bound cosf 21 28 -> ray_bound sinf 21 28 -> y < 10 ->
  fb (Weatherstar.compose_display cosf sinf clk s) y x =
  fb (Fb.fb_rect_grad_v 0 4 FB_W 36 COL_HEADER (rgb 30 55 140)
        (Fb.fb_rect 0 0 FB_W 4 COL_GOLD (Weatherstar.fb_clear s))) y x.
Proof.
  intros Hc Hs Hy.
  apply (compose_top_rows Weatherstar.fb_clear Weatherstar.draw_rounded_rect
           (Weatherstar.draw_sun cosf sinf) (from_row 10)).
  - apply ws_card_draws. lia.
  - now apply ws_sun_draws.
  - unfold from_row. auto.
  - exact Hy.
Qed.

Lemma stand_in_rays :
  ray_bound cosf_at_0 21 28 /\ ray_bound sinf_at_0 21 28.
Proof.
  split; apply ray_bound_check_sound; vm_compute; reflexivity.
Qed.

(** ** C2: what the canvas depends on *)

(** C2, as stated, fails: [compose_display] takes no time or date argument;
    it reads the clock itself, and two calls on the same canvas with the
    clock at 08:30 PM and at 09:30 PM leave different pixels. *)
Lemma compose_display_reads_the_clock :
  fb (Display.compose_display cosf_at_0 sinf_at_0
        (mk_clock "08:30 PM" "Saturday  Feb 07, 2026") fb_initial) 382 544
  <>
  fb (Display.compose_display cosf_at_0 sinf_at_0
        (mk_clock "09:30 PM" "Saturday  Feb 07, 2026") fb_initial) 382 544.
Proof. vm_compute. discriminate. Qed.

(** C2, amended.  [compose_display] obtains the time and date strings from
    the clock; the weather data are constants of its body.  For one clock
    reading the canvas it leaves is the same pixel for pixel whatever the
    canvas held before, and no store leaves the array.  For weatherstar.c
    this needs the ray offsets of its sun to be bounded by the ray length
    (its second ray store is not fully guarded). *)
Theorem compose_display_determined_by_clock
  (cosf sinf : F32.float -> F32.float) (clk : clock) (s t : fb_state)
  (y x : Z) :
  in_fb y x = true ->
  (fb (Display.compose_display cosf sinf clk s) y x
   = fb (Display.compose_display cosf sinf clk t) y x /\
   oob (Display.compose_display cosf sinf clk s) = oob s) /\
  (ray_bound cosf 21 28 -> ray_bound sinf 21 28 ->
   fb (Weatherstar.compose_display cosf sinf clk s) y x
   = fb (Weatherstar.compose_display cosf sinf clk t) y x /\
   oob (Weatherstar.compose_display cosf sinf clk s) = oob s).
Proof.
  intros Hin. split.
  - split; [now apply display_pointwise | apply display_oob].
  - intros Hc Hs. split; [now apply ws_pointwise | now apply ws_oob].
Qed.

Lemma compose_display_determined_by_clock_witness :
  in_fb 382 544 = true /\
  fb (Display.compose_display cosf_at_0 sinf_at_0
        (clock_0830pm "Saturday  Feb 07, 2026") fb_initial) 382 544
  = fb (Display.compose_display cosf_at_0 sinf_at_0
          (clock_0830pm "Saturday  Feb 07, 2026")
          (Fb.fb_rect 0 0 FB_W FB_H COL_WHITE fb_initial)) 382 544.
Proof.
  assert (H : in_fb 382 544 = true) by reflexivity.
  split; [exact H|].
  exact (proj1 (proj1
    (compose_display_determined_by_clock cosf_at_0 sinf_at_0
       (clock_0830pm "Saturday  Feb 07, 2026") fb_initial
       (Fb.fb_rect 0 0 FB_W FB_H COL_WHITE fb_initial) 382 544 H))).
Defined.

(** ** C9: the fixed scene *)

Lemma top_rows_pixels (s : fb_state) :
  fb (Fb.fb_rect_grad_v 0 4 FB_W 36 COL_HEADER (rgb 30 55 140)
        (Fb.fb_rect 0 0 FB_W 4 COL_GOLD s)) 0 0 = COL_GOLD /\
  fb (Fb.fb_rect_grad_v 0 4 FB_W 36 COL_HEADER (rgb 30 55 140)
        (Fb.fb_rect 0 0 FB_W 4 COL_GOLD s)) 5 0
  = Fb.grad_color 4 36 COL_HEADER (rgb 30 55 140) 5.
Proof.
  rewrite !(paints_fb_rect_grad_v 0 4 FB_W 36).
  rewrite !(paints_fb_rect 0 0 FB_W 4).
  split; reflexivity.
Qed.

(** C9, as stated with (x, y) coordinates, fails: pixel x = 5, y = 0 lies in
    the four-row accent bar and is gold, and gold is not a colour of the
    header gradient. *)
Lemma pixel_x5_y0_is_gold :
  fb (Display.compose_display cosf_at_0 sinf_at_0
        (clock_0830pm "Saturday  Feb 07, 2026") fb_initial) 0 5 = COL_GOLD /\
  forall y, 4 <= y < 40 ->
            Fb.grad_color 4 36 COL_HEADER (rgb 30 55 140) y <> COL_GOLD.
Proof.
  split; [vm_compute; reflexivity|].
  intros y Hy E.
  assert (H : forall_range 4 40 (fun y =>
                negb (rgb_eqb (Fb.grad_color 4 36 COL_HEADER
                                 (rgb 30 55 140) y) COL_GOLD)) = true)
    by (vm_compute; reflexivity).
  rewrite forall_range_true in H. specialize (H y Hy).
  apply negb_true_iff in H. apply rgb_eqb_eq in E. congruence.
Qed.

(** ** C1: stores outside the array *)

(** Every drawing operation of the split build stores inside the array
    only, for all arguments. *)
Lemma split_build_operations_safe :
  (forall x0 y0 w h c, safe (Fb.fb_rect x0 y0 w h c)) /\
  (forall x0 y0 w h top bot, safe (Fb.fb_rect_grad_v x0 y0 w h top bot)) /\
  (forall x0 x1 y c, safe (Fb.fb_hline x0 x1 y c)) /\
  (forall x0 y0 w h rad fill, safe (Fb.draw_rounded_rect x0 y0 w h rad fill)) /\
  (forall cosf sinf cx cy rad, safe (Icons.draw_sun cosf sinf cx cy rad)) /\
  (forall cx cy col, safe (Icons.draw_cloud cx cy col)) /\
  (forall px py ch fg scale, safe (Font.fb_char px py ch fg scale)) /\
  (forall bs bw bg sy i, safe (forecast_box bs bw bg sy i)).
Proof.
  repeat split; intros; intros s.
  - apply (draws_oob _ _ s (draws_fb_rect x0 y0 w h c)).
  - apply (draws_oob _ _ s (draws_fb_rect_grad_v x0 y0 w h top bot)).
  - apply (draws_oob _ _ s (draws_fb_hline x0 x1 y c)).
  - apply (draws_oob (from_row (Z.min y0 (y0 + h - rad)))).
    apply draws_fb_draw_rounded_rect; lia.
  - apply (draws_oob (fun _ _ => True)).
    apply draws_icons_draw_sun; auto.
  - apply (draws_oob _ _ s (draws_draw_cloud cx cy col)).
  - apply (draws_oob _ _ s (draws_fb_char px py ch fg scale)).
  - apply (draws_oob _ _ s (draws_forecast_box bs bw bg sy i)).
Qed.

Lemma ray_angle_0 : Icons.ray_angle 0 = F32.zero.
Proof. vm_compute. reflexivity. Qed.

Lemma sticky_ws_ray_step (cosf sinf : F32.float -> F32.float)
  (cx cy i d : Z) :
  oob_sticky (fun s =>
    let px := cx + Icons.ray_offset cosf i d in
    let py := cy + Icons.ray_offset sinf i d in
    let s := if in_fb py px then fb_set py px COL_ORANGE s else s in
    if px + 1 <? FB_W then fb_set py (px + 1) COL_ORANGE s else s).
Proof.
  intros s H. cbv zeta.
  set (px := cx + Icons.ray_offset cosf i d).
  set (py := cy + Icons.ray_offset sinf i d).
  assert (H1 : oob (if in_fb py px then fb_set py px COL_ORANGE s else s)
               = true).
  { destruct (in_fb py px); [now apply sticky_fb_set | exact H]. }
  destruct (px + 1 <? FB_W); [now apply sticky_fb_set | exact H1].
Qed.

(** C1 fails for [draw_sun] of weatherstar.c: with the sun centred above the
    canvas at (90, -50), the first ray step computes px = 111, py = -50,
    and the store [fb[py][px + 1]], guarded by [px + 1 < FB_W] alone,
    leaves the array.  ([cosf(0) = 1] and [sinf(0) = 0] as in every
    libm.) *)
Theorem ws_draw_sun_stores_outside_fb (cosf sinf : F32.float -> F32.float)
  (s : fb_state) :
  cosf F32.zero = F32.one -> sinf F32.zero = F32.zero ->
  oob (Weatherstar.draw_sun cosf sinf 90 (-50) 18 s) = true /\
  oob (Icons.draw_sun cosf sinf 90 (-50) 18 s) = oob s.
Proof.
  intros Hcos Hsin. split.
  - unfold Weatherstar.draw_sun. cbv zeta.
    match goal with
    | |- oob (for_range 0 8 _ ?s1) = true => generalize s1
    end.
    intros s1.
    rewrite (for_range_first 0 8) by lia.
    apply sticky_for_range.
    { intros i. apply sticky_for_range. intros d.
      apply sticky_ws_ray_step. }
    rewrite (for_range_first (18 + 3) (18 + 10)) by lia.
    apply sticky_for_range.
    { intros d. apply (sticky_ws_ray_step cosf sinf 90 (-50) 0 d). }
    unfold Icons.ray_offset. rewrite ray_angle_0, Hcos, Hsin.
    vm_compute. reflexivity.
  - apply (draws_oob (fun _ _ => True)).
    apply draws_icons_draw_sun; auto.
Qed.

Lemma ws_draw_sun_stores_outside_fb_witness :
  cosf_at_0 F32.zero = F32.one /\ sinf_at_0 F32.zero = F32.zero /\
  oob (Weatherstar.draw_sun cosf_at_0 sinf_at_0 90 (-50) 18 fb_initial)
  = true.
Proof.
  split; [reflexivity|]. split; [reflexivity|].
  exact (proj1 (ws_draw_sun_stores_outside_fb cosf_at_0 sinf_at_0 fb_initial
                  eq_refl eq_refl)).
Defined.

(** ** C8: terminal export *)

Lemma append_assoc_str (a c d : string) :
  ((a ++ c) ++ d = a ++ (c ++ d))%string.
Proof. induction a as [|x a IH]; simpl; [reflexivity | now rewrite IH]. Qed.

Lemma append_nil_r_str (a : string) : (a ++ EmptyString)%string = a.
Proof. induction a as [|x a IH]; simpl; [reflexivity | now rewrite IH]. Qed.

Lemma length_append_str (a c : string) :
  String.length (a ++ c) = (String.length a + String.length c)%nat.
Proof. induction a as [|x a IH]; simpl; [reflexivity | now rewrite IH]. Qed.

Lemma substring_whole (a : string) (n : nat) :
  (String.length a <= n)%nat -> substring 0 n a = a.
Proof.
  revert n. induction a as [|x a IH]; intros n H.
  - destruct n; reflexivity.
  - destruct n as [|n]; simpl in *; [lia|]. rewrite IH by lia. reflexivity.
Qed.

Lemma count_nl_append (a c : string) :
  count_nl (a ++ c) = (count_nl a + count_nl c)%nat.
Proof.
  induction a as [|x a IH]; simpl; [reflexivity|]. rewrite IH. lia.
Qed.

Lemma count_nl_cat_all (l : list string) (k : nat) :
  (forall a, In a l -> count_nl a = k) ->
  count_nl (cat_all l) = (k * List.length l)%nat.
Proof.
  induction l as [|a l IH]; intros H; simpl; [lia|].
  rewrite count_nl_append, (H a) by now left.
  rewrite IH by (intros a' Ha'; apply H; now right). lia.
Qed.

Lemma zrange_first (lo hi : Z) :
  lo < hi -> zrange lo hi = lo :: zrange (lo + 1) hi.
Proof.
  intros H. unfold zrange.
  replace (Z.to_nat (hi - lo)) with (S (Z.to_nat (hi - (lo + 1)))) by lia.
  simpl. f_equal; [lia|].
  rewrite <- seq_shift, map_map. apply map_ext. intros k. lia.
Qed.

Lemma zrange_nil (lo hi : Z) : hi <= lo -> zrange lo hi = [].
Proof.
  intros H. unfold zrange.
  replace (Z.to_nat (hi - lo)) with O by lia. reflexivity.
Qed.

Lemma zrange_length (lo hi : Z) :
  List.length (zrange lo hi) = Z.to_nat (hi - lo).
Proof. unfold zrange. now rewrite length_map, length_seq. Qed.

(** A loop that appends [f i] to the output appends the texts in order. *)
Lemma for_range_append (lo hi : Z) (f : Z -> string) (out : string) :
  for_range lo hi (fun i out => (out ++ f i)%string) out
  = (out ++ cat_all (map f (zrange lo hi)))%string.
Proof.
  unfold for_range.
  remember (Z.to_nat (hi - lo)) as n eqn:En.
  revert lo out En. induction n as [|n IH]; intros lo out En; simpl.
  - rewrite zrange_nil by lia. simpl. now rewrite append_nil_r_str.
  - rewrite IH by lia. rewrite (zrange_first lo hi) by lia. simpl.
    now rewrite append_assoc_str.
Qed.

Lemma for_loop_fold {St : Type} (fuel : nat) (cond : Z -> bool)
  (next : Z -> Z) (body : Z -> St -> St) (i : Z) (s : St) :
  for_loop fuel cond next body i s
  = fold_left (fun s i => body i s) (loop_indices fuel cond next i) s.
Proof.
  revert i s. induction fuel as [|k IH]; intros i s; simpl; [reflexivity|].
  destruct (cond i); [|reflexivity]. simpl. apply IH.
Qed.

(** The row loop of both exporters visits the rows 0, 2, ..., 398 and ends
    by its condition; the fuel of 400 is not used up. *)
Lemma row_loop_indices :
  loop_indices (Z.to_nat FB_H) (fun y => y <? FB_H) (fun y => y + 2) 0
  = pair_rows /\
  loop_indices 200 (fun y => y <? FB_H) (fun y => y + 2) 0 = pair_rows.
Proof. split; vm_compute; reflexivity. Qed.

Lemma pair_rows_spec (y : Z) :
  In y pair_rows <-> 0 <= y < FB_H /\ y mod 2 = 0.
Proof.
  unfold pair_rows, FB_H. rewrite in_map_iff. split.
  - intros [k [<- Hk]]. apply zrange_In in Hk.
    rewrite Z.mul_comm, Z.mod_mul by lia. lia.
  - intros [Hy Hm]. exists (y / 2). split.
    + pose proof (Z.div_mod y 2). lia.
    + apply zrange_In. pose proof (Z.div_mod y 2). lia.
Qed.

Lemma ws_ansi_output_text (s : fb_state) :
  Weatherstar.ansi_output s EmptyString = ansi_text s.
Proof.
  unfold Weatherstar.ansi_output, ansi_text. cbv zeta.
  rewrite for_loop_fold. destruct row_loop_indices as [-> _].
  change (EmptyString ++ clear_screen)%string with clear_screen.
  assert (E : forall l out,
            (forall y, In y l -> y + 1 < FB_H) ->
            fold_left
              (fun out y =>
                 (for_range 0 FB_W
                    (fun x out =>
                       (out ++ cell (fb s y x)
                                 (if (y + 1 <? FB_H)%Z then fb s (y + 1) x
                                  else fb s y x))%string) out
                  ++ sgr_reset ++ String NL EmptyString)%string) l out
            = (out ++ cat_all (map (ansi_line s) l))%string).
  { induction l as [|y l IH]; intros out Hl;
      cbn [fold_left map cat_all fold_right].
    - now rewrite append_nil_r_str.
    - rewrite IH by (intros y' Hy'; apply Hl; now right).
      rewrite (for_range_append 0 FB_W).
      replace (y + 1 <? FB_H) with true
        by (symmetry; apply Z.ltb_lt, Hl; now left).
      unfold ansi_line. now rewrite !append_assoc_str. }
  rewrite E.
  - now rewrite append_assoc_str.
  - intros y Hy. apply pair_rows_spec in Hy. unfold FB_H in *.
    destruct Hy as [Hy Hm].
    assert (y <> 399) by (intros ->; discriminate Hm). lia.
Qed.

Lemma dec_byte_facts (x : byte) :
  count_nl (dec (int_of x)) = O /\
  (String.length (dec (int_of x)) <= 3)%nat.
Proof.
  assert (H : forallb (fun x =>
                Nat.eqb (count_nl (dec (int_of x))) 0 &&
                Nat.leb (String.length (dec (int_of x))) 3) all_bytes = true)
    by (vm_compute; reflexivity).
  pose proof (forall_bytes _ H x) as Hx. cbv beta in Hx.
  apply andb_true_iff in Hx. destruct Hx as [H1 H2].
  apply Nat.eqb_eq in H1. apply Nat.leb_le in H2. now split.
Qed.

Lemma cell_facts (top bot : rgb_t) :
  count_nl (cell top bot) = O /\ (String.length (cell top bot) <= 41)%nat.
Proof.
  unfold cell.
  destruct (dec_byte_facts (r top)) as [A1 A2].
  destruct (dec_byte_facts (g top)) as [B1 B2].
  destruct (dec_byte_facts (b top)) as [C1 C2].
  destruct (dec_byte_facts (r bot)) as [D1 D2].
  destruct (dec_byte_facts (g bot)) as [E1 E2].
  destruct (dec_byte_facts (b bot)) as [F1 F2].
  split.
  - rewrite !count_nl_append, A1, B1, C1, D1, E1, F1. reflexivity.
  - rewrite !length_append_str. simpl String.length. lia.
Qed.

Lemma count_nl_ansi_line (s : fb_state) (y : Z) :
  count_nl (ansi_line s y) = 1%nat.
Proof.
  unfold ansi_line. rewrite count_nl_append.
  rewrite (count_nl_cat_all _ 0).
  - reflexivity.
  - intros a Ha. apply in_map_iff in Ha. destruct Ha as [x [<- _]].
    apply cell_facts.
Qed.

Lemma count_nl_ansi_text (s : fb_state) : count_nl (ansi_text s) = 200%nat.
Proof.
  unfold ansi_text. rewrite !count_nl_append.
  rewrite (count_nl_cat_all _ 1).
  - unfold pair_rows. rewrite !length_map, zrange_length. reflexivity.
  - intros a Ha. apply in_map_iff in Ha. destruct Ha as [y [<- _]].
    apply count_nl_ansi_line.
Qed.

(** The line buffer of screenshot.h never truncates: [snprintf] keeps the
    whole text as long as it is shorter than the room left. *)
Lemma line_printf_fits (txt line : string) :
  Z.of_nat (String.length line) + Z.of_nat (String.length txt)
  < Screenshot.LINE_SIZE ->
  Screenshot.line_printf txt (line, Z.of_nat (String.length line))
  = ((line ++ txt)%string, Z.of_nat (String.length (line ++ txt))).
Proof.
  intros H. unfold Screenshot.line_printf, snprintf.
  rewrite substring_whole by lia.
  rewrite length_append_str. f_equal. lia.
Qed.

Lemma line_loop_fits (f : Z -> string) (bound : Z) (lo hi : Z)
  (line : string) :
  0 <= bound ->
  (forall x, Z.of_nat (String.length (f x)) <= bound) ->
  Z.of_nat (String.length line) + bound * Z.max 0 (hi - lo)
  < Screenshot.LINE_SIZE ->
  for_range lo hi (fun x lp => Screenshot.line_printf (f x) lp)
            (line, Z.of_nat (String.length line))
  = ((line ++ cat_all (map f (zrange lo hi)))%string,
     Z.of_nat (String.length (line ++ cat_all (map f (zrange lo hi))))).
Proof.
  intros Hb Hf. unfold for_range.
  remember (Z.to_nat (hi - lo)) as n eqn:En.
  revert lo line En. induction n as [|n IH]; intros lo line En Hroom.
  - rewrite zrange_nil by lia. cbn [for_n map cat_all fold_right].
    now rewrite append_nil_r_str.
  - cbn [for_n]. rewrite line_printf_fits by (specialize (Hf lo); nia).
    rewrite IH.
    + rewrite (zrange_first lo hi) by lia. cbn [map cat_all fold_right].
      now rewrite append_assoc_str.
    + lia.
    + rewrite length_append_str. specialize (Hf lo). nia.
Qed.

Lemma screenshot_line (s : fb_state) (y : Z) (out : string) :
  y + 1 < FB_H ->
  Screenshot.fwrite
    (Screenshot.line_printf (sgr_reset ++ String NL EmptyString)
       (for_range 0 FB_W (fun x lp =>
          Screenshot.line_printf
            (cell (fb s y x)
                  (if y + 1 <? FB_H then fb s (y + 1) x else fb s y x)) lp)
          (EmptyString, 0))) out
  = (out ++ ansi_line s y)%string.
Proof.
  intros Hy.
  replace (y + 1 <? FB_H) with true by (symmetry; now apply Z.ltb_lt).
  change (EmptyString, 0)
    with (EmptyString, Z.of_nat (String.length EmptyString)).
  rewrite (line_loop_fits
             (fun x => cell (fb s y x) (fb s (y + 1) x)) 41 0 FB_W).
  - cbn [append].
    set (cells := cat_all (map (fun x => cell (fb s y x) (fb s (y + 1) x))
                               (zrange 0 FB_W))).
    assert (Hlen : (String.length cells <= 41 * 640)%nat).
    { unfold cells, FB_W.
      generalize (zrange 0 640) (zrange_length 0 640).
      intros l Hl. replace (41 * 640)%nat with (41 * List.length l)%nat
        by (rewrite Hl; reflexivity).
      clear Hl. induction l as [|x l IH]; cbn [map cat_all fold_right].
      - simpl. lia.
      - rewrite length_append_str. cbn [List.length].
        pose proof (proj2 (cell_facts (fb s y x) (fb s (y + 1) x))).
        fold (cat_all (map (fun x => cell (fb s y x) (fb s (y + 1) x)) l)).
        lia. }
    rewrite line_printf_fits.
    + unfold Screenshot.fwrite. rewrite Nat2Z.id.
      rewrite substring_whole by lia. reflexivity.
    + unfold Screenshot.LINE_SIZE.
      change (String.length (sgr_reset ++ String NL EmptyString)) with 5%nat.
      lia.
  - lia.
  - intros x. pose proof (proj2 (cell_facts (fb s y x) (fb s (y + 1) x))).
    lia.
  - unfold Screenshot.LINE_SIZE, FB_W. simpl String.length. lia.
Qed.

Lemma screenshot_ansi_output_text (s : fb_state) :
  Screenshot.ansi_output s EmptyString = ansi_text s.
Proof.
  unfold Screenshot.ansi_output, ansi_text. cbv zeta.
  rewrite for_loop_fold. destruct row_loop_indices as [-> _].
  change (EmptyString ++ clear_screen)%string with clear_screen.
  assert (E : forall l out,
            (forall y, In y l -> y + 1 < FB_H) ->
            fold_left
              (fun out y =>
                 Screenshot.fwrite
                   (Screenshot.line_printf
                      (sgr_reset ++ String NL EmptyString)
                      (for_range 0 FB_W (fun x lp =>
                         Screenshot.line_printf
                           (cell (fb s y x)
                                 (if y + 1 <? FB_H then fb s (y + 1) x
                                  else fb s y x)) lp)
                         (EmptyString, 0))) out) l out
            = (out ++ cat_all (map (ansi_line s) l))%string).
  { induction l as [|y l IH]; intros out Hl;
      cbn [fold_left map cat_all fold_right].
    - now rewrite append_nil_r_str.
    - rewrite IH by (intros y' Hy'; apply Hl; now right).
      rewrite screenshot_line by (apply Hl; now left).
      now rewrite append_assoc_str. }
  rewrite E.
  - now rewrite append_assoc_str.
  - intros y Hy. apply pair_rows_spec in Hy. unfold FB_H in *.
    destruct Hy as [Hy Hm].
    assert (y <> 399) by (intros ->; discriminate Hm). lia.
Qed.


(** ** C10: a trailing --screenshot *)


Lemma parse_args_trailing_screenshot (pre : list string)
  (shot : option string) (na : bool) :
  ~ In "--screenshot"%string pre -> ~ In "--help"%string pre ->
  parse_args (pre ++ ["--screenshot"%string]) shot na
  = Proceed shot (na || has_flag "--no-ansi" pre).
Proof.
  revert na. induction pre as [|a pre IH]; intros na Hs Hh.
  - cbn. now rewrite orb_false_r.
  - cbn [app parse_args].
    assert (Ea : String.eqb a "--screenshot" = false).
    { apply String.eqb_neq. intros ->. apply Hs. now left. }
    assert (Eh : String.eqb a "--help" = false).
    { apply String.eqb_neq. intros ->. apply Hh. now left. }
    rewrite Ea, Eh. cbn [andb].
    unfold has_flag. cbn [existsb]. fold (has_flag "--no-ansi" pre).
    rewrite (String.eqb_sym "--no-ansi" a).
    destruct (String.eqb a "--no-ansi").
    + rewrite IH;
        [ now rewrite orb_true_r
        | intros H; apply Hs; now right
        | intros H; apply Hh; now right ].
    + rewrite IH;
        [ reflexivity
        | intros H; apply Hs; now right
        | intros H; apply Hh; now right ].
Qed.

Lemma parse_args_at_boundary (pre : list string) (shot : option string)
  (na : bool) :
  at_flag_boundary pre = true ->
  parse_args (pre ++ ["--screenshot"%string]) shot na
  = parse_args pre shot na.
Proof.
  remember (List.length pre) as n eqn:En.
  assert (Hn : (List.length pre <= n)%nat) by lia. clear En.
  revert pre shot na Hn.
  induction n as [|n IH]; intros pre shot na Hn B.
  - destruct pre; [reflexivity | simpl in Hn; lia].
  - destruct pre as [|a rest]; [reflexivity|].
    cbn [app parse_args]. cbn [at_flag_boundary] in B.
    cbn [List.length] in Hn.
    destruct (String.eqb a "--screenshot") eqn:Ea.
    + destruct rest as [|path rest']; [discriminate B|].
      cbn [andb app]. cbn [List.length] in Hn.
      apply IH; [lia | exact B].
    + replace (match rest ++ ["--screenshot"%string] with
               | [] => false | _ :: _ => true end) with true
        by (destruct rest; reflexivity).
      cbn [andb].
      destruct (String.eqb a "--no-ansi").
      * apply IH; [lia | exact B].
      * destruct (String.eqb a "--help"); [reflexivity|].
        apply IH; [lia | exact B].
Qed.

Section ProgramFacts.
Variable compose : clock -> fb_state -> fb_state.
Variable ansi : fb_state -> string -> string.
Variable write_png : string -> fb_state -> list event * Z.

Lemma main_at_boundary (clk : clock) (pre : list string) :
  at_flag_boundary pre = true ->
  main compose ansi write_png clk (pre ++ ["--screenshot"%string])
  = main compose ansi write_png clk pre.
Proof.
  intros B. unfold main. now rewrite parse_args_at_boundary.
Qed.

Lemma main_trailing_screenshot (clk : clock) (pre : list string) :
  ~ In "--screenshot"%string pre -> ~ In "--help"%string pre ->
  main compose ansi write_png clk (pre ++ ["--screenshot"%string])
  = (if has_flag "--no-ansi" pre then []
     else [Stdout (ansi (compose clk fb_initial) EmptyString)], 0).
Proof.
  intros Hs Hh. unfold main.
  rewrite parse_args_trailing_screenshot by assumption.
  reflexivity.
Qed.
End ProgramFacts.

(** C10, as stated, fails: a final [--screenshot] that follows another
    [--screenshot] is that flag's FILE, so an export to the file named
    "--screenshot" is attempted (written with its message on stderr, or
    failed with [perror]'s text and exit code 1); and after [--help] the
    terminal text is not written although [--no-ansi] is absent. *)
Lemma trailing_screenshot_taken_as_file :
  Main.main cosf_at_0 sinf_at_0 (fun _ => Written)
            (clock_0830pm "Saturday  Feb 07, 2026")
            ["--no-ansi"%string; "--screenshot"%string;
             "--screenshot"%string]
  = ([PngWritten "--screenshot"
        (Display.compose_display cosf_at_0 sinf_at_0
           (clock_0830pm "Saturday  Feb 07, 2026") fb_initial);
      Stderr ("Screenshot saved to --screenshot"
              ++ String NL EmptyString)], 0) /\
  Main.main cosf_at_0 sinf_at_0 (fun _ => OpenFails "Permission denied")
            (clock_0830pm "Saturday  Feb 07, 2026")
            ["--no-ansi"%string; "--screenshot"%string;
             "--screenshot"%string]
  = ([Stderr ("--screenshot: Permission denied" ++ String NL EmptyString);
      PngFailed "--screenshot"], 1) /\
  Main.main cosf_at_0 sinf_at_0 (fun _ => Written)
            (clock_0830pm "Saturday  Feb 07, 2026")
            ["--help"%string; "--screenshot"%string]
  = ([Stdout usage], 0).
Proof.
  split; [reflexivity|]. split; reflexivity.
Qed.

(** C10, amended.  A final [--screenshot] that the argument loop reaches
    as a flag (it is not the FILE of a [--screenshot] before it) has no
    path to take and is ignored without any message: the run is the run of
    the command line without it.  When it is the only [--screenshot] and no
    [--help] precedes it, nothing is written to stderr, no PNG export is
    attempted, the exit code is 0, and the terminal text is written unless
    [--no-ansi] was given.  This holds for main.c and for the main of
    weatherstar.c. *)
Theorem trailing_screenshot_flag_is_ignored
  (cosf sinf : F32.float -> F32.float) (png : string -> png_outcome)
  (clk : clock) (pre : list string) :
  (at_flag_boundary pre = true ->
   Main.main cosf sinf png clk (pre ++ ["--screenshot"%string])
   = Main.main cosf sinf png clk pre /\
   Weatherstar.main cosf sinf png clk (pre ++ ["--screenshot"%string])
   = Weatherstar.main cosf sinf png clk pre) /\
  (~ In "--screenshot"%string pre -> ~ In "--help"%string pre ->
   Main.main cosf sinf png clk (pre ++ ["--screenshot"%string])
   = (if has_flag "--no-ansi" pre then []
      else [Stdout (Screenshot.ansi_output
                      (Display.compose_display cosf sinf clk fb_initial)
                      EmptyString)], 0) /\
   Weatherstar.main cosf sinf png clk (pre ++ ["--screenshot"%string])
   = (if has_flag "--no-ansi" pre then []
      else [Stdout (Weatherstar.ansi_output
                      (Weatherstar.compose_display cosf sinf clk fb_initial)
                      EmptyString)], 0)).
Proof.
  split.
  - intros B. split.
    + apply (main_at_boundary
               (Display.compose_display cosf sinf) Screenshot.ansi_output
               (Screenshot.write_png png) clk pre B).
    + apply (main_at_boundary
               (Weatherstar.compose_display cosf sinf) Weatherstar.ansi_output
               (Weatherstar.write_png png) clk pre B).
  - intros Hs Hh. split.
    + apply (main_trailing_screenshot
               (Display.compose_display cosf sinf) Screenshot.ansi_output
               (Screenshot.write_png png) clk pre Hs Hh).
    + apply (main_trailing_screenshot
               (Weatherstar.compose_display cosf sinf) Weatherstar.ansi_output
               (Weatherstar.write_png png) clk pre Hs Hh).
Qed.

Lemma trailing_screenshot_flag_is_ignored_witness :
  at_flag_boundary ["--no-ansi"%string] = true /\
  ~ In "--screenshot"%string ["--no-ansi"%string] /\
  ~ In "--help"%string ["--no-ansi"%string] /\
  Main.main cosf_at_0 sinf_at_0 (fun _ => OpenFails "Permission denied")
            (clock_0830pm "Saturday  Feb 07, 2026")
            (["--no-ansi"%string] ++ ["--screenshot"%string])
  = Main.main cosf_at_0 sinf_at_0 (fun _ => OpenFails "Permission denied")
              (clock_0830pm "Saturday  Feb 07, 2026") ["--no-ansi"%string] /\
  Main.main cosf_at_0 sinf_at_0 (fun _ => OpenFails "Permission denied")
            (clock_0830pm "Saturday  Feb 07, 2026")
            (["--no-ansi"%string] ++ ["--screenshot"%string])
  = ([], 0).
Proof.
  assert (H0 : at_flag_boundary ["--no-ansi"%string] = true) by reflexivity.
  assert (H1 : ~ In "--screenshot"%string ["--no-ansi"%string]).
  { intros [H|[]]. discriminate H. }
  assert (H2 : ~ In "--help"%string ["--no-ansi"%string]).
  { intros [H|[]]. discriminate H. }
  split; [exact H0|]. split; [exact H1|]. split; [exact H2|].
  pose proof (trailing_screenshot_flag_is_ignored cosf_at_0 sinf_at_0
                (fun _ => OpenFails "Permission denied")
                (clock_0830pm "Saturday  Feb 07, 2026")
                ["--no-ansi"%string]) as T.
  split.
  - exact (proj1 (proj1 T H0)).
  - exact (proj1 (proj2 T H1 H2)).
Defined.

(** ** C5: squared distance against [sqrtf] *)





(** * Further properties of the drawing code *)

(** ** Rectangles and lines *)

Lemma for_range_id {St : Type} (lo hi : Z) (body : Z -> St -> St) (s : St) :
  (forall i t, lo <= i < hi -> body i t = t) -> for_range lo hi body s = s.
Proof.
  intros H. apply (for_range_inv (fun t => t = s)); [|reflexivity].
  intros i t Hi ->. now apply H.
Qed.

Lemma for_range_empty {St : Type} (lo hi : Z) (body : Z -> St -> St)
  (s : St) : hi <= lo -> for_range lo hi body s = s.
Proof. intros H. apply for_range_id. intros i t Hi. lia. Qed.

(** X1.  [fb_rect] clips to the canvas, for all arguments: it stores inside
    the array only, leaves [c] in every canvas pixel of
    [x0, x0 + w) x [y0, y0 + h) and leaves every other pixel as it was. *)
Theorem fb_rect_clips (x0 y0 w h : Z) (c : rgb_t) (s : fb_state) :
  oob (Fb.fb_rect x0 y0 w h c s) = oob s /\
  forall y x,
    fb (Fb.fb_rect x0 y0 w h c s) y x
    = if (y0 <=? y) && (y <? y0 + h) && (x0 <=? x) && (x <? x0 + w)
         && in_fb y x
      then c else fb s y x.
Proof.
  split.
  - apply (draws_oob _ _ s (draws_fb_rect x0 y0 w h c)).
  - intros y x. apply (paints_fb_rect x0 y0 w h c).
Qed.

(** X2.  [fb_hline] paints the columns [x0 .. x1], both ends included, of
    row [y0], clipped to the canvas; it is the one-row rectangle of width
    [x1 - x0 + 1], and paints nothing when [x1 < x0] or the row is off the
    canvas. *)
Theorem fb_hline_is_one_row_rect (x0 x1 y0 : Z) (c : rgb_t) (s : fb_state) :
  oob (Fb.fb_hline x0 x1 y0 c s) = oob s /\
  forall y x,
    fb (Fb.fb_hline x0 x1 y0 c s) y x
    = (if (y =? y0) && (x0 <=? x) && (x <=? x1) && in_fb y x
       then c else fb s y x) /\
    fb (Fb.fb_hline x0 x1 y0 c s) y x
    = fb (Fb.fb_rect x0 y0 (x1 - x0 + 1) 1 c s) y x.
Proof.
  split.
  - apply (draws_oob _ _ s (draws_fb_hline x0 x1 y0 c)).
  - intros y x.
    rewrite (paints_fb_hline x0 x1 y0 c), (paints_fb_rect x0 y0 _ 1 c).
    split; [reflexivity|].
    replace (in_rect x0 y0 (x1 - x0 + 1) 1 y x)
      with ((y =? y0) && (x0 <=? x) && (x <=? x1) && in_fb y x);
      [reflexivity|].
    unfold in_rect. destruct (in_fb y x); [|now rewrite !andb_false_r].
    rewrite !andb_true_r. apply Bool.eq_iff_eq_true.
    rewrite !andb_true_iff, Z.eqb_eq, !Z.leb_le, !Z.ltb_lt. lia.
Qed.

(** X3.  [fb_rect_grad_v] clips like [fb_rect]; a visible row [y] has one
    colour, the one interpolated from [y - y0] and the full height [h],
    also when part of the rectangle is off the canvas. *)
Theorem fb_rect_grad_v_clips (x0 y0 w h : Z) (top bot : rgb_t)
  (s : fb_state) :
  oob (Fb.fb_rect_grad_v x0 y0 w h top bot s) = oob s /\
  forall y x,
    fb (Fb.fb_rect_grad_v x0 y0 w h top bot s) y x
    = if (y0 <=? y) && (y <? y0 + h) && (x0 <=? x) && (x <? x0 + w)
         && in_fb y x
      then Fb.grad_color y0 h top bot y else fb s y x.
Proof.
  split.
  - apply (draws_oob _ _ s (draws_fb_rect_grad_v x0 y0 w h top bot)).
  - intros y x. apply (paints_fb_rect_grad_v x0 y0 w h top bot).
Qed.

(** ** The background *)

(** X4.  [fb_clear] of either build overwrites every pixel of the canvas
    with the background colour of its row, whatever was drawn before, and
    stores inside the array only. *)
Theorem fb_clear_erases (s t : fb_state) (y x : Z) :
  in_fb y x = true ->
  (fb (Fb.fb_clear s) y x = Fb.fb_bg_at y /\
   fb (Fb.fb_clear s) y x = fb (Fb.fb_clear t) y x /\
   oob (Fb.fb_clear s) = oob s) /\
  (fb (Weatherstar.fb_clear s) y x = Weatherstar.bg_at y /\
   fb (Weatherstar.fb_clear s) y x = fb (Weatherstar.fb_clear t) y x /\
   oob (Weatherstar.fb_clear s) = oob s).
Proof.
  intros Hin. split.
  - rewrite !fb_clear_pixel by exact Hin.
    split; [reflexivity|]. split; [reflexivity|].
    apply (draws_oob _ _ s draws_fb_clear).
  - rewrite !ws_fb_clear_pixel by exact Hin.
    split; [reflexivity|]. split; [reflexivity|].
    apply (draws_oob _ _ s draws_ws_fb_clear).
Qed.

Lemma fb_clear_erases_witness :
  in_fb 7 3 = true /\
  fb (Fb.fb_clear (Fb.fb_rect 0 0 FB_W FB_H COL_WHITE fb_initial)) 7 3
  = Fb.fb_bg_at 7.
Proof.
  split; [reflexivity|].
  exact (proj1 (proj1
    (fb_clear_erases (Fb.fb_rect 0 0 FB_W FB_H COL_WHITE fb_initial)
       fb_initial 7 3 eq_refl))).
Defined.

Lemma rgb_leb_refl (p : rgb_t) : rgb_leb p p = true.
Proof. unfold rgb_leb. now rewrite !Z.leb_refl. Qed.

Lemma rgb_leb_trans (p q u : rgb_t) :
  rgb_leb p q = true -> rgb_leb q u = true -> rgb_leb p u = true.
Proof.
  unfold rgb_leb. rewrite !andb_true_iff, !Z.leb_le. lia.
Qed.

(** A row function that does not brighten from one row to the next does
    not brighten over any distance. *)
Lemma rows_darken (f : Z -> rgb_t) (lo hi : Z) :
  forall_range lo hi (fun y => rgb_leb (f (y + 1)) (f y)) = true ->
  forall y1 y2, lo <= y1 -> y1 <= y2 -> y2 <= hi ->
                rgb_leb (f y2) (f y1) = true.
Proof.
  intros H y1 y2 H1 H12 H2.
  replace y2 with (y1 + Z.of_nat (Z.to_nat (y2 - y1))) in * by lia.
  induction (Z.to_nat (y2 - y1)) as [|k IH].
  - rewrite Z.add_0_r. apply rgb_leb_refl.
  - apply (rgb_leb_trans _ (f (y1 + Z.of_nat k))).
    + replace (y1 + Z.of_nat (S k)) with (y1 + Z.of_nat k + 1) by lia.
      apply (proj1 (forall_range_true lo hi _) H). lia.
    + apply IH; lia.
Qed.

(** X5.  The background gradient of either build starts at [COL_GRADTOP]
    in row 0, never brightens from a row to a row below it, and stays
    between [COL_GRADBOT] and [COL_GRADTOP] in every channel. *)
Theorem background_darkens_downward (y1 y2 : Z) :
  0 <= y1 -> y1 <= y2 -> y2 < FB_H ->
  (Fb.fb_bg_at 0 = COL_GRADTOP /\
   rgb_leb (Fb.fb_bg_at y2) (Fb.fb_bg_at y1) = true /\
   rgb_leb COL_GRADBOT (Fb.fb_bg_at y2) = true /\
   rgb_leb (Fb.fb_bg_at y1) COL_GRADTOP = true) /\
  (Weatherstar.bg_at 0 = COL_GRADTOP /\
   rgb_leb (Weatherstar.bg_at y2) (Weatherstar.bg_at y1) = true /\
   rgb_leb COL_GRADBOT (Weatherstar.bg_at y2) = true /\
   rgb_leb (Weatherstar.bg_at y1) COL_GRADTOP = true).
Proof.
  intros H1 H12 H2. unfold FB_H in H2.
  assert (MF : forall a c, 0 <= a -> a <= c -> c <= 399 ->
                           rgb_leb (Fb.fb_bg_at c) (Fb.fb_bg_at a) = true).
  { apply (rows_darken Fb.fb_bg_at 0 399). vm_compute. reflexivity. }
  assert (MW : forall a c, 0 <= a -> a <= c -> c <= 399 ->
                 rgb_leb (Weatherstar.bg_at c) (Weatherstar.bg_at a) = true).
  { apply (rows_darken Weatherstar.bg_at 0 399). vm_compute. reflexivity. }
  assert (TF : Fb.fb_bg_at 0 = COL_GRADTOP) by (vm_compute; reflexivity).
  assert (TW : Weatherstar.bg_at 0 = COL_GRADTOP)
    by (vm_compute; reflexivity).
  assert (BF : rgb_leb COL_GRADBOT (Fb.fb_bg_at 399) = true)
    by (vm_compute; reflexivity).
  assert (BW : rgb_leb COL_GRADBOT (Weatherstar.bg_at 399) = true)
    by (vm_compute; reflexivity).
  split; (split; [assumption|]); (split; [|split]).
  - apply MF; lia.
  - apply (rgb_leb_trans _ (Fb.fb_bg_at 399)); [exact BF | apply MF; lia].
  - rewrite <- TF. apply MF; lia.
  - apply MW; lia.
  - apply (rgb_leb_trans _ (Weatherstar.bg_at 399));
      [exact BW | apply MW; lia].
  - rewrite <- TW. apply MW; lia.
Qed.

Lemma background_darkens_downward_witness :
  0 <= 10 /\ 10 <= 300 /\ 300 < FB_H /\
  rgb_leb (Fb.fb_bg_at 300) (Fb.fb_bg_at 10) = true.
Proof.
  assert (H1 : 0 <= 10) by lia.
  assert (H2 : 10 <= 300) by lia.
  assert (H3 : 300 < FB_H) by (unfold FB_H; lia).
  split; [exact H1|]. split; [exact H2|]. split; [exact H3|].
  exact (proj1 (proj2 (proj1 (background_darkens_downward 10 300 H1 H2 H3)))).
Defined.

(** ** Rounded rectangles *)

Lemma knocked_in_rect (out : Z -> Z -> Z -> bool) (x0 y0 w h rad y x : Z) :
  rad <= w -> rad <= h ->
  knocked out x0 y0 w h rad y x = true -> in_rect x0 y0 w h y x = true.
Proof.
  intros Hw Hh K. unfold knocked in K.
  apply exists_range_true in K. destruct K as [dy [Hdy K]].
  apply exists_range_true in K. destruct K as [dx [Hdx K]].
  apply andb_true_iff in K. destruct K as [_ K].
  apply corner_hit_iff in K. destruct K as [Hin [Hx Hy]].
  unfold in_rect. rewrite Hin, andb_true_r.
  rewrite !andb_true_iff, !Z.leb_le, !Z.ltb_lt. lia.
Qed.

(** X6.  When the radius is at most the width and the height, the corner
    loops of either build stay inside the rectangle: a pixel outside it is
    left as it was. *)
Theorem draw_rounded_rect_stays_inside (x0 y0 w h rad : Z) (fill : rgb_t)
  (s : fb_state) (y x : Z) :
  rad <= w -> rad <= h ->
  in_rect x0 y0 w h y x = false ->
  fb (Fb.draw_rounded_rect x0 y0 w h rad fill s) y x = fb s y x /\
  fb (Weatherstar.draw_rounded_rect x0 y0 w h rad fill s) y x = fb s y x.
Proof.
  intros Hw Hh Hout.
  rewrite fb_draw_rounded_rect_pixel, ws_draw_rounded_rect_pixel, Hout.
  split.
  - destruct (knocked Fb.outside_arc x0 y0 w h rad y x) eqn:K;
      [|reflexivity].
    apply knocked_in_rect in K; [congruence | assumption | assumption].
  - destruct (knocked Weatherstar.outside_arc x0 y0 w h rad y x) eqn:K;
      [|reflexivity].
    apply knocked_in_rect in K; [congruence | assumption | assumption].
Qed.

Lemma draw_rounded_rect_stays_inside_witness :
  6 <= 600 /\ 6 <= 140 /\ in_rect 20 104 600 140 103 20 = false /\
  fb (Fb.draw_rounded_rect 20 104 600 140 6 (rgb 15 25 90) fb_initial) 103 20
  = fb fb_initial 103 20.
Proof.
  assert (H1 : 6 <= 600) by lia.
  assert (H2 : 6 <= 140) by lia.
  assert (H3 : in_rect 20 104 600 140 103 20 = false) by reflexivity.
  split; [exact H1|]. split; [exact H2|]. split; [exact H3|].
  exact (proj1 (draw_rounded_rect_stays_inside 20 104 600 140 6
                  (rgb 15 25 90) fb_initial 103 20 H1 H2 H3)).
Defined.

Lemma knocked_mirror (out : Z -> Z -> Z -> bool) (x0 y0 w h rad y x : Z) :
  in_fb y x = true -> in_fb y (2 * x0 + w - 1 - x) = true ->
  knocked out x0 y0 w h rad y (2 * x0 + w - 1 - x)
  = knocked out x0 y0 w h rad y x.
Proof.
  intros Hin Hin'. apply Bool.eq_iff_eq_true. unfold knocked.
  rewrite !exists_range_true.
  split; intros [dy [Hdy K]]; exists dy; (split; [exact Hdy|]);
    apply exists_range_true in K; destruct K as [dx [Hdx K]];
    apply exists_range_true; exists dx; (split; [exact Hdx|]);
    apply andb_true_iff in K; destruct K as [Ko K];
    apply andb_true_iff; (split; [exact Ko|]);
    apply corner_hit_iff in K; destruct K as [_ [Hx Hy]];
    apply corner_hit_iff; (split; [assumption|]); (split; [lia|exact Hy]).
Qed.

(** X7.  A rounded rectangle that lies on the canvas is left-right
    symmetric in either build: a pixel of the rectangle and its mirror
    image about the vertical centre line get the same colour. *)
Theorem draw_rounded_rect_mirror (x0 y0 w h rad : Z) (fill : rgb_t)
  (s : fb_state) (y x : Z) :
  rect_on_canvas x0 y0 w h ->
  x0 <= x < x0 + w -> y0 <= y < y0 + h ->
  fb (Fb.draw_rounded_rect x0 y0 w h rad fill s) y (2 * x0 + w - 1 - x)
  = fb (Fb.draw_rounded_rect x0 y0 w h rad fill s) y x /\
  fb (Weatherstar.draw_rounded_rect x0 y0 w h rad fill s) y
     (2 * x0 + w - 1 - x)
  = fb (Weatherstar.draw_rounded_rect x0 y0 w h rad fill s) y x.
Proof.
  intros (Hx0 & Hy0 & Hw & Hh & Hxw & Hyh) Hx Hy.
  assert (Hin : in_fb y x = true) by (apply in_fb_iff; lia).
  assert (Hin' : in_fb y (2 * x0 + w - 1 - x) = true)
    by (apply in_fb_iff; lia).
  assert (Hr : in_rect x0 y0 w h y x = true).
  { unfold in_rect. rewrite Hin, !andb_true_iff, !Z.leb_le, !Z.ltb_lt. lia. }
  assert (Hr' : in_rect x0 y0 w h y (2 * x0 + w - 1 - x) = true).
  { unfold in_rect. rewrite Hin', !andb_true_iff, !Z.leb_le, !Z.ltb_lt.
    lia. }
  rewrite !fb_draw_rounded_rect_pixel, !ws_draw_rounded_rect_pixel.
  rewrite !knocked_mirror by assumption. rewrite Hr, Hr'. split; reflexivity.
Qed.

Lemma draw_rounded_rect_mirror_witness :
  rect_on_canvas 20 104 600 140 /\
  20 <= 21 < 20 + 600 /\ 104 <= 104 < 104 + 140 /\
  fb (Fb.draw_rounded_rect 20 104 600 140 6 (rgb 15 25 90) fb_initial) 104
     (2 * 20 + 600 - 1 - 21)
  = fb (Fb.draw_rounded_rect 20 104 600 140 6 (rgb 15 25 90) fb_initial)
       104 21.
Proof.
  assert (H1 : rect_on_canvas 20 104 600 140)
    by (unfold rect_on_canvas, FB_W, FB_H; lia).
  assert (H2 : 20 <= 21 < 20 + 600) by lia.
  assert (H3 : 104 <= 104 < 104 + 140) by lia.
  split; [exact H1|]. split; [exact H2|]. split; [exact H3|].
  exact (proj1 (draw_rounded_rect_mirror 20 104 600 140 6 (rgb 15 25 90)
                  fb_initial 104 21 H1 H2 H3)).
Defined.

(** ** Text *)

Lemma paints_unless (c : bool) (prog : fb_state -> fb_state)
  (hit : Z -> Z -> bool) (v : Z -> Z -> rgb_t) :
  (c = false -> paints prog hit v) ->
  paints (fun s => if c then s else prog s)
         (fun y x => negb c && hit y x) v.
Proof.
  intros H s y x. destruct c; cbn [negb andb]; [reflexivity|].
  now apply H.
Qed.

(** One block of a glyph: the [scale] x [scale] square of bit
    ([col], [row]). *)
Lemma paints_blit_block (px py col row scale : Z) (fg : rgb_t) :
  paints (Font.blit_block px py col row scale fg)
         (fun y x => in_fb y x &&
                     (px + col * scale <=? x) &&
                     (x <? px + col * scale + scale) &&
                     (py + row * scale <=? y) &&
                     (y <? py + row * scale + scale))
         (fun _ _ => fg).
Proof.
  unfold Font.blit_block. eapply paints_ext; cycle 1.
  - apply paints_for_range. intros sy _.
    apply (paints_for_range 0 scale
             (fun sx s =>
                if in_fb (py + row * scale + sy) (px + col * scale + sx)
                then fb_set (py + row * scale + sy) (px + col * scale + sx)
                            fg s
                else s)
             (fun sx y x =>
                in_fb (py + row * scale + sy) (px + col * scale + sx) &&
                (y =? py + row * scale + sy) &&
                (x =? px + col * scale + sx))).
    intros sx _.
    apply (paints_put (py + row * scale + sy) (px + col * scale + sx) fg).
    reflexivity.
  - intros y x. cbv beta. apply eq_iff_eq_true.
    rewrite exists_range_true. split.
    + intros [sy [Hsy H]]. apply exists_range_true in H.
      destruct H as [sx [Hsx H]].
      rewrite !andb_true_iff in H. destruct H as [[Hin Ey] Ex].
      apply Z.eqb_eq in Ey, Ex. subst y x. rewrite Hin. cbn [andb].
      rewrite !andb_true_iff, !Z.leb_le, !Z.ltb_lt. lia.
    + destruct (in_fb y x) eqn:Hin; [|discriminate]. cbn [andb].
      rewrite !andb_true_iff, !Z.leb_le, !Z.ltb_lt.
      intros [[[H1 H2] H3] H4].
      exists (y - (py + row * scale)). split; [lia|].
      apply exists_range_true.
      exists (x - (px + col * scale)). split; [lia|].
      replace (py + row * scale + (y - (py + row * scale))) with y by lia.
      replace (px + col * scale + (x - (px + col * scale))) with x by lia.
      rewrite Hin, !Z.eqb_refl. reflexivity.
Qed.

(** Position within a grid of [n] blocks of side [scale]. *)
Lemma block_index (scale n k d : Z) :
  0 <= k < n -> k * scale <= d < k * scale + scale ->
  d / scale = k /\ 0 <= d < n * scale.
Proof.
  intros Hk Hd.
  assert (Hs : 0 < scale) by lia.
  split.
  - symmetry. apply (Z.div_unique d scale k (d - k * scale)); lia.
  - assert (k * scale + scale <= n * scale).
    { replace (k * scale + scale) with ((k + 1) * scale) by lia.
      apply Z.mul_le_mono_nonneg_r; lia. }
    assert (0 <= k * scale) by (apply Z.mul_nonneg_nonneg; lia).
    lia.
Qed.

Lemma index_block (scale n d : Z) :
  0 <= d < n * scale -> 0 <= n ->
  0 <= d / scale < n /\
  (d / scale) * scale <= d < (d / scale) * scale + scale.
Proof.
  intros Hd Hn.
  assert (Hs : 0 < scale).
  { destruct (Z.lt_ge_cases 0 scale) as [|Hle]; [assumption|exfalso].
    assert (n * scale <= 0) by (apply Z.mul_nonneg_nonpos; lia). lia. }
  pose proof (Z.div_mod d scale ltac:(lia)) as E.
  pose proof (Z.mod_pos_bound d scale Hs) as M.
  split.
  - split; [apply Z.div_pos; lia|].
    apply Z.div_lt_upper_bound; lia.
  - lia.
Qed.

(** The glyph loops of [fb_char] and [fb_degree]: [rows] x [cols] blocks,
    those with [blank row col] skipped. *)
Lemma paints_glyph (rows cols : Z) (blank : Z -> Z -> bool)
  (px py scale : Z) (fg : rgb_t) :
  0 <= rows -> 0 <= cols ->
  paints
    (for_range 0 rows (fun row =>
       for_range 0 cols (fun col s =>
         if blank row col then s
         else Font.blit_block px py col row scale fg s)))
    (fun y x => in_fb y x && (px <=? x) && (x <? px + cols * scale) &&
                (py <=? y) && (y <? py + rows * scale) &&
                negb (blank ((y - py) / scale) ((x - px) / scale)))
    (fun _ _ => fg).
Proof.
  intros Hrows Hcols. eapply paints_ext; cycle 1.
  - apply paints_for_range. intros row _.
    apply (paints_for_range 0 cols
             (fun col s => if blank row col then s
                           else Font.blit_block px py col row scale fg s)
             (fun col y x =>
                negb (blank row col) &&
                (in_fb y x &&
                 (px + col * scale <=? x) &&
                 (x <? px + col * scale + scale) &&
                 (py + row * scale <=? y) &&
                 (y <? py + row * scale + scale)))).
    intros col _.
    apply (paints_unless (blank row col)
             (Font.blit_block px py col row scale fg)).
    intros _. apply paints_blit_block.
  - intros y x. cbv beta. apply eq_iff_eq_true.
    rewrite exists_range_true. split.
    + intros [row [Hrow H]]. apply exists_range_true in H.
      destruct H as [col [Hcol H]].
      rewrite !andb_true_iff, !Z.leb_le, !Z.ltb_lt in H.
      destruct H as [Hb [[[[Hin H1] H2] H3] H4]].
      destruct (block_index scale cols col (x - px)) as [Ec Bc];
        [lia | lia |].
      destruct (block_index scale rows row (y - py)) as [Er Br];
        [lia | lia |].
      rewrite Ec, Er, Hb, Hin. cbn [andb].
      rewrite !andb_true_iff, !Z.leb_le, !Z.ltb_lt. lia.
    + destruct (in_fb y x) eqn:Hin; [|discriminate]. cbn [andb].
      rewrite !andb_true_iff, !Z.leb_le, !Z.ltb_lt.
      intros [[[[H1 H2] H3] H4] Hb].
      destruct (index_block scale cols (x - px)) as [Bc Cc]; [lia | lia |].
      destruct (index_block scale rows (y - py)) as [Br Cr]; [lia | lia |].
      exists ((y - py) / scale). split; [lia|].
      apply exists_range_true.
      exists ((x - px) / scale). split; [lia|].
      rewrite Hb. cbn [andb].
      rewrite !andb_true_iff, !Z.leb_le, !Z.ltb_lt. lia.
Qed.

Lemma paints_fb_char (px py ch : Z) (fg : rgb_t) (scale : Z) :
  paints (Font.fb_char px py ch fg scale) (char_hit px py ch scale)
         (fun _ _ => fg).
Proof.
  unfold Font.fb_char. cbv zeta. fold (char_index ch).
  eapply paints_ext; cycle 1.
  - apply (paints_glyph 7 5
             (fun row col =>
                Z.land (Font.glyph_row (char_index ch) row)
                       (Z.shiftr 16 col) =? 0)); lia.
  - intros y x. reflexivity.
Qed.

(** X8.  [fb_char] draws the glyph enlarged by [scale]: it stores inside
    the array only, and a pixel becomes [fg] exactly when it is on the
    canvas, inside the cell of 5*scale by 7*scale pixels at (px, py), and
    bit ((x - px) / scale) of glyph row ((y - py) / scale) is set; every
    other pixel is left as it was. *)
Theorem fb_char_pixels (px py ch : Z) (fg : rgb_t) (scale : Z)
  (s : fb_state) :
  oob (Font.fb_char px py ch fg scale s) = oob s /\
  forall y x,
    fb (Font.fb_char px py ch fg scale s) y x
    = if in_fb y x && (px <=? x) && (x <? px + 5 * scale) &&
         (py <=? y) && (y <? py + 7 * scale) &&
         glyph_bit (char_index ch) ((y - py) / scale) ((x - px) / scale)
      then fg else fb s y x.
Proof.
  split.
  - apply (draws_oob _ _ s (draws_fb_char px py ch fg scale)).
  - intros y x. apply (paints_fb_char px py ch fg scale).
Qed.

Lemma glyph_row_space (row : Z) : Font.glyph_row 0 row = 0.
Proof.
  unfold Font.glyph_row.
  change (nth (Z.to_nat 0) Font.font5x7 []) with [0; 0; 0; 0; 0; 0; 0].
  destruct (Z.to_nat row) as [|[|[|[|[|[|[|[|n]]]]]]]]; reflexivity.
Qed.

(** X9.  A character code outside 33..126 (a control character, the
    space, DEL, a byte of 128 and above) draws nothing, and so does every
    character at a scale of zero or less. *)
Theorem fb_char_blank (px py ch : Z) (fg : rgb_t) (scale : Z)
  (s : fb_state) :
  ch <= 32 \/ 126 < ch \/ scale <= 0 ->
  Font.fb_char px py ch fg scale s = s.
Proof.
  intros H. unfold Font.fb_char. cbv zeta.
  apply for_range_id. intros row t _.
  apply for_range_id. intros col u _.
  destruct H as [H|[H|H]].
  - replace (if (ch - 32 <? 0) || (94 <? ch - 32) then 0 else ch - 32)
      with 0.
    + now rewrite glyph_row_space.
    + destruct (ch - 32 <? 0) eqn:E; [reflexivity|].
      apply Z.ltb_ge in E.
      destruct (94 <? ch - 32); [reflexivity|]. cbn [orb]. lia.
  - replace (if (ch - 32 <? 0) || (94 <? ch - 32) then 0 else ch - 32)
      with 0.
    + now rewrite glyph_row_space.
    + replace (94 <? ch - 32) with true by (symmetry; apply Z.ltb_lt; lia).
      now rewrite orb_true_r.
  - destruct (Z.land _ _ =? 0); [reflexivity|].
    unfold Font.blit_block. apply for_range_empty. lia.
Qed.

Lemma fb_char_blank_witness :
  (32 <= 32 \/ 126 < 32 \/ 2 <= 0) /\
  Font.fb_char 10 10 32 COL_WHITE 2 fb_initial = fb_initial.
Proof.
  assert (H : 32 <= 32 \/ 126 < 32 \/ 2 <= 0) by (left; lia).
  split; [exact H|].
  exact (fb_char_blank 10 10 32 COL_WHITE 2 fb_initial H).
Defined.

(** X10.  Drawing a concatenation is drawing its first part and then its
    second part where the first part ended; the empty string draws
    nothing. *)
Theorem fb_string_append (px py : Z) (s1 s2 : string) (fg : rgb_t)
  (scale : Z) (s : fb_state) :
  Font.fb_string px py EmptyString fg scale s = s /\
  Font.fb_string px py (s1 ++ s2) fg scale s
  = Font.fb_string (px + Font.fb_string_width s1 scale) py s2 fg scale
      (Font.fb_string px py s1 fg scale s).
Proof.
  split; [reflexivity|].
  unfold Font.fb_string, Font.fb_string_width. revert px s.
  induction s1 as [|c rest IH]; intros px s.
  - cbn [append Font.fb_string_loop String.length snd].
    replace (px + Z.of_nat 0 * 6 * scale) with px by lia. reflexivity.
  - cbn [append Font.fb_string_loop String.length]. rewrite IH.
    replace (px + 6 * scale + Z.of_nat (String.length rest) * 6 * scale)
      with (px + Z.of_nat (S (String.length rest)) * 6 * scale) by lia.
    reflexivity.
Qed.

Lemma rgb_eq_dec (c d : rgb_t) : {c = d} + {c <> d}.
Proof.
  destruct (rgb_eqb c d) eqn:E.
  - left. now apply rgb_eqb_eq.
  - right. intros H. apply rgb_eqb_eq in H. congruence.
Qed.

(** A pixel [fb_string] changes lies on the canvas, in the box of the
    text, and gets [fg]. *)
Lemma fb_string_changed_pixel (px py : Z) (str : string) (fg : rgb_t)
  (scale : Z) (s : fb_state) (y x : Z) :
  fb (Font.fb_string px py str fg scale s) y x <> fb s y x ->
  fb (Font.fb_string px py str fg scale s) y x = fg /\
  in_fb y x = true /\
  px <= x < px + Font.fb_string_width str scale - scale /\
  py <= y < py + 7 * scale.
Proof.
  unfold Font.fb_string, Font.fb_string_width. revert px s.
  induction str as [|c rest IH]; intros px s H.
  - exfalso. apply H. reflexivity.
  - cbn [Font.fb_string_loop String.length] in *.
    set (s1 := Font.fb_char px py (Font.code c) fg scale s) in *.
    set (n := Z.of_nat (String.length rest)).
    assert (Hn : 0 <= n) by (unfold n; lia).
    replace (Z.of_nat (S (String.length rest))) with (n + 1)
      by (unfold n; lia).
    destruct (rgb_eq_dec
                (fb (snd (Font.fb_string_loop (px + 6 * scale) py rest fg
                            scale s1)) y x)
                (fb s1 y x)) as [E|N].
    + rewrite E in *. unfold s1 in *.
      rewrite (paints_fb_char px py (Font.code c) fg scale) in *.
      destruct (char_hit px py (Font.code c) scale y x) eqn:Hit;
        [|exfalso; apply H; reflexivity].
      unfold char_hit in Hit.
      rewrite !andb_true_iff, !Z.leb_le, !Z.ltb_lt in Hit.
      destruct Hit as [[[[[Hin H1] H2] H3] H4] _].
      split; [reflexivity|]. split; [exact Hin|].
      assert (0 < scale) by lia.
      assert (0 <= n * scale) by (apply Z.mul_nonneg_nonneg; lia).
      lia.
    + destruct (IH (px + 6 * scale) s1 N) as (Hfg & Hin & Hx & Hy).
      fold n in Hx.
      split; [exact Hfg|]. split; [exact Hin|]. lia.
Qed.

Lemma fb_string_outside_rows (px py : Z) (str : string) (fg : rgb_t)
  (scale : Z) (s : fb_state) (y x : Z) :
  y < py \/ py + 7 * scale <= y ->
  fb (Font.fb_string px py str fg scale s) y x = fb s y x.
Proof.
  intros H.
  destruct (rgb_eq_dec (fb (Font.fb_string px py str fg scale s) y x)
                       (fb s y x)) as [E|N]; [exact E|exfalso].
  apply fb_string_changed_pixel in N. lia.
Qed.

(** X11.  [fb_string] stays inside the bounding box of its text: a pixel it
    changes is on the canvas, gets [fg], and lies in rows
    [py, py + 7*scale) and columns [px, px + width - scale), where
    [width] is [fb_string_width] (the last character has no gap after
    it). *)
Theorem fb_string_bounding_box (px py : Z) (str : string) (fg : rgb_t)
  (scale : Z) (s : fb_state) (y x : Z) :
  fb (Font.fb_string px py str fg scale s) y x <> fb s y x ->
  fb (Font.fb_string px py str fg scale s) y x = fg /\
  in_fb y x = true /\
  px <= x < px + Font.fb_string_width str scale - scale /\
  py <= y < py + 7 * scale.
Proof. apply fb_string_changed_pixel. Qed.

Lemma fb_string_bounding_box_witness :
  fb (Font.fb_string 0 0 "A" COL_WHITE 1 fb_initial) 0 1
  <> fb fb_initial 0 1 /\
  fb (Font.fb_string 0 0 "A" COL_WHITE 1 fb_initial) 0 1 = COL_WHITE.
Proof.
  assert (H : fb (Font.fb_string 0 0 "A" COL_WHITE 1 fb_initial) 0 1
              <> fb fb_initial 0 1)
    by (vm_compute; discriminate).
  split; [exact H|].
  exact (proj1 (fb_string_bounding_box 0 0 "A" COL_WHITE 1 fb_initial 0 1 H)).
Defined.

(** X12.  [fb_string_centered] centres to within one pixel: it is
    [fb_string] at a column [x0] for which the space left of the text and
    the space right of it differ by at most one, also when the text is
    wider than the canvas and both are negative. *)
Theorem fb_string_centered_margins (y : Z) (str : string) (fg : rgb_t)
  (scale : Z) (s : fb_state) :
  exists x0,
    Font.fb_string_centered y str fg scale s
    = Font.fb_string x0 y str fg scale s /\
    -1 <= (FB_W - (x0 + Font.fb_string_width str scale)) - x0 <= 1.
Proof.
  exists (Z.quot (FB_W - Font.fb_string_width str scale) 2).
  split; [reflexivity|].
  set (a := FB_W - Font.fb_string_width str scale).
  replace (FB_W - (Z.quot a 2 + Font.fb_string_width str scale))
    with (a - Z.quot a 2) by (unfold a; lia).
  pose proof (Z.quot_rem' a 2) as E.
  pose proof (Z.rem_bound_abs a 2 ltac:(lia)) as B.
  lia.
Qed.

(** X13.  [fb_degree] draws a ring: of the 3 x 3 blocks of side [scale] at
    (px, py) the four edge blocks become [fg]; the centre, the corners and
    every other pixel are left as they were. *)
Theorem fb_degree_pixels (px py : Z) (fg : rgb_t) (scale : Z)
  (s : fb_state) :
  oob (Font.fb_degree px py fg scale s) = oob s /\
  forall y x,
    fb (Font.fb_degree px py fg scale s) y x
    = if in_fb y x && (px <=? x) && (x <? px + 3 * scale) &&
         (py <=? y) && (y <? py + 3 * scale) &&
         Z.odd ((y - py) / scale + (x - px) / scale)
      then fg else fb s y x.
Proof.
  split.
  - apply (draws_oob _ _ s (draws_fb_degree px py fg scale)).
  - intros y x. unfold Font.fb_degree.
    rewrite (paints_glyph 3 3
               (fun row col =>
                  Z.land (nth (Z.to_nat row) Font.deg 0) (Z.shiftr 4 col)
                  =? 0) px py scale fg ltac:(lia) ltac:(lia)).
    destruct (in_fb y x) eqn:Hin; [|reflexivity]. cbn [andb].
    destruct ((px <=? x) && (x <? px + 3 * scale) && (py <=? y) &&
              (y <? py + 3 * scale)) eqn:Box; [|reflexivity].
    cbn [andb].
    rewrite !andb_true_iff, !Z.leb_le, !Z.ltb_lt in Box.
    destruct (index_block scale 3 (x - px)) as [Bc _]; [lia | lia |].
    destruct (index_block scale 3 (y - py)) as [Br _]; [lia | lia |].
    set (c := (x - px) / scale) in *. set (w := (y - py) / scale) in *.
    assert (Hc : c = 0 \/ c = 1 \/ c = 2) by lia.
    assert (Hw : w = 0 \/ w = 1 \/ w = 2) by lia.
    clearbody c w.
    destruct Hc as [-> | [-> | ->]]; destruct Hw as [-> | [-> | ->]];
      reflexivity.
Qed.

(** ** Icons *)

Lemma square_bound (d rad : Z) :
  0 <= rad -> d * d <= rad * rad -> - rad <= d <= rad.
Proof.
  intros Hr H.
  destruct (Z.lt_ge_cases rad d) as [L|G1].
  - exfalso. assert (rad * rad < d * d) by (apply Z.mul_lt_mono_nonneg; lia).
    lia.
  - destruct (Z.lt_ge_cases d (- rad)) as [L|G2]; [exfalso|lia].
    assert (rad * rad < (- d) * (- d))
      by (apply Z.mul_lt_mono_nonneg; lia).
    lia.
Qed.

(** A filled disc: the pixels of the canvas within [rad] of the centre. *)
Lemma paints_disc (cx cy rad : Z) (col : rgb_t) :
  0 <= rad ->
  paints (Icons.disc cx cy rad col) (in_disc cx cy rad) (fun _ _ => col).
Proof.
  intros Hr. unfold Icons.disc. eapply paints_ext; cycle 1.
  - apply paints_for_range. intros dy _.
    apply (paints_for_range (- rad) (rad + 1)
             (fun dx s =>
                if dx * dx + dy * dy <=? rad * rad
                then (if in_fb (cy + dy) (cx + dx)
                      then fb_set (cy + dy) (cx + dx) col s else s)
                else s)
             (fun dx y x =>
                (dx * dx + dy * dy <=? rad * rad) &&
                (in_fb (cy + dy) (cx + dx) && (y =? cy + dy) &&
                 (x =? cx + dx)))).
    intros dx _.
    apply (paints_if (dx * dx + dy * dy <=? rad * rad)
             (put (cy + dy) (cx + dx) col)).
    intros _. apply (paints_put (cy + dy) (cx + dx) col). reflexivity.
  - intros y x. cbv beta. unfold in_disc. apply eq_iff_eq_true.
    rewrite exists_range_true. split.
    + intros [dy [Hdy H]]. apply exists_range_true in H.
      destruct H as [dx [Hdx H]].
      rewrite !andb_true_iff in H. destruct H as [Hd [[Hin Ey] Ex]].
      apply Z.eqb_eq in Ey, Ex. subst y x. rewrite Hin. cbn [andb].
      replace (cx + dx - cx) with dx by lia.
      replace (cy + dy - cy) with dy by lia. exact Hd.
    + rewrite andb_true_iff. intros [Hin Hd].
      pose proof Hd as Hd'. apply Z.leb_le in Hd'.
      assert (Hx : - rad <= x - cx <= rad).
      { apply square_bound; [assumption|].
        pose proof (Z.square_nonneg (y - cy)). lia. }
      assert (Hy : - rad <= y - cy <= rad).
      { apply square_bound; [assumption|].
        pose proof (Z.square_nonneg (x - cx)). lia. }
      exists (y - cy). split; [lia|]. apply exists_range_true.
      exists (x - cx). split; [lia|].
      replace (cy + (y - cy)) with y by lia.
      replace (cx + (x - cx)) with x by lia.
      rewrite Hd, Hin, !Z.eqb_refl. reflexivity.
Qed.

(** X14.  [draw_cloud] fills three discs and nothing else: a pixel becomes
    [col] exactly when it is on the canvas and within 12 of (cx, cy),
    within 10 of (cx - 10, cy + 4) or within 10 of (cx + 10, cy + 4); no
    store goes outside the array. *)
Theorem draw_cloud_pixels (cx cy : Z) (col : rgb_t) (s : fb_state) :
  oob (Icons.draw_cloud cx cy col s) = oob s /\
  forall y x,
    fb (Icons.draw_cloud cx cy col s) y x
    = if in_disc cx cy 12 y x || in_disc (cx - 10) (cy + 4) 10 y x
         || in_disc (cx + 10) (cy + 4) 10 y x
      then col else fb s y x.
Proof.
  split.
  - apply (draws_oob _ _ s (draws_draw_cloud cx cy col)).
  - intros y x. unfold Icons.draw_cloud, Icons.offsets. cbn [fold_left].
    rewrite (paints_disc (cx + 10) (cy + 4) 10 col ltac:(lia)).
    rewrite (paints_disc (cx + -10) (cy + 4) 10 col ltac:(lia)).
    rewrite (paints_disc (cx + 0) (cy + 0) 12 col ltac:(lia)).
    replace (cx + 0) with cx by lia. replace (cy + 0) with cy by lia.
    replace (cx + -10) with (cx - 10) by lia.
    destruct (in_disc cx cy 12 y x), (in_disc (cx - 10) (cy + 4) 10 y x),
      (in_disc (cx + 10) (cy + 4) 10 y x); reflexivity.
Qed.

Lemma for_n_ext {St : Type} (n : nat) (lo : Z) (f g : Z -> St -> St)
  (s : St) :
  (forall i t, lo <= i < lo + Z.of_nat n -> f i t = g i t) ->
  for_n n lo f s = for_n n lo g s.
Proof.
  revert lo s. induction n as [|n IH]; intros lo s H; [reflexivity|].
  cbn [for_n]. rewrite H by lia. apply IH. intros i t Hi. apply H. lia.
Qed.

Lemma for_range_ext {St : Type} (lo hi : Z) (f g : Z -> St -> St) (s : St) :
  (forall i t, lo <= i < hi -> f i t = g i t) ->
  for_range lo hi f s = for_range lo hi g s.
Proof.
  intros H. unfold for_range. apply for_n_ext. intros i t Hi. apply H. lia.
Qed.

(** X15.  Where the rays of the sun stay on the canvas the two builds of
    [draw_sun] are the same function, and neither stores outside the
    array: this is so when the ray offsets have magnitude at most the ray
    step, the centre is at least [rad + 9] rows from the top and the bottom
    edge, and at least [rad + 8] columns from the left edge. *)
Theorem draw_sun_builds_agree (cosf sinf : F32.float -> F32.float)
  (cx cy rad : Z) (s : fb_state) :
  ray_bound cosf (rad + 3) (rad + 10) ->
  ray_bound sinf (rad + 3) (rad + 10) ->
  rad + 9 <= cy -> cy + rad + 9 < FB_H -> rad + 8 <= cx ->
  Weatherstar.draw_sun cosf sinf cx cy rad s
  = Icons.draw_sun cosf sinf cx cy rad s /\
  oob (Weatherstar.draw_sun cosf sinf cx cy rad s) = oob s.
Proof.
  intros Hc Hs H1 H2 H3.
  assert (E : Weatherstar.draw_sun cosf sinf cx cy rad s
              = Icons.draw_sun cosf sinf cx cy rad s).
  { unfold Weatherstar.draw_sun, Icons.draw_sun. cbv zeta.
    apply for_range_ext. intros i t Hi.
    apply for_range_ext. intros d u Hd.
    specialize (Hc i d Hi Hd). specialize (Hs i d Hi Hd).
    replace (in_fb (cy + Icons.ray_offset sinf i d)
                   (cx + Icons.ray_offset cosf i d + 1))
      with (cx + Icons.ray_offset cosf i d + 1 <? FB_W); [reflexivity|].
    unfold in_fb.
    replace (0 <=? cx + Icons.ray_offset cosf i d + 1) with true
      by (symmetry; apply Z.leb_le; lia).
    replace (0 <=? cy + Icons.ray_offset sinf i d) with true
      by (symmetry; apply Z.leb_le; lia).
    replace (cy + Icons.ray_offset sinf i d <? FB_H) with true
      by (symmetry; apply Z.ltb_lt; lia).
    now rewrite !andb_true_r. }
  split; [exact E|]. rewrite E.
  apply (draws_oob (fun _ _ => True)).
  apply draws_icons_draw_sun; auto.
Qed.

Lemma draw_sun_builds_agree_witness :
  ray_bound cosf_at_0 (18 + 3) (18 + 10) /\
  ray_bound sinf_at_0 (18 + 3) (18 + 10) /\
  18 + 9 <= 159 /\ 159 + 18 + 9 < FB_H /\ 18 + 8 <= 90 /\
  Weatherstar.draw_sun cosf_at_0 sinf_at_0 90 159 18 fb_initial
  = Icons.draw_sun cosf_at_0 sinf_at_0 90 159 18 fb_initial.
Proof.
  assert (Hc : ray_bound cosf_at_0 (18 + 3) (18 + 10))
    by (apply ray_bound_check_sound; vm_compute; reflexivity).
  assert (Hs : ray_bound sinf_at_0 (18 + 3) (18 + 10))
    by (apply ray_bound_check_sound; vm_compute; reflexivity).
  assert (H1 : 18 + 9 <= 159) by lia.
  assert (H2 : 159 + 18 + 9 < FB_H) by (unfold FB_H; lia).
  assert (H3 : 18 + 8 <= 90) by lia.
  split; [exact Hc|]. split; [exact Hs|]. split; [exact H1|].
  split; [exact H2|]. split; [exact H3|].
  exact (proj1 (draw_sun_builds_agree cosf_at_0 sinf_at_0 90 159 18
                  fb_initial Hc Hs H1 H2 H3)).
Defined.

(** ** Terminal text *)

Lemma length_cat_all_bounds (l : list string) (lo hi : nat) :
  (forall a, In a l -> (lo <= String.length a <= hi)%nat) ->
  (lo * List.length l <= String.length (cat_all l) <= hi * List.length l)%nat.
Proof.
  induction l as [|a l IH]; intros H; cbn [cat_all fold_right List.length].
  - simpl. lia.
  - fold (cat_all l). rewrite length_append_str.
    pose proof (H a (or_introl eq_refl)) as Ha.
    assert (IH' := IH (fun c Hc => H c (or_intror Hc))). lia.
Qed.

Lemma dec_byte_digits (x : byte) :
  all_digits (dec (int_of x)) = true /\
  (1 <= String.length (dec (int_of x)))%nat /\
  digits_value 0 (dec (int_of x)) = int_of x.
Proof.
  assert (H : forallb (fun x =>
                all_digits (dec (int_of x)) &&
                Nat.leb 1 (String.length (dec (int_of x))) &&
                (digits_value 0 (dec (int_of x)) =? int_of x))
                all_bytes = true)
    by (vm_compute; reflexivity).
  pose proof (forall_bytes _ H x) as Hx. cbv beta in Hx.
  rewrite !andb_true_iff in Hx. destruct Hx as [[H1 H2] H3].
  apply Nat.leb_le in H2. apply Z.eqb_eq in H3. now split.
Qed.

Lemma cell_length (top bot : rgb_t) :
  (29 <= String.length (cell top bot) <= 41)%nat.
Proof.
  split; [|apply cell_facts].
  unfold cell.
  destruct (dec_byte_digits (r top)) as (_ & A & _).
  destruct (dec_byte_digits (g top)) as (_ & B & _).
  destruct (dec_byte_digits (b top)) as (_ & C & _).
  destruct (dec_byte_digits (r bot)) as (_ & D & _).
  destruct (dec_byte_digits (g bot)) as (_ & E & _).
  destruct (dec_byte_digits (b bot)) as (_ & F & _).
  rewrite !length_append_str. simpl String.length. lia.
Qed.

(** X16.  The line buffer of [ansi_output] (screenshot.h) is never too
    small: for every canvas and row, after the 640 cells and the final
    reset and newline the buffer holds the whole text of the line, [pos]
    is its length, between 18565 and 26245 bytes, and below the size of
    the buffer, so that no [snprintf] truncates. *)
Theorem ansi_output_line_fits (s : fb_state) (y : Z) :
  let bot := fun x => if y + 1 <? FB_H then fb s (y + 1) x else fb s y x in
  let lp :=
    Screenshot.line_printf (sgr_reset ++ String NL EmptyString)
      (for_range 0 FB_W (fun x lp =>
         Screenshot.line_printf (cell (fb s y x) (bot x)) lp)
         (EmptyString, 0)) in
  fst lp
  = (cat_all (map (fun x => cell (fb s y x) (bot x)) (zrange 0 FB_W))
     ++ sgr_reset ++ String NL EmptyString)%string /\
  snd lp = Z.of_nat (String.length (fst lp)) /\
  18565 <= snd lp <= 26245 /\
  snd lp < Screenshot.LINE_SIZE.
Proof.
  intros bot lp. subst lp.
  change (EmptyString, 0)
    with (EmptyString, Z.of_nat (String.length EmptyString)).
  rewrite (line_loop_fits (fun x => cell (fb s y x) (bot x)) 41 0 FB_W);
    [ | lia
      | intros x; pose proof (cell_length (fb s y x) (bot x)); lia
      | unfold Screenshot.LINE_SIZE, FB_W; simpl String.length; lia ].
  cbn [append].
  set (cells := cat_all (map (fun x => cell (fb s y x) (bot x))
                             (zrange 0 FB_W))).
  assert (Hlen : (29 * 640 <= String.length cells <= 41 * 640)%nat).
  { unfold cells.
    replace 640%nat with
      (List.length (map (fun x => cell (fb s y x) (bot x)) (zrange 0 FB_W)))
      by (rewrite length_map, zrange_length; reflexivity).
    apply length_cat_all_bounds. intros a Ha.
    apply in_map_iff in Ha. destruct Ha as [x [<- _]].
    apply cell_length. }
  assert (H5 : String.length (sgr_reset ++ String NL EmptyString) = 5%nat)
    by reflexivity.
  rewrite line_printf_fits by (unfold Screenshot.LINE_SIZE; lia).
  cbn [fst snd]. rewrite length_append_str, H5.
  unfold Screenshot.LINE_SIZE.
  split; [reflexivity|]. split; [reflexivity|]. lia.
Qed.

Lemma read_digits_app (ds : string) (stop : ascii) (rest : string) :
  all_digits ds = true -> is_digit stop = false ->
  read_digits (ds ++ String stop rest) = (ds, String stop rest).
Proof.
  intros Hd Hs. induction ds as [|c ds IH]; cbn [append read_digits].
  - now rewrite Hs.
  - cbn [all_digits] in Hd. apply andb_true_iff in Hd.
    destruct Hd as [Hc Hd]. rewrite Hc, (IH Hd). reflexivity.
Qed.

Lemma strip_prefix_app (pre rest : string) :
  strip_prefix pre (pre ++ rest) = Some rest.
Proof.
  induction pre as [|a pre IH]; cbn [append strip_prefix]; [reflexivity|].
  now rewrite Ascii.eqb_refl.
Qed.

Lemma read_channel_dec (x : byte) (stop : ascii) (rest : string) :
  is_digit stop = false ->
  read_channel stop (dec (int_of x) ++ String stop rest) = Some (x, rest).
Proof.
  intros Hs. destruct (dec_byte_digits x) as (Hd & Hl & Hv).
  unfold read_channel. rewrite (read_digits_app _ _ _ Hd Hs).
  destruct (dec (int_of x)) as [|c ds] eqn:E; [simpl in Hl; lia|].
  rewrite Ascii.eqb_refl, Hv.
  pose proof (int_of_range x) as R.
  replace (int_of x <=? 255) with true by (symmetry; apply Z.leb_le; lia).
  cbn [andb]. now rewrite u8_int_of.
Qed.

Lemma read_rgb_text (c : rgb_t) (rest : string) :
  read_rgb (dec (int_of (r c)) ++ ";" ++ dec (int_of (g c)) ++ ";" ++
            dec (int_of (b c)) ++ "m" ++ rest)
  = Some (c, rest).
Proof.
  unfold read_rgb.
  change (";" ++ dec (int_of (g c)) ++ ";" ++ dec (int_of (b c)) ++ "m"
          ++ rest)%string
    with (String ";" (dec (int_of (g c)) ++ ";" ++ dec (int_of (b c))
                      ++ "m" ++ rest)).
  rewrite read_channel_dec by reflexivity.
  change (";" ++ dec (int_of (b c)) ++ "m" ++ rest)%string
    with (String ";" (dec (int_of (b c)) ++ "m" ++ rest)).
  rewrite read_channel_dec by reflexivity.
  change ("m" ++ rest)%string with (String "m" rest).
  rewrite read_channel_dec by reflexivity.
  now rewrite rgb_eta.
Qed.

Lemma read_cell_cell (top bot : rgb_t) (rest : string) :
  read_cell (cell top bot ++ rest) = Some (top, bot, rest).
Proof.
  unfold cell, read_cell. rewrite !append_assoc_str.
  rewrite strip_prefix_app, read_rgb_text.
  rewrite strip_prefix_app, read_rgb_text.
  now rewrite strip_prefix_app.
Qed.

Lemma read_cells_cat (l : list (rgb_t * rgb_t)) (rest : string) :
  read_cells (List.length l)
    (cat_all (map (fun p => cell (fst p) (snd p)) l) ++ rest)
  = Some (l, rest).
Proof.
  induction l as [|[top bot] l IH];
    cbn [List.length read_cells map cat_all fold_right]; [reflexivity|].
  fold (cat_all (map (fun p => cell (fst p) (snd p)) l)).
  cbn [fst snd]. rewrite append_assoc_str, read_cell_cell, IH. reflexivity.
Qed.

Lemma read_line_ansi_line (s : fb_state) (y : Z) (rest : string) :
  read_line (ansi_line s y ++ rest)
  = Some (map (fun x => (fb s y x, fb s (y + 1) x)) (zrange 0 FB_W), rest).
Proof.
  unfold read_line, ansi_line.
  replace (map (fun x => cell (fb s y x) (fb s (y + 1) x)) (zrange 0 FB_W))
    with (map (fun p => cell (fst p) (snd p))
              (map (fun x => (fb s y x, fb s (y + 1) x)) (zrange 0 FB_W)))
    by (rewrite map_map; reflexivity).
  replace (Z.to_nat FB_W)
    with (List.length
            (map (fun x => (fb s y x, fb s (y + 1) x)) (zrange 0 FB_W)))
    by (rewrite length_map, zrange_length; reflexivity).
  rewrite !append_assoc_str, read_cells_cat.
  rewrite <- (append_assoc_str sgr_reset (String NL EmptyString) rest).
  rewrite strip_prefix_app. reflexivity.
Qed.

Lemma read_lines_cat (s : fb_state) (rows : list Z) (rest : string) :
  read_lines (List.length rows) (cat_all (map (ansi_line s) rows) ++ rest)
  = Some (map (fun y => map (fun x => (fb s y x, fb s (y + 1) x))
                            (zrange 0 FB_W)) rows, rest).
Proof.
  induction rows as [|y rows IH];
    cbn [List.length read_lines map cat_all fold_right]; [reflexivity|].
  fold (cat_all (map (ansi_line s) rows)).
  rewrite append_assoc_str, read_line_ansi_line, IH. reflexivity.
Qed.

Lemma read_text_ansi_text (s : fb_state) :
  read_text (ansi_text s) = Some (half_block_pairs s).
Proof.
  unfold read_text, ansi_text. rewrite strip_prefix_app.
  change (Z.to_nat (FB_H / 2)) with (List.length pair_rows).
  rewrite read_lines_cat.
  assert (E : strip_prefix sgr_reset sgr_reset = Some EmptyString)
    by reflexivity.
  rewrite E. reflexivity.
Qed.

(** X17.  The terminal text loses nothing: reading the output of
    [ansi_output] of either build back (clear screen, 200 lines of 640
    cells, each "fg;bg" pair parsed from its decimal channels) yields the
    upper and the lower pixel of every cell, that is, every pixel of the
    canvas. *)
Theorem ansi_output_reads_back (s : fb_state) :
  read_text (Screenshot.ansi_output s EmptyString)
  = Some (half_block_pairs s) /\
  read_text (Weatherstar.ansi_output s EmptyString)
  = Some (half_block_pairs s) /\
  forall y x, 0 <= y < FB_H / 2 -> 0 <= x < FB_W ->
    nth (Z.to_nat x) (nth (Z.to_nat y) (half_block_pairs s) [])
        (fb s 0 0, fb s 0 0)
    = (fb s (2 * y) x, fb s (2 * y + 1) x).
Proof.
  rewrite screenshot_ansi_output_text, ws_ansi_output_text.
  split; [apply read_text_ansi_text|].
  split; [apply read_text_ansi_text|].
  intros y x Hy Hx. unfold half_block_pairs, pair_rows.
  assert (N : forall {A : Type} (f : Z -> A) (hi i : Z) (d : A),
            0 <= i < hi -> nth (Z.to_nat i) (map f (zrange 0 hi)) d = f i).
  { intros A f hi i d Hi. unfold zrange. rewrite map_map.
    rewrite nth_indep with (d' := f (0 + Z.of_nat 0))
      by (rewrite length_map, length_seq; lia).
    rewrite (map_nth (fun k => f (0 + Z.of_nat k))).
    rewrite seq_nth by lia. f_equal. lia. }
  rewrite map_map.
  rewrite (N _ (fun k => map (fun x0 => (fb s (2 * k) x0,
                                          fb s (2 * k + 1) x0))
                             (zrange 0 FB_W)) 200 y [])
    by (unfold FB_H in Hy; change (400 / 2) with 200 in Hy; lia).
  apply N. exact Hx.
Qed.

Lemma dec_byte_length (x : byte) :
  String.length (dec (int_of x))
  = (if int_of x <? 10 then 1%nat
      else if int_of x <? 100 then 2%nat else 3%nat).
Proof.
  assert (H : forallb (fun x =>
                Nat.eqb (String.length (dec (int_of x)))
                  (if int_of x <? 10 then 1%nat
                   else if int_of x <? 100 then 2%nat else 3%nat))
                all_bytes = true)
    by (vm_compute; reflexivity).
  pose proof (forall_bytes _ H x) as Hx. cbv beta in Hx.
  now apply Nat.eqb_eq in Hx.
Qed.

(** ** C8: cells, lines and resets *)

(** C8.  Both exporters write: the clear-screen sequence, then one line for
    every pair of rows (y, y + 1), y = 0, 2, ..., 398, and the reset
    sequence ESC [0m at the end.  A line has one cell per column and ends
    with the reset sequence and a newline.  The cell of column x is
    ESC [38;2;R;G;Bm with the decimal channels of the pixel of row y (the
    foreground colour), ESC [48;2;R;G;Bm with those of the pixel of row
    y + 1 (the background colour), and the three bytes of U+2580, the upper
    half block; a channel is printed in decimal without leading zeros, and
    read back a cell gives the two pixels.  There are exactly 200 lines
    and 200 newlines. *)
Theorem ansi_output_half_blocks (s : fb_state) :
  Weatherstar.ansi_output s EmptyString = ansi_text s /\
  Screenshot.ansi_output s EmptyString = ansi_text s /\
  ansi_text s
  = (clear_screen ++ cat_all (map (ansi_line s) pair_rows) ++ sgr_reset)%string
  /\
  (forall y, In y pair_rows <-> 0 <= y < FB_H /\ y mod 2 = 0) /\
  (forall y,
     ansi_line s y
     = (cat_all (map (fun x => cell (fb s y x) (fb s (y + 1) x))
                     (zrange 0 FB_W))
        ++ sgr_reset ++ String NL EmptyString)%string) /\
  List.length pair_rows = 200%nat /\
  count_nl (ansi_text s) = 200%nat /\
  (forall y, count_nl (ansi_line s y) = 1%nat) /\
  (forall top bot,
     cell top bot
     = (String "027" "[38;2;" ++ dec (int_of (r top)) ++ ";"
        ++ dec (int_of (g top)) ++ ";" ++ dec (int_of (b top)) ++ "m"
        ++ String "027" "[48;2;" ++ dec (int_of (r bot)) ++ ";"
        ++ dec (int_of (g bot)) ++ ";" ++ dec (int_of (b bot)) ++ "m"
        ++ String "226" (String "150" (String "128" EmptyString)))%string) /\
  (forall x : byte,
     all_digits (dec (int_of x)) = true /\
     String.length (dec (int_of x))
     = (if int_of x <? 10 then 1%nat
      else if int_of x <? 100 then 2%nat else 3%nat)
     /\
     digits_value 0 (dec (int_of x)) = int_of x) /\
  cell (rgb 255 200 50) (rgb 5 15 60)
  = (String "027" "[38;2;255;200;50m" ++ String "027" "[48;2;5;15;60m"
     ++ String "226" (String "150" (String "128" EmptyString)))%string /\
  (forall top bot rest,
     read_cell (cell top bot ++ rest) = Some (top, bot, rest)) /\
  sgr_reset = String "027" "[0m" /\
  clear_screen = (String "027" "[H" ++ String "027" "[2J")%string /\
  NL = "010"%char.
Proof.
  split; [apply ws_ansi_output_text|].
  split; [apply screenshot_ansi_output_text|].
  split; [reflexivity|].
  split; [apply pair_rows_spec|].
  split; [reflexivity|].
  split; [reflexivity|].
  split; [apply count_nl_ansi_text|].
  split; [apply count_nl_ansi_line|].
  split; [reflexivity|].
  split.
  { intros x. destruct (dec_byte_digits x) as (H1 & H2 & H3).
    split; [exact H1|]. split; [apply dec_byte_length | exact H3]. }
  split; [vm_compute; reflexivity|].
  split; [apply read_cell_cell|].
  split; [reflexivity|]. split; reflexivity.
Qed.

(** ** The command line *)

(** Past a flag boundary the argument loop continues with what it has
    collected so far. *)
Lemma parse_args_app (pre rest : list string) (shot : option string)
  (na : bool) :
  at_flag_boundary pre = true ->
  parse_args (pre ++ rest) shot na
  = match parse_args pre shot na with
    | ShowHelp => ShowHelp
    | Proceed shot' na' => parse_args rest shot' na'
    end.
Proof.
  remember (List.length pre) as n eqn:En.
  assert (Hn : (List.length pre <= n)%nat) by lia. clear En.
  revert pre shot na Hn.
  induction n as [|n IH]; intros pre shot na Hn B.
  - destruct pre; [reflexivity | simpl in Hn; lia].
  - destruct pre as [|a pre0]; [reflexivity|].
    cbn [app parse_args]. cbn [at_flag_boundary] in B.
    cbn [List.length] in Hn.
    destruct (String.eqb a "--screenshot") eqn:Ea.
    + destruct pre0 as [|path pre']; [discriminate B|].
      cbn [andb app]. cbn [List.length] in Hn.
      apply IH; [lia | exact B].
    + cbn [andb].
      destruct (String.eqb a "--no-ansi").
      * apply IH; [lia | exact B].
      * destruct (String.eqb a "--help"); [reflexivity|].
        apply IH; [lia | exact B].
Qed.


(** A later [--screenshot FILE] makes the loop forget the path it held. *)
Lemma parse_args_last_shot (l post : list string) (p : string)
  (shot shot' : option string) (na : bool) :
  at_flag_boundary l = true ->
  parse_args (l ++ "--screenshot"%string :: p :: post) shot na
  = parse_args (l ++ "--screenshot"%string :: p :: post) shot' na.
Proof.
  remember (List.length l) as n eqn:En.
  assert (Hn : (List.length l <= n)%nat) by lia. clear En.
  revert l shot shot' na Hn.
  induction n as [|n IH]; intros l shot shot' na Hn B.
  - destruct l; [reflexivity | simpl in Hn; lia].
  - destruct l as [|a l0]; [reflexivity|].
    cbn [app parse_args]. cbn [at_flag_boundary] in B.
    cbn [List.length] in Hn.
    destruct (String.eqb a "--screenshot") eqn:Ea.
    + destruct l0 as [|path l']; [discriminate B|].
      cbn [andb app]. reflexivity.
    + cbn [andb].
      destruct (String.eqb a "--no-ansi").
      * apply IH; [lia | exact B].
      * destruct (String.eqb a "--help"); [reflexivity|].
        apply IH; [lia | exact B].
Qed.



Section CommandLine.
Variable compose : clock -> fb_state -> fb_state.
Variable ansi : fb_state -> string -> string.
Variable write_png : string -> fb_state -> list event * Z.

Lemma main_help (clk : clock) (pre rest : list string) :
  at_flag_boundary pre = true ->
  main compose ansi write_png clk (pre ++ "--help"%string :: rest)
  = ([Stdout usage], 0).
Proof.
  intros B. unfold main. rewrite parse_args_app by exact B.
  destruct (parse_args pre None false); reflexivity.
Qed.

Lemma main_unknown (clk : clock) (pre post : list string) (a : string) :
  at_flag_boundary pre = true ->
  a <> "--screenshot"%string -> a <> "--no-ansi"%string ->
  a <> "--help"%string ->
  main compose ansi write_png clk (pre ++ a :: post)
  = main compose ansi write_png clk (pre ++ post).
Proof.
  intros B H1 H2 H3. unfold main. rewrite !parse_args_app by exact B.
  destruct (parse_args pre None false) as [|shot na]; [reflexivity|].
  cbn [parse_args].
  apply String.eqb_neq in H1, H2, H3. rewrite H1, H2, H3. reflexivity.
Qed.

Lemma main_last_shot (clk : clock) (pre mid post : list string)
  (p1 p2 : string) :
  at_flag_boundary pre = true -> at_flag_boundary mid = true ->
  main compose ansi write_png clk
       (pre ++ "--screenshot"%string :: p1 :: mid
            ++ "--screenshot"%string :: p2 :: post)
  = main compose ansi write_png clk
         (pre ++ mid ++ "--screenshot"%string :: p2 :: post).
Proof.
  intros B1 B2. unfold main. rewrite !parse_args_app by exact B1.
  destruct (parse_args pre None false) as [|shot na]; [reflexivity|].
  cbn [parse_args String.eqb Ascii.eqb Bool.eqb andb app].
  destruct (mid ++ "--screenshot"%string :: p2 :: post) as [|m0 ms] eqn:E;
    [destruct mid; discriminate E|].
  rewrite <- E.
  now rewrite (parse_args_last_shot mid post p2 (Some p1) shot na B2).
Qed.

Variable png : string -> png_outcome.


End CommandLine.

(** X18.  [--help] wins wherever the argument loop meets it as a flag: the
    usage line is printed, the exit code is 0, and nothing is rendered or
    written, whatever comes before or after it.  (As the FILE of a
    [--screenshot] it is a file name, not a flag.) *)
Theorem help_stops_the_run (cosf sinf : F32.float -> F32.float)
  (png : string -> png_outcome) (clk : clock) (pre rest : list string) :
  at_flag_boundary pre = true ->
  Main.main cosf sinf png clk (pre ++ "--help"%string :: rest)
  = ([Stdout usage], 0) /\
  Weatherstar.main cosf sinf png clk (pre ++ "--help"%string :: rest)
  = ([Stdout usage], 0).
Proof.
  intros B. split; apply main_help; exact B.
Qed.

Lemma help_stops_the_run_witness :
  at_flag_boundary ["--screenshot"%string; "out.png"%string] = true /\
  Main.main cosf_at_0 sinf_at_0 (fun _ => Written)
            (clock_0830pm "Saturday  Feb 07, 2026")
            (["--screenshot"%string; "out.png"%string]
               ++ "--help"%string :: ["--no-ansi"%string])
  = ([Stdout usage], 0).
Proof.
  assert (B : at_flag_boundary ["--screenshot"%string; "out.png"%string] = true)
    by reflexivity.
  split; [exact B|].
  exact (proj1 (help_stops_the_run cosf_at_0 sinf_at_0 (fun _ => Written)
                  (clock_0830pm "Saturday  Feb 07, 2026")
                  ["--screenshot"%string; "out.png"%string]
                  ["--no-ansi"]%string B)).
Defined.

(** X19.  An argument that is none of the three flags, met where a flag
    could stand, is skipped without a message: the run is the run of the
    command line without it. *)
Theorem unknown_argument_is_ignored (cosf sinf : F32.float -> F32.float)
  (png : string -> png_outcome) (clk : clock) (pre post : list string)
  (a : string) :
  at_flag_boundary pre = true ->
  a <> "--screenshot"%string -> a <> "--no-ansi"%string ->
  a <> "--help"%string ->
  Main.main cosf sinf png clk (pre ++ a :: post)
  = Main.main cosf sinf png clk (pre ++ post) /\
  Weatherstar.main cosf sinf png clk (pre ++ a :: post)
  = Weatherstar.main cosf sinf png clk (pre ++ post).
Proof.
  intros B H1 H2 H3. split; apply main_unknown; assumption.
Qed.

Lemma unknown_argument_is_ignored_witness :
  at_flag_boundary ["--no-ansi"]%string = true /\
  "-v"%string <> "--screenshot"%string /\
  "-v"%string <> "--no-ansi"%string /\ "-v"%string <> "--help"%string /\
  Main.main cosf_at_0 sinf_at_0 (fun _ => Written)
            (clock_0830pm "Saturday  Feb 07, 2026")
            (["--no-ansi"%string] ++ "-v"%string :: [])
  = Main.main cosf_at_0 sinf_at_0 (fun _ => Written)
              (clock_0830pm "Saturday  Feb 07, 2026")
              (["--no-ansi"%string] ++ []).
Proof.
  assert (B : at_flag_boundary ["--no-ansi"]%string = true) by reflexivity.
  assert (H1 : "-v"%string <> "--screenshot"%string) by discriminate.
  assert (H2 : "-v"%string <> "--no-ansi"%string) by discriminate.
  assert (H3 : "-v"%string <> "--help"%string) by discriminate.
  split; [exact B|]. split; [exact H1|]. split; [exact H2|].
  split; [exact H3|].
  exact (proj1 (unknown_argument_is_ignored cosf_at_0 sinf_at_0
                  (fun _ => Written) (clock_0830pm "Saturday  Feb 07, 2026")
                  ["--no-ansi"]%string []%list "-v"%string B H1 H2 H3)).
Defined.



(** X21.  Of two [--screenshot FILE] pairs met as flags the later one
    wins, wherever they stand: the run with the earlier pair is the run of
    the command line without that pair, whatever arguments come before,
    between and after the two, so the earlier file is never written. *)
Theorem later_screenshot_wins (cosf sinf : F32.float -> F32.float)
  (png : string -> png_outcome) (clk : clock) (pre mid post : list string)
  (p1 p2 : string) :
  at_flag_boundary pre = true -> at_flag_boundary mid = true ->
  Main.main cosf sinf png clk
            (pre ++ "--screenshot"%string :: p1 :: mid
                 ++ "--screenshot"%string :: p2 :: post)
  = Main.main cosf sinf png clk
              (pre ++ mid ++ "--screenshot"%string :: p2 :: post) /\
  Weatherstar.main cosf sinf png clk
            (pre ++ "--screenshot"%string :: p1 :: mid
                 ++ "--screenshot"%string :: p2 :: post)
  = Weatherstar.main cosf sinf png clk
              (pre ++ mid ++ "--screenshot"%string :: p2 :: post).
Proof.
  intros B1 B2. split; apply main_last_shot; assumption.
Qed.

Lemma later_screenshot_wins_witness :
  at_flag_boundary ([] : list string) = true /\
  at_flag_boundary ([] : list string) = true /\
  Main.main cosf_at_0 sinf_at_0 (fun _ => OpenFails "Permission denied")
            (clock_0830pm "Saturday  Feb 07, 2026")
            ([] ++ "--screenshot"%string :: "a.png"%string :: []
                ++ "--screenshot"%string :: "b.png"%string
                   :: ["--no-ansi"%string])
  = Main.main cosf_at_0 sinf_at_0 (fun _ => OpenFails "Permission denied")
              (clock_0830pm "Saturday  Feb 07, 2026")
              ([] ++ [] ++ "--screenshot"%string :: "b.png"%string
                  :: ["--no-ansi"%string]).
Proof.
  assert (B : at_flag_boundary ([] : list string) = true) by reflexivity.
  split; [exact B|]. split; [exact B|].
  exact (proj1 (later_screenshot_wins cosf_at_0 sinf_at_0
                  (fun _ => OpenFails "Permission denied")
                  (clock_0830pm "Saturday  Feb 07, 2026")
                  []%list []%list ["--no-ansi"%string]
                  "a.png"%string "b.png"%string B B)).
Defined.


(** ** The composed scene and the clock *)

Section ClockFacts.
Variable fb_clear : fb_state -> fb_state.
Variable draw_rounded_rect :
  Z -> Z -> Z -> Z -> Z -> rgb_t -> fb_state -> fb_state.
Variable draw_sun : Z -> Z -> Z -> fb_state -> fb_state.

(** The date and the time are drawn in rows 376 to 389; the rest of the
    scene does not read the clock. *)
Lemma compose_clock_rows (clk1 clk2 : clock) (s : fb_state) (y x : Z) :
  y < 376 \/ 390 <= y ->
  fb (compose_display fb_clear draw_rounded_rect draw_sun clk1 s) y x
  = fb (compose_display fb_clear draw_rounded_rect draw_sun clk2 s) y x.
Proof.
  intros Hy. unfold compose_display. cbv zeta.
  eapply pw_step; [apply draws_fb_string_centered|].
  rewrite !fb_string_outside_rows by (unfold FB_H; lia).
  reflexivity.
Qed.
End ClockFacts.

(** X23.  The clock shows in rows 376 to 389 only (the date and the time
    in the bottom bar): every pixel above or below these rows is the same
    whatever [strftime] returned, in either build. *)
Theorem clock_changes_the_bottom_bar_only
  (cosf sinf : F32.float -> F32.float) (clk1 clk2 : clock) (s : fb_state)
  (y x : Z) :
  y < 376 \/ 390 <= y ->
  fb (Display.compose_display cosf sinf clk1 s) y x
  = fb (Display.compose_display cosf sinf clk2 s) y x /\
  fb (Weatherstar.compose_display cosf sinf clk1 s) y x
  = fb (Weatherstar.compose_display cosf sinf clk2 s) y x.
Proof.
  intros Hy. split.
  - unfold Display.compose_display. apply compose_clock_rows. exact Hy.
  - unfold Weatherstar.compose_display. apply compose_clock_rows. exact Hy.
Qed.

Lemma clock_changes_the_bottom_bar_only_witness :
  (100 < 376 \/ 390 <= 100) /\
  fb (Display.compose_display cosf_at_0 sinf_at_0
        (mk_clock "08:30 PM" "Saturday  Feb 07, 2026") fb_initial) 100 50
  = fb (Display.compose_display cosf_at_0 sinf_at_0
          (mk_clock "11:59 AM" "Sunday  Feb 08, 2026") fb_initial) 100 50.
Proof.
  assert (H : 100 < 376 \/ 390 <= 100) by (left; lia).
  split; [exact H|].
  exact (proj1 (clock_changes_the_bottom_bar_only cosf_at_0 sinf_at_0
                  (mk_clock "08:30 PM" "Saturday  Feb 07, 2026")
                  (mk_clock "11:59 AM" "Sunday  Feb 08, 2026")
                  fb_initial 100 50 H)).
Defined.

(** ** The ray stores of weatherstar.c *)

Lemma oob_for_range (lo hi : Z) (body : Z -> fb_state -> fb_state)
  (bad : Z -> bool) :
  (forall i s, lo <= i < hi -> oob (body i s) = oob s || bad i) ->
  forall s, oob (for_range lo hi body s)
            = oob s || exists_range lo hi bad.
Proof.
  intros H. unfold for_range, exists_range.
  remember (Z.to_nat (hi - lo)) as n eqn:En.
  revert lo En H. induction n as [|n IH]; intros lo En H s.
  - rewrite zrange_nil by lia. cbn [for_n existsb]. now rewrite orb_false_r.
  - rewrite (zrange_first lo hi) by lia. cbn [for_n existsb].
    rewrite (IH (lo + 1)); [|lia|intros i t Hi; apply H; lia].
    rewrite H by lia. now rewrite orb_assoc.
Qed.

(** X24.  When weatherstar.c's [draw_sun] stores outside the array: the
    flag is raised exactly when some ray step passes the guard
    [px + 1 < FB_W] of the second store with (px + 1, py) off the canvas
    (a row above or below it, or a column left of it).  The disc and the
    first store of each step never do. *)
Theorem ws_draw_sun_escapes (cosf sinf : F32.float -> F32.float)
  (cx cy rad : Z) (s : fb_state) :
  oob (Weatherstar.draw_sun cosf sinf cx cy rad s)
  = oob s ||
    exists_range 0 8 (fun i =>
      exists_range (rad + 3) (rad + 10) (fun d =>
        ray_escapes cosf sinf cx cy i d)).
Proof.
  unfold Weatherstar.draw_sun. cbv zeta.
  rewrite (oob_for_range 0 8 _
             (fun i => exists_range (rad + 3) (rad + 10) (fun d =>
                         ray_escapes cosf sinf cx cy i d))).
  - f_equal.
    apply (draws_oob (fun _ _ => True)).
    apply draws_disc_gen. auto.
  - intros i t _.
    apply (oob_for_range (rad + 3) (rad + 10)). intros d u _.
    unfold ray_escapes. cbv zeta.
    set (px := cx + Icons.ray_offset cosf i d).
    set (py := cy + Icons.ray_offset sinf i d).
    assert (E1 : oob (if in_fb py px then fb_set py px COL_ORANGE u else u)
                 = oob u).
    { destruct (in_fb py px) eqn:Hin; [|reflexivity].
      rewrite oob_fb_set, Hin. cbn [negb]. apply orb_false_r. }
    destruct (px + 1 <? FB_W).
    + rewrite oob_fb_set, E1. reflexivity.
    + rewrite E1. cbn [andb]. now rewrite orb_false_r.
Qed.

(** ** The sun *)

Lemma exists_range_ext (lo hi : Z) (p q : Z -> bool) :
  (forall i, lo <= i < hi -> p i = q i) ->
  exists_range lo hi p = exists_range lo hi q.
Proof.
  intros H. apply eq_iff_eq_true. rewrite !exists_range_true.
  split; intros [i [Hi Hp]]; exists i; (split; [exact Hi|]).
  - now rewrite <- H.
  - now rewrite H.
Qed.

Lemma ray_pixel_eq (py px y x : Z) :
  (in_fb py px && (y =? py) && (x =? px)) ||
  (in_fb py (px + 1) && (y =? py) && (x =? px + 1))
  = in_fb y x && (y =? py) && ((x =? px) || (x =? px + 1)).
Proof.
  destruct (Z.eqb_spec y py) as [->|Ny].
  - destruct (Z.eqb_spec x px) as [->|Nx].
    + replace (px =? px + 1) with false by (symmetry; apply Z.eqb_neq; lia).
      rewrite !andb_true_r, !andb_false_r. cbn [orb]. now rewrite orb_false_r.
    + destruct (Z.eqb_spec x (px + 1)) as [->|Nx1].
      * rewrite !andb_true_r, !andb_false_r. reflexivity.
      * rewrite !andb_false_r. reflexivity.
  - rewrite !andb_false_r. reflexivity.
Qed.

Lemma paints_rays (cosf sinf : F32.float -> F32.float) (cx cy rad : Z) :
  paints
    (for_range 0 8 (fun i =>
       for_range (rad + 3) (rad + 10) (fun d s =>
         let px := cx + Icons.ray_offset cosf i d in
         let py := cy + Icons.ray_offset sinf i d in
         let s := if in_fb py px then fb_set py px COL_ORANGE s else s in
         if in_fb py (px + 1) then fb_set py (px + 1) COL_ORANGE s else s)))
    (ray_hit cosf sinf cx cy rad) (fun _ _ => COL_ORANGE).
Proof.
  eapply paints_ext; cycle 1.
  - apply paints_for_range. intros i _.
    apply (paints_for_range (rad + 3) (rad + 10)
             (fun d s =>
                put (cy + Icons.ray_offset sinf i d)
                    (cx + Icons.ray_offset cosf i d + 1) COL_ORANGE
                  (put (cy + Icons.ray_offset sinf i d)
                       (cx + Icons.ray_offset cosf i d) COL_ORANGE s))
             (fun d y x =>
                (in_fb (cy + Icons.ray_offset sinf i d)
                       (cx + Icons.ray_offset cosf i d) &&
                 (y =? cy + Icons.ray_offset sinf i d) &&
                 (x =? cx + Icons.ray_offset cosf i d)) ||
                (in_fb (cy + Icons.ray_offset sinf i d)
                       (cx + Icons.ray_offset cosf i d + 1) &&
                 (y =? cy + Icons.ray_offset sinf i d) &&
                 (x =? cx + Icons.ray_offset cosf i d + 1)))).
    intros d _.
    apply (paints_seq
             (put (cy + Icons.ray_offset sinf i d)
                  (cx + Icons.ray_offset cosf i d) COL_ORANGE)
             (put (cy + Icons.ray_offset sinf i d)
                  (cx + Icons.ray_offset cosf i d + 1) COL_ORANGE));
      apply paints_put; reflexivity.
  - intros y x. cbv beta. unfold ray_hit.
    apply exists_range_ext. intros i _.
    apply exists_range_ext. intros d _. cbv zeta.
    apply ray_pixel_eq.
Qed.

(** X25.  What icons.h's [draw_sun] leaves on the canvas, for a radius of
    zero or more and whatever [cosf] and [sinf] return: the two pixels of
    every ray step are orange, the other pixels within [rad] of the centre
    are yellow, and every other pixel is as it was. *)
Theorem draw_sun_pixels (cosf sinf : F32.float -> F32.float)
  (cx cy rad : Z) (s : fb_state) (y x : Z) :
  0 <= rad ->
  fb (Icons.draw_sun cosf sinf cx cy rad s) y x
  = if ray_hit cosf sinf cx cy rad y x then COL_ORANGE
    else if in_disc cx cy rad y x then COL_YELLOW
    else fb s y x.
Proof.
  intros Hr. unfold Icons.draw_sun. cbv zeta.
  rewrite (paints_rays cosf sinf cx cy rad).
  destruct (ray_hit cosf sinf cx cy rad y x); [reflexivity|].
  apply (paints_disc cx cy rad COL_YELLOW Hr).
Qed.

Lemma draw_sun_pixels_witness :
  0 <= 18 /\
  fb (Icons.draw_sun cosf_at_0 sinf_at_0 90 159 18 fb_initial) 159 90
  = COL_YELLOW.
Proof.
  assert (H : 0 <= 18) by lia.
  split; [exact H|].
  exact (eq_trans
           (draw_sun_pixels cosf_at_0 sinf_at_0 90 159 18 fb_initial 159 90 H)
           eq_refl).
Defined.

(** ** The forecast boxes *)

Lemma fb_string_unchanged (px py : Z) (str : string) (fg : rgb_t)
  (scale : Z) (s : fb_state) (y x : Z) :
  x < px \/ px + Font.fb_string_width str scale - scale <= x \/
  y < py \/ py + 7 * scale <= y ->
  fb (Font.fb_string px py str fg scale s) y x = fb s y x.
Proof.
  intros H.
  destruct (rgb_eq_dec (fb (Font.fb_string px py str fg scale s) y x)
                       (fb s y x)) as [E|N]; [exact E|exfalso].
  apply fb_string_changed_pixel in N. lia.
Qed.

Lemma forecast_text_widths (i : Z) :
  0 <= i < 5 ->
  Font.fb_string_width (nth (Z.to_nat i) days EmptyString) 2 = 36 /\
  Font.fb_string_width
    (snprintf 32 ("Hi " ++ dec (nth (Z.to_nat i) his 0))) 1 = 30 /\
  Font.fb_string_width
    (snprintf 32 ("Lo " ++ dec (nth (Z.to_nat i) los 0))) 1 = 30 /\
  Font.fb_string_width (nth (Z.to_nat i) conds EmptyString) 1 <= 42.
Proof.
  intros Hi.
  assert (C : i = 0 \/ i = 1 \/ i = 2 \/ i = 3 \/ i = 4) by lia.
  destruct C as [-> | [-> | [-> | [-> | ->]]]];
    (split; [reflexivity|]); (split; [reflexivity|]);
    (split; [reflexivity|]); vm_compute; discriminate.
Qed.

(** X26.  A forecast box of width 49 or more draws inside its own
    rectangle only: for each of the five days, a pixel outside
    [bx, bx + box_w) x [by, by + 95) is left as it was (the texts and the
    indicator dot fit the box). *)
Theorem forecast_box_stays_inside (box_start box_w box_gap strip_y i : Z)
  (s : fb_state) (y x : Z) :
  0 <= i < 5 -> 49 <= box_w ->
  x < box_start + i * (box_w + box_gap) \/
  box_start + i * (box_w + box_gap) + box_w <= x \/
  y < strip_y + 26 \/ strip_y + 26 + 95 <= y ->
  fb (forecast_box box_start box_w box_gap strip_y i s) y x = fb s y x.
Proof.
  intros Hi Hw Hout.
  destruct (forecast_text_widths i Hi) as (W1 & W2 & W3 & W4).
  unfold forecast_box. cbv zeta.
  set (bx := box_start + i * (box_w + box_gap)) in *.
  set (by_ := strip_y + 26) in *.
  assert (Hq : 0 <= Z.quot (box_w - 36) 2 /\
               2 * Z.quot (box_w - 36) 2 <= box_w - 36).
  { rewrite Z.quot_div_nonneg by lia. split.
    - apply Z.div_pos; lia.
    - pose proof (Z.mul_div_le (box_w - 36) 2 ltac:(lia)). lia. }
  etransitivity;
    [exact (paints_disc (bx + box_w - 18) (by_ + 72) 3 _ ltac:(lia) _ y x)|].
  replace (in_disc (bx + box_w - 18) (by_ + 72) 3 y x) with false.
  2:{ symmetry. unfold in_disc. apply andb_false_iff. right.
      apply Z.leb_gt.
      assert (Hsq : forall d, d <= -4 \/ 4 <= d -> 16 <= d * d).
      { intros d [Hd|Hd].
        - replace (d * d) with ((- d) * (- d)) by lia.
          change 16 with (4 * 4). apply Z.mul_le_mono_nonneg; lia.
        - change 16 with (4 * 4). apply Z.mul_le_mono_nonneg; lia. }
      pose proof (Z.square_nonneg (x - (bx + box_w - 18))).
      pose proof (Z.square_nonneg (y - (by_ + 72))).
      assert (D : (x - (bx + box_w - 18) <= -4 \/
                   4 <= x - (bx + box_w - 18)) \/
                  (y - (by_ + 72) <= -4 \/ 4 <= y - (by_ + 72))) by lia.
      destruct D as [D|D]; apply Hsq in D; lia. }
  rewrite !fb_string_unchanged by (rewrite ?W1, ?W2, ?W3; lia).
  rewrite (paints_fb_hline bx (bx + box_w - 1) by_ COL_SEP).
  replace ((y =? by_) && (bx <=? x) && (x <=? bx + box_w - 1) && in_fb y x)
    with false.
  2:{ symmetry. apply not_true_iff_false.
      rewrite !andb_true_iff, Z.eqb_eq, !Z.leb_le. lia. }
  rewrite (paints_fb_rect bx by_ box_w 95 (rgb 15 25 90)).
  replace (in_rect bx by_ box_w 95 y x) with false; [reflexivity|].
  symmetry. apply not_true_iff_false. unfold in_rect.
  rewrite !andb_true_iff, !Z.leb_le, !Z.ltb_lt. lia.
Qed.

Lemma forecast_box_stays_inside_witness :
  0 <= 1 < 5 /\ 49 <= 110 /\
  (140 < 25 + 1 * (110 + 10) \/ 25 + 1 * (110 + 10) + 110 <= 140 \/
   300 < 252 + 26 \/ 252 + 26 + 95 <= 300) /\
  fb (forecast_box 25 110 10 252 1 fb_initial) 300 140
  = fb fb_initial 300 140.
Proof.
  assert (H1 : 0 <= 1 < 5) by lia.
  assert (H2 : 49 <= 110) by lia.
  assert (H3 : 140 < 25 + 1 * (110 + 10) \/
               25 + 1 * (110 + 10) + 110 <= 140 \/
               300 < 252 + 26 \/ 252 + 26 + 95 <= 300) by lia.
  split; [exact H1|]. split; [exact H2|]. split; [exact H3|].
  exact (forecast_box_stays_inside 25 110 10 252 1 fb_initial 300 140
           H1 H2 H3).
Defined.

(** ** Stores stay inside the array *)

(** X27.  Apart from weatherstar.c's [draw_sun], every drawing operation
    of the two builds stores inside the framebuffer array only, for all
    arguments: clearing, rectangles, gradients, lines, rounded rectangles
    of both builds, characters, strings, centred strings, the degree sign,
    icons.h's sun, the cloud and a forecast box. *)
Theorem drawing_operations_store_inside :
  safe Fb.fb_clear /\ safe Weatherstar.fb_clear /\
  (forall x0 y0 w h c, safe (Fb.fb_rect x0 y0 w h c)) /\
  (forall x0 y0 w h top bot, safe (Fb.fb_rect_grad_v x0 y0 w h top bot)) /\
  (forall x0 x1 y c, safe (Fb.fb_hline x0 x1 y c)) /\
  (forall x0 y0 w h rad fill,
     safe (Fb.draw_rounded_rect x0 y0 w h rad fill) /\
     safe (Weatherstar.draw_rounded_rect x0 y0 w h rad fill)) /\
  (forall px py ch fg scale, safe (Font.fb_char px py ch fg scale)) /\
  (forall px py str fg scale, safe (Font.fb_string px py str fg scale)) /\
  (forall y str fg scale, safe (Font.fb_string_centered y str fg scale)) /\
  (forall px py fg scale, safe (Font.fb_degree px py fg scale)) /\
  (forall cosf sinf cx cy rad, safe (Icons.draw_sun cosf sinf cx cy rad)) /\
  (forall cx cy col, safe (Icons.draw_cloud cx cy col)) /\
  (forall bs bw bg sy i, safe (forecast_box bs bw bg sy i)).
Proof.
  split; [intros s; apply (draws_oob _ _ s draws_fb_clear)|].
  split; [intros s; apply (draws_oob _ _ s draws_ws_fb_clear)|].
  split; [intros x0 y0 w h c s;
          apply (draws_oob _ _ s (draws_fb_rect x0 y0 w h c))|].
  split; [intros x0 y0 w h top bot s;
          apply (draws_oob _ _ s (draws_fb_rect_grad_v x0 y0 w h top bot))|].
  split; [intros x0 x1 y c s;
          apply (draws_oob _ _ s (draws_fb_hline x0 x1 y c))|].
  split.
  { intros x0 y0 w h rad fill. split; intros s.
    - apply (draws_oob (from_row (Z.min y0 (y0 + h - rad)))).
      apply draws_fb_draw_rounded_rect; lia.
    - apply (draws_oob (from_row (Z.min y0 (y0 + h - rad)))).
      apply draws_ws_draw_rounded_rect; lia. }
  split; [intros px py ch fg scale s;
          apply (draws_oob _ _ s (draws_fb_char px py ch fg scale))|].
  split; [intros px py str fg scale s;
          apply (draws_oob _ _ s (draws_fb_string px py str fg scale))|].
  split; [intros y str fg scale s;
          apply (draws_oob _ _ s (draws_fb_string_centered y str fg scale))|].
  split; [intros px py fg scale s;
          apply (draws_oob _ _ s (draws_fb_degree px py fg scale))|].
  split.
  { intros cosf sinf cx cy rad s.
    apply (draws_oob (fun _ _ => True)).
    apply draws_icons_draw_sun; auto. }
  split; [intros cx cy col s;
          apply (draws_oob _ _ s (draws_draw_cloud cx cy col))|].
  intros bs bw bg sy i s.
  apply (draws_oob _ _ s (draws_forecast_box bs bw bg sy i)).
Qed.

(** ** C9: the time in the status bar *)

Lemma paints_fb_string (px py : Z) (str : string) (fg : rgb_t) (scale : Z) :
  paints (Font.fb_string px py str fg scale) (string_hit px py str scale)
         (fun _ _ => fg).
Proof.
  revert px. induction str as [|c rest IH]; intros px s y x.
  - reflexivity.
  - unfold Font.fb_string. cbn [Font.fb_string_loop string_hit].
    change (snd (Font.fb_string_loop (px + 6 * scale) py rest fg scale
                   (Font.fb_char px py (Font.code c) fg scale s)))
      with (Font.fb_string (px + 6 * scale) py rest fg scale
              (Font.fb_char px py (Font.code c) fg scale s)).
    rewrite (IH (px + 6 * scale)).
    rewrite (paints_fb_char px py (Font.code c) fg scale).
    destruct (char_hit px py (Font.code c) scale y x),
      (string_hit (px + 6 * scale) py rest scale y x); reflexivity.
Qed.

Lemma string_hit_left (px py : Z) (str : string) (scale y x : Z) :
  string_hit px py str scale y x = true -> px <= x /\ 0 < scale.
Proof.
  revert px. induction str as [|c rest IH]; intros px H;
    cbn [string_hit] in H; [discriminate|].
  apply orb_true_iff in H. destruct H as [H|H].
  - unfold char_hit in H.
    rewrite !andb_true_iff, !Z.leb_le, !Z.ltb_lt in H. lia.
  - apply IH in H. lia.
Qed.

Section TimeFacts.
Variable fb_clear : fb_state -> fb_state.
Variable draw_rounded_rect :
  Z -> Z -> Z -> Z -> Z -> rgb_t -> fb_state -> fb_state.
Variable draw_sun : Z -> Z -> Z -> fb_state -> fb_state.

(** In the rows of the time text the bar is dark blue, the date is light
    gray and the centred label is gold: white is the time alone. *)
Lemma compose_time_band (date : string) (s : fb_state) (y x : Z) :
  376 <= y < 390 -> 0 <= x < FB_W ->
  (fb (compose_display fb_clear draw_rounded_rect draw_sun
         (clock_0830pm date) s) y x = COL_WHITE
   <-> string_hit 536 376 "8:30 PM" 2 y x = true).
Proof.
  intros Hy Hx. unfold compose_display. cbv zeta.
  change (strip_hour_zero (clock_time (clock_0830pm date)))
    with "8:30 PM"%string.
  change (clock_date (clock_0830pm date)) with date.
  change (FB_W - Font.fb_string_width "8:30 PM" 2 - 20) with 536.
  change (FB_H - 30 + 6) with 376. change (FB_H - 30 + 10) with 380.
  match goal with
  | |- context [Font.fb_string 20 380 date COL_LTGRAY 1 ?R] =>
      set (R0 := R)
  end.
  assert (HR : fb R0 y x = rgb 10 15 55).
  { unfold R0.
    rewrite !(paints_fb_hline 0 (FB_W - 1)).
    rewrite (paints_fb_rect 0 (FB_H - 30) FB_W 30).
    unfold FB_W, FB_H in *.
    replace (y =? 400 - 30 + 1) with false
      by (symmetry; apply Z.eqb_neq; lia).
    replace (y =? 400 - 30) with false
      by (symmetry; apply Z.eqb_neq; lia).
    cbn [andb].
    replace (in_rect 0 (400 - 30) 640 30 y x) with true; [reflexivity|].
    symmetry. unfold in_rect, in_fb, FB_W, FB_H.
    rewrite !andb_true_iff, !Z.leb_le, !Z.ltb_lt. lia. }
  set (D := Font.fb_string 20 380 date COL_LTGRAY 1 R0).
  set (T := Font.fb_string 536 376 "8:30 PM" COL_WHITE 2 D).
  assert (HD : fb D y x <> COL_WHITE).
  { destruct (rgb_eq_dec (fb D y x) (fb R0 y x)) as [E|N].
    - rewrite E, HR. intros K. vm_compute in K. discriminate K.
    - apply fb_string_changed_pixel in N. destruct N as [N _].
      fold D in N. rewrite N. intros K. vm_compute in K. discriminate K. }
  assert (HT : fb T y x
               = if string_hit 536 376 "8:30 PM" 2 y x then COL_WHITE
                 else fb D y x)
    by apply (paints_fb_string 536 376 "8:30 PM" COL_WHITE 2).
  unfold Font.fb_string_centered.
  change (Z.quot (FB_W - Font.fb_string_width "Local on the 8s" 1) 2)
    with 275.
  split.
  - intros W.
    destruct (rgb_eq_dec
                (fb (Font.fb_string 275 380 "Local on the 8s" COL_GOLD 1 T)
                    y x) (fb T y x)) as [E|N].
    + rewrite E, HT in W.
      destruct (string_hit 536 376 "8:30 PM" 2 y x); [reflexivity|].
      exfalso. apply HD. exact W.
    + apply fb_string_changed_pixel in N. destruct N as [N _].
      rewrite N in W. vm_compute in W. discriminate W.
  - intros H. pose proof (string_hit_left _ _ _ _ _ _ H) as [L _].
    rewrite fb_string_unchanged
      by (change (Font.fb_string_width "Local on the 8s" 1) with 90; lia).
    rewrite HT, H. reflexivity.
Qed.
End TimeFacts.

(** C9, amended.  With the clock at "08:30 PM" (any date, any earlier
    canvas) the composed scene has the gold accent colour at x = 0, y = 0
    and the header gradient colour of row 5, which is (39, 69, 169), at
    x = 0, y = 5 (that is [fb[5][0]]).  The time drawn in the status bar is
    "8:30 PM": the text starts at column 536, so that it ends 20 pixels
    from the right edge, and in rows 376 to 389 the white pixels of the
    canvas are exactly the pixels of the glyphs of "8:30 PM" at double
    size; the pixel (538, 376), in the top of the 8, is white, and the
    pixel (526, 376), which the text with its leading zero would whiten,
    is not.  The canvas is the one a clock string "8:30 PM" gives.  The ray offsets of the sun are assumed bounded
    by the ray length. *)
Theorem compose_display_fixed_scene (cosf sinf : F32.float -> F32.float)
  (date : string) (s : fb_state) :
  ray_bound cosf 21 28 -> ray_bound sinf 21 28 ->
  strip_hour_zero (clock_time (clock_0830pm date)) = "8:30 PM"%string /\
  Fb.grad_color 4 36 COL_HEADER (rgb 30 55 140) 5 = rgb 39 69 169 /\
  (fb (Display.compose_display cosf sinf (clock_0830pm date) s) 0 0
   = COL_GOLD /\
   fb (Display.compose_display cosf sinf (clock_0830pm date) s) 5 0
   = Fb.grad_color 4 36 COL_HEADER (rgb 30 55 140) 5 /\
   Display.compose_display cosf sinf (clock_0830pm date) s
   = Display.compose_display cosf sinf (mk_clock "8:30 PM" date) s) /\
  (fb (Weatherstar.compose_display cosf sinf (clock_0830pm date) s) 0 0
   = COL_GOLD /\
   fb (Weatherstar.compose_display cosf sinf (clock_0830pm date) s) 5 0
   = Fb.grad_color 4 36 COL_HEADER (rgb 30 55 140) 5 /\
   Weatherstar.compose_display cosf sinf (clock_0830pm date) s
   = Weatherstar.compose_display cosf sinf (mk_clock "8:30 PM" date) s) /\
  FB_W - Font.fb_string_width
           (strip_hour_zero (clock_time (clock_0830pm date))) 2 - 20 = 536 /\
  (forall y x, 376 <= y < 390 -> 0 <= x < FB_W ->
     (fb (Display.compose_display cosf sinf (clock_0830pm date) s) y x
      = COL_WHITE
      <-> string_hit 536 376 "8:30 PM" 2 y x = true)) /\
  (forall y x, 376 <= y < 390 -> 0 <= x < FB_W ->
     (fb (Weatherstar.compose_display cosf sinf (clock_0830pm date) s) y x
      = COL_WHITE
      <-> string_hit 536 376 "8:30 PM" 2 y x = true)) /\
  string_hit 536 376 "8:30 PM" 2 376 538 = true /\
  string_hit 536 376 "8:30 PM" 2 376 526 = false /\
  string_hit (FB_W - Font.fb_string_width "08:30 PM" 2 - 20) 376
             "08:30 PM" 2 376 526 = true.
Proof.
  intros Hc Hs.
  split; [reflexivity|].
  split; [vm_compute; reflexivity|].
  split; [|split; [|split; [reflexivity|split; [|split;
    [|split; [vm_compute; reflexivity
             |split; vm_compute; reflexivity]]]]]].
  - rewrite !display_top_rows by (assumption || lia).
    destruct (top_rows_pixels (Fb.fb_clear s)) as [H0 H5].
    split; [exact H0|]. split; [exact H5|].
    unfold Display.compose_display, compose_display. cbv zeta.
    change (strip_hour_zero (clock_time (clock_0830pm date)))
      with "8:30 PM"%string.
    change (strip_hour_zero (clock_time (mk_clock "8:30 PM" date)))
      with "8:30 PM"%string.
    reflexivity.
  - rewrite !ws_top_rows by (assumption || lia).
    destruct (top_rows_pixels (Weatherstar.fb_clear s)) as [H0 H5].
    split; [exact H0|]. split; [exact H5|].
    unfold Weatherstar.compose_display, compose_display. cbv zeta.
    change (strip_hour_zero (clock_time (clock_0830pm date)))
      with "8:30 PM"%string.
    change (strip_hour_zero (clock_time (mk_clock "8:30 PM" date)))
      with "8:30 PM"%string.
    reflexivity.
  - intros y x Hy Hx. unfold Display.compose_display.
    apply compose_time_band; assumption.
  - intros y x Hy Hx. unfold Weatherstar.compose_display.
    apply compose_time_band; assumption.
Qed.

Lemma compose_display_fixed_scene_witness :
  ray_bound cosf_at_0 21 28 /\ ray_bound sinf_at_0 21 28 /\
  fb (Display.compose_display cosf_at_0 sinf_at_0
        (clock_0830pm "Saturday  Feb 07, 2026") fb_initial) 5 0
  = Fb.grad_color 4 36 COL_HEADER (rgb 30 55 140) 5.
Proof.
  assert (Hc : ray_bound cosf_at_0 21 28)
    by (apply ray_bound_check_sound; vm_compute; reflexivity).
  assert (Hs : ray_bound sinf_at_0 21 28)
    by (apply ray_bound_check_sound; vm_compute; reflexivity).
  split; [exact Hc|]. split; [exact Hs|].
  exact (proj1 (proj2 (proj1 (proj2 (proj2
    (compose_display_fixed_scene cosf_at_0 sinf_at_0
       "Saturday  Feb 07, 2026" fb_initial Hc Hs)))))).
Defined.

